(** * viz_scout: the dataset loader ([viz_scout/dataset.py])

    A shallow embedding of [DatasetLoader] and the proofs of its specified
    behaviour.  The loader reads from three origins (a local directory,
    an S3 bucket, a MinIO bucket); every call outside the process (the file
    system, boto3, the MinIO client, the logger) is an oracle of a [World],
    and the loader is a computation in a small monad that threads the trace
    of the calls it has made and propagates Python exceptions. *)

From Stdlib Require Import Strings.Ascii Strings.Byte.
From Stdlib Require Strings.String.
From stdpp Require Import gmap strings list fin_maps pretty.



(* ===================================================================== *)
(** * Python values used by the loader *)
(* ===================================================================== *)

Module Py.

(** ** [str]: names are strings of 8-bit characters; [lower] folds A-Z. *)

Definition ascii_lower (c : ascii) : ascii :=
  let n := nat_of_ascii c in
  if (65 <=? n) && (n <=? 90) then ascii_of_nat (n + 32) else c.

(** [str.lower()] *)
Fixpoint lower (s : string) : string :=
  match s with
  | EmptyString => EmptyString
  | String c s' => String (ascii_lower c) (lower s')
  end.

(** [s.startswith(prefix)] *)
Fixpoint startswith (s pre : string) : bool :=
  match pre, s with
  | EmptyString, _ => true
  | String _ _, EmptyString => false
  | String a pre', String b s' => if Ascii.eqb a b then startswith s' pre' else false
  end.

(** [s.endswith(suffix)]: [s] is [suffix], or its tail ends with it. *)
Fixpoint endswith (s suf : string) : bool :=
  if String.eqb s suf then true
  else match s with
       | EmptyString => false
       | String _ s' => endswith s' suf
       end.

(** [s.endswith((suf1, suf2, ...))] with a tuple of suffixes. *)
Definition endswith_any (s : string) (sufs : list string) : bool :=
  existsb (endswith s) sufs.

(** The string has a ["/"] in it (no suffix of the filter has). *)
Fixpoint has_slash (s : string) : bool :=
  match s with
  | EmptyString => false
  | String c s' => Ascii.eqb c "/" || has_slash s'
  end.

(** [posixpath.join(a, b)] with two arguments. *)
Definition os_path_join (a b : string) : string :=
  if startswith b "/" then b
  else if String.eqb a "" || endswith a "/" then a +:+ b
  else a +:+ "/" +:+ b.

(** ** Dictionary values of the backend configurations *)

Inductive value : Type :=
| VStr (s : string)
| VBool (b : bool).

(** [str(v)], as an f-string renders it. *)
Definition str (v : value) : string :=
  match v with
  | VStr s => s
  | VBool true => "True"
  | VBool false => "False"
  end.

(** A configuration argument: [None] or a [dict]. *)
Definition config : Type := option (gmap string value).

(** Truth value of a configuration ([not cfg] in the source): [None] and the
    empty dict are false. *)
Definition truthy (cfg : config) : bool :=
  match cfg with
  | None => false
  | Some d => negb (Nat.eqb (size d) 0)
  end.

(** ** Exceptions (all subclasses of [Exception]) *)

Inductive exception : Type :=
| ValueError (msg : string)
| KeyError (key : string)
| TypeError (msg : string)
| AttributeError (msg : string)
| OSError (msg : string)
| ClientError (msg : string).

(** [str(e)]: the message; a [KeyError] shows the repr of its key. *)
Definition exc_str (e : exception) : string :=
  match e with
  | ValueError m | TypeError m | AttributeError m | OSError m | ClientError m => m
  | KeyError k => "'" +:+ k +:+ "'"
  end.

Inductive result (A : Type) : Type :=
| Ok (a : A)
| Err (e : exception).
Arguments Ok {A} a.
Arguments Err {A} e.

(** ** [io.BytesIO]: a byte buffer and a position *)

Record BytesIO : Type := mkBytesIO { getvalue : list byte; tell : nat }.

(** [BytesIO(initial)] *)
Definition BytesIO_new (initial : list byte) : BytesIO :=
  {| getvalue := initial; tell := 0 |}.

(** [stream.write(b)]: overwrite at the position (zero-padding a gap past
    the end), then advance the position. *)
Definition BytesIO_write (s : BytesIO) (b : list byte) : BytesIO :=
  let pad := replicate (tell s - length (getvalue s)) x00 in
  {| getvalue := take (tell s) (getvalue s ++ pad) ++ b
                 ++ drop (tell s + length b) (getvalue s);
     tell := tell s + length b |}.

(** [stream.seek(pos)] *)
Definition BytesIO_seek (s : BytesIO) (pos : nat) : BytesIO :=
  {| getvalue := getvalue s; tell := pos |}.

End Py.
Export Py.

(* ===================================================================== *)
(** * The world outside the process *)
(* ===================================================================== *)

Module Env.

(** The arguments a boto3 S3 client is built from. *)
Record S3Client : Type := mkS3Client {
  aws_access_key_id : value;
  aws_secret_access_key : value;
  region_name : value
}.

(** The arguments a MinIO client is built from. *)
Record MinioClient : Type := mkMinioClient {
  endpoint : value;
  access_key : value;
  secret_key : value;
  secure : value
}.

(** An entry of a listing: the loader reads only its name. *)
Record S3Object : Type := mkS3Object { Key : string }.
Record MinioObject : Type := mkMinioObject { object_name : string }.

(** One page of [list_objects_v2]: [Contents] is absent for an empty page;
    a truncated page carries the token of the next one. *)
Record ListObjectsV2Output : Type := mkListing {
  Contents : option (list S3Object);
  IsTruncated : bool;
  NextContinuationToken : option string
}.

(** The oracles.  [s3_list_objects_v2 c bucket None] is the first page of
    the bucket, [... (Some token)] a later one.  [minio_list_objects] is a
    generator: the entries it yields, then how it ends (normally, or by
    raising).  [minio_fget_object c bucket key stream] is what the client's
    [fget_object] does when it is handed [stream] as third argument: the
    stream it leaves behind, or the exception it raises. *)
Record World : Type := mkWorld {
  os_path_exists : string -> bool;
  os_listdir : string -> result (list string);
  open_rb_read : string -> result (list byte);
  boto3_client : S3Client -> result unit;
  s3_list_objects_v2 : S3Client -> value -> option string -> result ListObjectsV2Output;
  s3_object_body : S3Client -> value -> string -> result (list byte);
  Minio : MinioClient -> result unit;
  minio_list_objects : MinioClient -> value -> bool -> list MinioObject * option exception;
  minio_fget_object : MinioClient -> value -> string -> BytesIO -> result BytesIO
}.

Inductive level : Type := INFO | ERROR.

(** What a run does that is visible outside: log records and calls. *)
Inductive event : Type :=
| Log (lvl : level) (msg : string)
| PathExists (path : string)
| Listdir (path : string)
| OpenRead (path : string)
| Boto3Client (c : S3Client)
| S3ListObjectsV2 (c : S3Client) (bucket : value) (token : option string)
| S3DownloadFileobj (c : S3Client) (bucket : value) (key : string)
| MinioNew (c : MinioClient)
| MinioListObjects (c : MinioClient) (bucket : value) (recursive : bool)
| MinioFgetObject (c : MinioClient) (bucket : value) (key : string).

(** A client is constructed. *)
Definition is_client_construction (e : event) : bool :=
  match e with
  | Boto3Client _ | MinioNew _ => true
  | _ => false
  end.

(** A request goes to a remote backend. *)
Definition is_network_call (e : event) : bool :=
  match e with
  | S3ListObjectsV2 _ _ _ | S3DownloadFileobj _ _ _
  | MinioListObjects _ _ _ | MinioFgetObject _ _ _ => true
  | _ => false
  end.

Definition is_s3_listing (e : event) : bool :=
  match e with
  | S3ListObjectsV2 _ _ _ => true
  | _ => false
  end.

(** ** The monad: read the world, extend the trace, return or raise *)

Definition IO (A : Type) : Type := World -> list event -> result A * list event.

Definition ret {A} (a : A) : IO A := fun _ tr => (Ok a, tr).

Definition bind {A B} (m : IO A) (k : A -> IO B) : IO B :=
  fun w tr =>
    match m w tr with
    | (Ok a, tr') => k a w tr'
    | (Err e, tr') => (Err e, tr')
    end.

Definition raise {A} (e : exception) : IO A := fun _ tr => (Err e, tr).

Definition emit (ev : event) : IO unit := fun _ tr => (Ok tt, tr ++ [ev]).

(** Ask an oracle: record the call, then return or raise what it answers. *)
Definition ask {A} (ev : event) (oracle : World -> result A) : IO A :=
  fun w tr => (oracle w, tr ++ [ev]).

Notation "x <- m ;; k" := (bind m (fun x => k))
  (at level 100, m at next level, right associativity,
   format "'[v' x  <-  m  ;;  '/' k ']'").
Notation "m ;;; k" := (bind m (fun _ => k))
  (at level 100, right associativity).

(** [logging.info] / [logging.error] *)
Definition logging (lvl : level) (msg : string) : IO unit := emit (Log lvl msg).

(** [try: body except Exception as e: logging.error(f"{prefix}{e}"); raise] *)
Definition try_log_raise {A} (prefix : string) (body : IO A) : IO A :=
  fun w tr =>
    match body w tr with
    | (Ok a, tr') => (Ok a, tr')
    | (Err e, tr') => (Err e, tr' ++ [Log ERROR (prefix +:+ exc_str e)])
    end.

(** [for x in items: acc = body(acc, x)], stopping at the first raise. *)
Fixpoint for_each {A S} (items : list A) (body : S -> A -> IO S) (acc : S) : IO S :=
  match items with
  | [] => ret acc
  | x :: items' => acc' <- body acc x ;; for_each items' body acc'
  end.

(** [tqdm(iterable, desc=...)] yields the elements of [iterable] (the
    progress bar it draws is not modelled). *)
Definition tqdm {A} (iterable : A) (desc : string) : A := iterable.

(** [cfg[key]] *)
Definition getitem (cfg : config) (key : string) : IO value :=
  match cfg with
  | None => raise (TypeError "'NoneType' object is not subscriptable")
  | Some d =>
      match d !! key with
      | Some v => ret v
      | None => raise (KeyError key)
      end
  end.

(** [cfg.get(key, default)] *)
Definition dict_get (cfg : config) (key : string) (dflt : value) : IO value :=
  match cfg with
  | None => raise (AttributeError "'NoneType' object has no attribute 'get'")
  | Some d => ret (default dflt (d !! key))
  end.

End Env.
Export Env.

(* ===================================================================== *)
(** * [class DatasetLoader] *)
(* ===================================================================== *)

(** [__init__] only stores its three arguments. *)
Record DatasetLoader : Type := mkDatasetLoader {
  source : string;
  minio_config : config;
  s3_config : config
}.

(** The tuple ['.png', '.jpg', '.jpeg', '.bmp'] of the three filters. *)
Definition IMAGE_SUFFIXES : list string := [".png"; ".jpg"; ".jpeg"; ".bmp"].

(** [name.lower().endswith(('.png', '.jpg', '.jpeg', '.bmp'))] *)
Definition is_image_name (name : string) : bool :=
  endswith_any (lower name) IMAGE_SUFFIXES.

(** The event is no fetch, or the fetch of an object with an image name. *)
Definition fetches_image (ev : event) : bool :=
  match ev with
  | OpenRead path => is_image_name path
  | S3DownloadFileobj _ _ key | MinioFgetObject _ _ key => is_image_name key
  | _ => true
  end.

(** The nested [load_file] of [_load_from_local]:
    [open(file, "rb")], [BytesIO(f.read())], [seek(0)]. *)
Definition load_file (file : string) : IO BytesIO :=
  data <- ask (OpenRead file) (fun w => open_rb_read w file) ;;
  let file_stream := BytesIO_new data in
  let file_stream := BytesIO_seek file_stream 0 in
  ret file_stream.

Definition _load_from_local (self : DatasetLoader) : IO (gmap string BytesIO) :=
  try_log_raise "Error loading images from local directory: " (
    found <- ask (PathExists (source self)) (fun w => Ok (os_path_exists w (source self))) ;;
    if negb found
    then raise (ValueError ("Local path does not exist: " +:+ source self))
    else
      logging INFO ("Loading images from local directory: " +:+ source self) ;;;
      entries <- ask (Listdir (source self)) (fun w => os_listdir w (source self)) ;;
      let image_files := filter (fun file => is_image_name file = true) entries in
      images <- for_each image_files
                  (fun images file =>
                     stream <- load_file (os_path_join (source self) file) ;;
                     ret (<[os_path_join (source self) file := stream]> images))
                  ∅ ;;
      logging INFO ("Successfully loaded " +:+ pretty (size images)
                    +:+ " images from local directory.") ;;;
      ret images).

(** [s3.download_fileobj(bucket, key, file_stream)]: the object's body is
    written to the stream. *)
Definition download_fileobj (s3 : S3Client) (bucket : value) (key : string)
    (file_stream : BytesIO) : IO BytesIO :=
  body <- ask (S3DownloadFileobj s3 bucket key) (fun w => s3_object_body w s3 bucket key) ;;
  ret (BytesIO_write file_stream body).

Definition _load_from_s3 (self : DatasetLoader) : IO (gmap string BytesIO) :=
  try_log_raise "Error loading images from S3: " (
    if negb (truthy (s3_config self))
    then raise (ValueError "S3 configuration is required for loading from S3.")
    else
      logging INFO "Initializing S3 client..." ;;;
      ak <- getitem (s3_config self) "access_key" ;;
      sk <- getitem (s3_config self) "secret_key" ;;
      rg <- getitem (s3_config self) "region" ;;
      let s3 := mkS3Client ak sk rg in
      ask (Boto3Client s3) (fun w => boto3_client w s3) ;;;
      bucket <- getitem (s3_config self) "bucket" ;;
      logging INFO ("Listing objects in S3 bucket: " +:+ str bucket) ;;;
      page <- ask (S3ListObjectsV2 s3 bucket None)
                  (fun w => s3_list_objects_v2 w s3 bucket None) ;;
      let objects := default [] (Contents page) in
      files <- for_each (tqdm objects "Streaming images from S3")
                 (fun files obj =>
                    let key := Key obj in
                    if is_image_name key
                    then
                      let file_stream := BytesIO_new [] in
                      file_stream <- download_fileobj s3 bucket key file_stream ;;
                      let file_stream := BytesIO_seek file_stream 0 in
                      ret (<[key := file_stream]> files)
                    else ret files)
                 ∅ ;;
      logging INFO ("Successfully loaded " +:+ pretty (size files)
                    +:+ " images from S3 bucket.") ;;;
      ret files).

(** [client.fget_object(bucket, key, file_stream)] *)
Definition fget_object (client : MinioClient) (bucket : value) (key : string)
    (file_stream : BytesIO) : IO BytesIO :=
  ask (MinioFgetObject client bucket key)
      (fun w => minio_fget_object w client bucket key file_stream).

Definition _load_from_minio (self : DatasetLoader) : IO (gmap string BytesIO) :=
  try_log_raise "Error loading images from MinIO: " (
    if negb (truthy (minio_config self))
    then raise (ValueError "MinIO configuration is required for loading from MinIO.")
    else
      logging INFO "Initializing MinIO client..." ;;;
      ep <- getitem (minio_config self) "endpoint" ;;
      ak <- getitem (minio_config self) "access_key" ;;
      sk <- getitem (minio_config self) "secret_key" ;;
      sec <- dict_get (minio_config self) "secure" (VBool false) ;;
      let client := mkMinioClient ep ak sk sec in
      ask (MinioNew client) (fun w => Minio w client) ;;;
      bucket <- getitem (minio_config self) "bucket" ;;
      logging INFO ("Listing objects in MinIO bucket: " +:+ str bucket) ;;;
      objects <- ask (MinioListObjects client bucket true)
                     (fun w => Ok (minio_list_objects w client bucket true)) ;;
      files <- for_each (fst (tqdm objects "Streaming images from MinIO"))
                 (fun files obj =>
                    let key := object_name obj in
                    if is_image_name key
                    then
                      let file_stream := BytesIO_new [] in
                      file_stream <- fget_object client bucket key file_stream ;;
                      let file_stream := BytesIO_seek file_stream 0 in
                      ret (<[key := file_stream]> files)
                    else ret files)
                 ∅ ;;
      match snd objects with Some e => raise e | None => ret tt end ;;;
      logging INFO ("Successfully loaded " +:+ pretty (size files)
                    +:+ " images from MinIO bucket.") ;;;
      ret files).

Definition load_images (self : DatasetLoader) : IO (gmap string BytesIO) :=
  try_log_raise "Error loading images: " (
    if startswith (source self) "s3://" then _load_from_s3 self
    else if startswith (source self) "minio://" then _load_from_minio self
    else _load_from_local self).

Definition cleanup (self : DatasetLoader) : IO unit :=
  logging INFO "No cleanup actions required for the current implementation.".

(** The result of a run, and the events it adds to an empty trace. *)
Definition result_of {A} (m : IO A) (w : World) : result A := fst (m w []).
Definition events_of {A} (m : IO A) (w : World) : list event := snd (m w []).

(** A computation whose result does not depend on the trace it starts from,
    and which only appends to it. *)
Definition traced {A} (m : IO A) : Prop :=
  forall w tr, m w tr = (result_of m w, tr ++ events_of m w).

(** What the loop of a strategy computes, without the trace: every selected
    item is fetched and stored under its key, the first failure ends it. *)
Fixpoint collect {A} (keyf : A -> string) (sel : A -> bool)
    (fetched : A -> result BytesIO) (items : list A)
    (acc : gmap string BytesIO) : result (gmap string BytesIO) :=
  match items with
  | [] => Ok acc
  | x :: items' =>
      if sel x
      then match fetched x with
           | Ok s => collect keyf sel fetched items' (<[keyf x := s]> acc)
           | Err e => Err e
           end
      else collect keyf sel fetched items' acc
  end.

(** What streaming one entry leaves in the mapping, for each origin. *)
Definition local_fetched (w : World) (src file : string) : result BytesIO :=
  match open_rb_read w (os_path_join src file) with
  | Ok data => Ok (BytesIO_seek (BytesIO_new data) 0)
  | Err e => Err e
  end.

Definition s3_fetched (w : World) (s3 : S3Client) (bucket : value)
    (obj : S3Object) : result BytesIO :=
  match s3_object_body w s3 bucket (Key obj) with
  | Ok body => Ok (BytesIO_seek (BytesIO_write (BytesIO_new []) body) 0)
  | Err e => Err e
  end.

Definition minio_fetched (w : World) (client : MinioClient) (bucket : value)
    (obj : MinioObject) : result BytesIO :=
  match minio_fget_object w client bucket (object_name obj) (BytesIO_new []) with
  | Ok stream => Ok (BytesIO_seek stream 0)
  | Err e => Err e
  end.

(** The key is a name whose lowercased form ends in a supported suffix. *)
Definition has_image_suffix (key : string) : Prop :=
  exists stem ext, ext ∈ IMAGE_SUFFIXES /\ lower key = stem +:+ ext.

(** [pre] is a prefix of [s]. *)
Definition has_prefix (s pre : string) : Prop := exists rest, s = pre +:+ rest.

(** Listing the origin, or streaming one of its candidate objects, fails:
    the directory listing or the read of a selected file (Local), the first
    page or the download of a selected key (S3), the listing generator or
    the fetch of a selected object (MinIO). *)
Inductive transfer_fails (self : DatasetLoader) (w : World) : Prop :=
| local_listing_fails e :
    ~ has_prefix (source self) "s3://" -> ~ has_prefix (source self) "minio://" ->
    os_listdir w (source self) = Err e ->
    transfer_fails self w
| local_read_fails entries file e :
    ~ has_prefix (source self) "s3://" -> ~ has_prefix (source self) "minio://" ->
    os_listdir w (source self) = Ok entries ->
    file ∈ entries -> is_image_name file = true ->
    open_rb_read w (os_path_join (source self) file) = Err e ->
    transfer_fails self w
| s3_listing_fails d ak sk rg bucket e :
    has_prefix (source self) "s3://" -> s3_config self = Some d ->
    d !! "access_key" = Some ak -> d !! "secret_key" = Some sk ->
    d !! "region" = Some rg -> d !! "bucket" = Some bucket ->
    s3_list_objects_v2 w (mkS3Client ak sk rg) bucket None = Err e ->
    transfer_fails self w
| s3_download_fails d ak sk rg bucket page obj e :
    has_prefix (source self) "s3://" -> s3_config self = Some d ->
    d !! "access_key" = Some ak -> d !! "secret_key" = Some sk ->
    d !! "region" = Some rg -> d !! "bucket" = Some bucket ->
    s3_list_objects_v2 w (mkS3Client ak sk rg) bucket None = Ok page ->
    obj ∈ default [] (Contents page) -> is_image_name (Key obj) = true ->
    s3_object_body w (mkS3Client ak sk rg) bucket (Key obj) = Err e ->
    transfer_fails self w
| minio_listing_fails d ep ak sk bucket e :
    has_prefix (source self) "minio://" -> minio_config self = Some d ->
    d !! "endpoint" = Some ep -> d !! "access_key" = Some ak ->
    d !! "secret_key" = Some sk -> d !! "bucket" = Some bucket ->
    snd (minio_list_objects w
           (mkMinioClient ep ak sk (default (VBool false) (d !! "secure")))
           bucket true) = Some e ->
    transfer_fails self w
| minio_fget_fails d ep ak sk bucket obj e :
    has_prefix (source self) "minio://" -> minio_config self = Some d ->
    d !! "endpoint" = Some ep -> d !! "access_key" = Some ak ->
    d !! "secret_key" = Some sk -> d !! "bucket" = Some bucket ->
    obj ∈ fst (minio_list_objects w
                 (mkMinioClient ep ak sk (default (VBool false) (d !! "secure")))
                 bucket true) ->
    is_image_name (object_name obj) = true ->
    minio_fget_object w
      (mkMinioClient ep ak sk (default (VBool false) (d !! "secure")))
      bucket (object_name obj) (BytesIO_new []) = Err e ->
    transfer_fails self w.

(* ===================================================================== *)
(** * The loader with its objects *)
(* ===================================================================== *)

(** The same methods once more, with the objects they work on kept in a
    store: the attributes of the loader instance, which every method reads
    through [self] at each use, and the [BytesIO] objects, which are
    allocated, written and rewound in place and handed out by reference.
    A caller that holds a reference can change the object behind it. *)
Module Obj.

Record store : Type := mkStore {
  attrs : DatasetLoader;        (* self.source, self.minio_config, self.s3_config *)
  heap : gmap nat BytesIO;      (* the BytesIO objects, by identity *)
  next : nat;                   (* the identity of the next object *)
  trace : list event
}.

Definition IO (A : Type) : Type := World -> store -> result A * store.

Definition ret {A} (a : A) : IO A := fun _ st => (Ok a, st).

Definition bind {A B} (m : IO A) (k : A -> IO B) : IO B :=
  fun w st =>
    match m w st with
    | (Ok a, st') => k a w st'
    | (Err e, st') => (Err e, st')
    end.

Definition raise {A} (e : exception) : IO A := fun _ st => (Err e, st).

Declare Scope obj_scope.
Notation "x <- m ;; k" := (bind m (fun x => k))
  (at level 100, m at next level, right associativity) : obj_scope.
Notation "m ;;; k" := (bind m (fun _ => k))
  (at level 100, right associativity) : obj_scope.
Local Open Scope obj_scope.

(** A step that touches no object: it runs on the trace. *)
Definition lift {A} (m : Env.IO A) : IO A :=
  fun w st =>
    let '(r, tr) := m w (trace st) in
    (r, mkStore (attrs st) (heap st) (next st) tr).

(** [self.field] *)
Definition getattr {A} (field : DatasetLoader -> A) : IO A :=
  fun _ st => (Ok (field (attrs st)), st).

(** [BytesIO(initial)]: a new object. *)
Definition BytesIO (initial : list byte) : IO nat :=
  fun _ st =>
    (Ok (next st),
     mkStore (attrs st) (<[next st := BytesIO_new initial]> (heap st))
       (S (next st)) (trace st)).

(** The object behind a reference; a reference to none is a closed file. *)
Definition deref (stream : nat) : IO Py.BytesIO :=
  fun _ st =>
    match heap st !! stream with
    | Some s => (Ok s, st)
    | None => (Err (ValueError "I/O operation on closed file."), st)
    end.

Definition assign (stream : nat) (s : Py.BytesIO) : IO unit :=
  fun _ st =>
    (Ok tt, mkStore (attrs st) (<[stream := s]> (heap st)) (next st) (trace st)).

(** [stream.write(b)] *)
Definition write (stream : nat) (b : list byte) : IO unit :=
  s <- deref stream ;; assign stream (BytesIO_write s b).

(** [stream.seek(pos)] *)
Definition seek (stream : nat) (pos : nat) : IO unit :=
  s <- deref stream ;; assign stream (BytesIO_seek s pos).

Definition try_log_raise {A} (prefix : string) (body : IO A) : IO A :=
  fun w st =>
    match body w st with
    | (Ok a, st') => (Ok a, st')
    | (Err e, st') =>
        (Err e, mkStore (attrs st') (heap st') (next st')
                  (trace st' ++ [Log ERROR (prefix +:+ exc_str e)]))
    end.

Fixpoint for_each {A S} (items : list A) (body : S -> A -> IO S) (acc : S) : IO S :=
  match items with
  | [] => ret acc
  | x :: items' => acc' <- body acc x ;; for_each items' body acc'
  end.

Definition load_file (file : string) : IO nat :=
  data <- lift (ask (OpenRead file) (fun w => open_rb_read w file)) ;;
  file_stream <- BytesIO data ;;
  seek file_stream 0 ;;;
  ret file_stream.

Definition _load_from_local : IO (gmap string nat) :=
  try_log_raise "Error loading images from local directory: " (
    src <- getattr source ;;
    found <- lift (ask (PathExists src) (fun w => Ok (os_path_exists w src))) ;;
    if negb found
    then src <- getattr source ;;
         raise (ValueError ("Local path does not exist: " +:+ src))
    else
      src <- getattr source ;;
      lift (logging INFO ("Loading images from local directory: " +:+ src)) ;;;
      src <- getattr source ;;
      entries <- lift (ask (Listdir src) (fun w => os_listdir w src)) ;;
      let image_files := filter (fun file => is_image_name file = true) entries in
      images <- for_each image_files
                  (fun images file =>
                     key_src <- getattr source ;;
                     src <- getattr source ;;
                     stream <- load_file (os_path_join src file) ;;
                     ret (<[os_path_join key_src file := stream]> images))
                  ∅ ;;
      lift (logging INFO ("Successfully loaded " +:+ pretty (size images)
                          +:+ " images from local directory.")) ;;;
      ret images).

(** [s3.download_fileobj(bucket, key, file_stream)] *)
Definition download_fileobj (s3 : S3Client) (bucket : value) (key : string)
    (file_stream : nat) : IO unit :=
  body <- lift (ask (S3DownloadFileobj s3 bucket key)
                    (fun w => s3_object_body w s3 bucket key)) ;;
  write file_stream body.

Definition _load_from_s3 : IO (gmap string nat) :=
  try_log_raise "Error loading images from S3: " (
    cfg <- getattr s3_config ;;
    if negb (truthy cfg)
    then raise (ValueError "S3 configuration is required for loading from S3.")
    else
      lift (logging INFO "Initializing S3 client...") ;;;
      cfg <- getattr s3_config ;;
      ak <- lift (getitem cfg "access_key") ;;
      cfg <- getattr s3_config ;;
      sk <- lift (getitem cfg "secret_key") ;;
      cfg <- getattr s3_config ;;
      rg <- lift (getitem cfg "region") ;;
      let s3 := mkS3Client ak sk rg in
      lift (ask (Boto3Client s3) (fun w => boto3_client w s3)) ;;;
      cfg <- getattr s3_config ;;
      bucket <- lift (getitem cfg "bucket") ;;
      lift (logging INFO ("Listing objects in S3 bucket: " +:+ str bucket)) ;;;
      page <- lift (ask (S3ListObjectsV2 s3 bucket None)
                        (fun w => s3_list_objects_v2 w s3 bucket None)) ;;
      let objects := default [] (Contents page) in
      files <- for_each (tqdm objects "Streaming images from S3")
                 (fun files obj =>
                    let key := Key obj in
                    if is_image_name key
                    then
                      file_stream <- BytesIO [] ;;
                      download_fileobj s3 bucket key file_stream ;;;
                      seek file_stream 0 ;;;
                      ret (<[key := file_stream]> files)
                    else ret files)
                 ∅ ;;
      lift (logging INFO ("Successfully loaded " +:+ pretty (size files)
                          +:+ " images from S3 bucket.")) ;;;
      ret files).

(** [client.fget_object(bucket, key, file_stream)]: the client is handed
    the object and may change it. *)
Definition fget_object (client : MinioClient) (bucket : value) (key : string)
    (file_stream : nat) : IO unit :=
  s <- deref file_stream ;;
  s' <- lift (ask (MinioFgetObject client bucket key)
                  (fun w => minio_fget_object w client bucket key s)) ;;
  assign file_stream s'.

Definition _load_from_minio : IO (gmap string nat) :=
  try_log_raise "Error loading images from MinIO: " (
    cfg <- getattr minio_config ;;
    if negb (truthy cfg)
    then raise (ValueError "MinIO configuration is required for loading from MinIO.")
    else
      lift (logging INFO "Initializing MinIO client...") ;;;
      cfg <- getattr minio_config ;;
      ep <- lift (getitem cfg "endpoint") ;;
      cfg <- getattr minio_config ;;
      ak <- lift (getitem cfg "access_key") ;;
      cfg <- getattr minio_config ;;
      sk <- lift (getitem cfg "secret_key") ;;
      cfg <- getattr minio_config ;;
      sec <- lift (dict_get cfg "secure" (VBool false)) ;;
      let client := mkMinioClient ep ak sk sec in
      lift (ask (MinioNew client) (fun w => Minio w client)) ;;;
      cfg <- getattr minio_config ;;
      bucket <- lift (getitem cfg "bucket") ;;
      lift (logging INFO ("Listing objects in MinIO bucket: " +:+ str bucket)) ;;;
      objects <- lift (ask (MinioListObjects client bucket true)
                           (fun w => Ok (minio_list_objects w client bucket true))) ;;
      files <- for_each (fst (tqdm objects "Streaming images from MinIO"))
                 (fun files obj =>
                    let key := object_name obj in
                    if is_image_name key
                    then
                      file_stream <- BytesIO [] ;;
                      fget_object client bucket key file_stream ;;;
                      seek file_stream 0 ;;;
                      ret (<[key := file_stream]> files)
                    else ret files)
                 ∅ ;;
      lift (match snd objects with Some e => Env.raise e | None => Env.ret tt end) ;;;
      lift (logging INFO ("Successfully loaded " +:+ pretty (size files)
                          +:+ " images from MinIO bucket.")) ;;;
      ret files).

Definition load_images : IO (gmap string nat) :=
  try_log_raise "Error loading images: " (
    src <- getattr source ;;
    if startswith src "s3://" then _load_from_s3
    else
      src <- getattr source ;;
      if startswith src "minio://" then _load_from_minio
      else _load_from_local).

(** [st'] is [st] after allocations and changes to new objects only: the
    loader's attributes and every object that existed are as they were. *)
Definition extends (st st' : store) : Prop :=
  attrs st' = attrs st
  /\ next st <= next st'
  /\ forall l, l < next st -> heap st' !! l = heap st !! l.

(** The references of [refs] are objects allocated since [base], and behind
    them is what the mapping [m] of values holds. *)
Definition represents (base : nat) (st : store) (refs : gmap string nat)
    (m : gmap string Py.BytesIO) : Prop :=
  forall key,
    match refs !! key with
    | Some l => base <= l /\ l < next st
                /\ is_Some (m !! key) /\ heap st !! l = m !! key
    | None => m !! key = None
    end.

End Obj.

(** ** The two embeddings compared *)

(** A method with its objects and the same method on values go together:
    from every store that holds the loader [self], the first ends with the
    loader as it was and the objects that existed untouched, and either both
    raise the same exception, or the references returned are new objects
    behind which is the mapping of values. *)
Definition sim (self : DatasetLoader) (w : World)
    (mh : Obj.IO (gmap string nat)) (mv : IO (gmap string BytesIO)) : Prop :=
  forall st, Obj.attrs st = self ->
    exists rh st',
      mh w st = (rh, st') /\ Obj.extends st st'
      /\ match rh, result_of mv w with
         | Ok refs, Ok m => Obj.represents (Obj.next st) st' refs m
         | Err e, Err e' => e = e'
         | _, _ => False
         end.

(** One round of a loop: a selected item that is fetched adds a new object
    under its key, one whose fetch fails ends the round with the exception,
    and an item that is not selected leaves the mapping as it is. *)
Definition body_spec {A} (self : DatasetLoader) (w : World) (keyf : A -> string)
    (sel : A -> bool) (fetched : A -> result BytesIO)
    (body : gmap string nat -> A -> Obj.IO (gmap string nat)) : Prop :=
  forall acc x st, Obj.attrs st = self ->
    exists rh st',
      body acc x w st = (rh, st') /\ Obj.extends st st'
      /\ if sel x
         then match fetched x with
              | Ok v => rh = Ok (<[keyf x := Obj.next st]> acc)
                        /\ Obj.next st < Obj.next st'
                        /\ Obj.heap st' !! Obj.next st = Some v
              | Err e => rh = Err e
              end
         else rh = Ok acc.

(** What follows a loop hands the mapping on or raises, the same way in both
    embeddings, and touches nothing but the trace. *)
Definition passes_through (w : World)
    (kh : gmap string nat -> Obj.IO (gmap string nat))
    (kv : gmap string BytesIO -> IO (gmap string BytesIO)) : Prop :=
  forall refs m,
    exists r : result unit,
      result_of (kv m) w = match r with Ok _ => Ok m | Err e => Err e end
      /\ forall st, exists tr,
           kh refs w st
           = (match r with Ok _ => Ok refs | Err e => Err e end,
              Obj.mkStore (Obj.attrs st) (Obj.heap st) (Obj.next st) tr).

(** ** Notions for the statements about whole runs *)

(** The selected items a loop gets to, in order: every one up to and
    including the first whose fetch fails. *)
Fixpoint attempts {A} (sel : A -> bool) (fetched : A -> result BytesIO)
    (items : list A) : list A :=
  match items with
  | [] => []
  | x :: items' =>
      if sel x
      then x :: match fetched x with
                | Ok _ => attempts sel fetched items'
                | Err _ => []
                end
      else attempts sel fetched items'
  end.

(** The first of [keys] that the dict lacks. *)
Fixpoint first_missing (d : gmap string value) (keys : list string) : option string :=
  match keys with
  | [] => None
  | key :: keys' =>
      match d !! key with
      | None => Some key
      | Some _ => first_missing d keys'
      end
  end.

(** Where an event goes: the file system, boto3/S3, the MinIO client; a
    log record goes to none of them. *)
Inductive backend : Type := FileSystem | S3Backend | MinIOBackend.

Definition event_backend (ev : event) : option backend :=
  match ev with
  | Log _ _ => None
  | PathExists _ | Listdir _ | OpenRead _ => Some FileSystem
  | Boto3Client _ | S3ListObjectsV2 _ _ _ | S3DownloadFileobj _ _ _ => Some S3Backend
  | MinioNew _ | MinioListObjects _ _ _ | MinioFgetObject _ _ _ => Some MinIOBackend
  end.

(** The backend the tests of [load_images] select for a source. *)
Definition selected_backend (src : string) : backend :=
  if startswith src "s3://" then S3Backend
  else if startswith src "minio://" then MinIOBackend
  else FileSystem.

Definition is_error_record (ev : event) : bool :=
  match ev with
  | Log ERROR _ => true
  | _ => false
  end.

(** The event is a log record or goes to backend [b]. *)
Definition stays_with (b : backend) (ev : event) : bool :=
  match event_backend ev, b with
  | None, _ => true
  | Some FileSystem, FileSystem
  | Some S3Backend, S3Backend
  | Some MinIOBackend, MinIOBackend => true
  | Some _, _ => false
  end.

(* ===================================================================== *)
(** * Example worlds *)
(* ===================================================================== *)

Module Examples.

(** Nothing exists and every backend refuses. *)
Definition offline : World :=
  {| os_path_exists := fun _ => false;
     os_listdir := fun _ => Err (OSError "[Errno 2] No such file or directory");
     open_rb_read := fun _ => Err (OSError "[Errno 2] No such file or directory");
     boto3_client := fun _ => Ok tt;
     s3_list_objects_v2 := fun _ _ _ => Err (ClientError "EndpointConnectionError");
     s3_object_body := fun _ _ _ => Err (ClientError "EndpointConnectionError");
     Minio := fun _ => Ok tt;
     minio_list_objects := fun _ _ _ => ([], Some (ClientError "MaxRetryError"));
     minio_fget_object := fun _ _ _ _ => Err (ClientError "MaxRetryError") |}.

Fixpoint assoc {A} (tbl : list (string * A)) (k : string) : option A :=
  match tbl with
  | [] => None
  | (k', v) :: tbl' => if String.eqb k' k then Some v else assoc tbl' k
  end.

(** A directory [photos] with two images, a text file and a backup. *)
Definition photos_entries : list string :=
  ["cat.png"; "notes.txt"; "DOG.JPG"; "scan.jpeg.bak"].

Definition photos_files : list (string * list byte) :=
  [("photos/cat.png", [x89; x50; x4e; x47]);
   ("photos/notes.txt", [x68; x69]);
   ("photos/DOG.JPG", [xff; xd8; xff]);
   ("photos/scan.jpeg.bak", [])].

Definition photos_world : World :=
  {| os_path_exists := fun p =>
       String.eqb p "photos" || match assoc photos_files p with Some _ => true | None => false end;
     os_listdir := fun p =>
       if String.eqb p "photos" then Ok photos_entries
       else Err (OSError "[Errno 20] Not a directory");
     open_rb_read := fun p =>
       match assoc photos_files p with
       | Some data => Ok data
       | None => Err (OSError "[Errno 2] No such file or directory")
       end;
     boto3_client := boto3_client offline;
     s3_list_objects_v2 := s3_list_objects_v2 offline;
     s3_object_body := s3_object_body offline;
     Minio := Minio offline;
     minio_list_objects := minio_list_objects offline;
     minio_fget_object := minio_fget_object offline |}.

(** The same directory, with [DOG.JPG] unreadable. *)
Definition photos_unreadable : World :=
  {| os_path_exists := os_path_exists photos_world;
     os_listdir := os_listdir photos_world;
     open_rb_read := fun p =>
       if String.eqb p "photos/DOG.JPG" then Err (OSError "[Errno 13] Permission denied")
       else open_rb_read photos_world p;
     boto3_client := boto3_client offline;
     s3_list_objects_v2 := s3_list_objects_v2 offline;
     s3_object_body := s3_object_body offline;
     Minio := Minio offline;
     minio_list_objects := minio_list_objects offline;
     minio_fget_object := minio_fget_object offline |}.

Definition local_loader : DatasetLoader :=
  {| source := "photos"; minio_config := None; s3_config := None |}.

(** What loading [photos] gives. *)
Definition photos_loaded : gmap string BytesIO :=
  <["photos/DOG.JPG" := mkBytesIO [xff; xd8; xff] 0]>
    (<["photos/cat.png" := mkBytesIO [x89; x50; x4e; x47] 0]> ∅).

Definition photos_trace : list event :=
  [PathExists "photos";
   Log INFO "Loading images from local directory: photos";
   Listdir "photos"; OpenRead "photos/cat.png"; OpenRead "photos/DOG.JPG";
   Log INFO "Successfully loaded 2 images from local directory."].

Definition missing_loader : DatasetLoader :=
  {| source := "gcs://bucket/photos"; minio_config := None; s3_config := None |}.

(** An S3 bucket whose listing has two pages. *)
Definition s3_cfg : gmap string value :=
  list_to_map [("bucket", VStr "datasets"); ("access_key", VStr "key-id");
               ("secret_key", VStr "key-secret"); ("region", VStr "eu-west-1")].

Definition s3_loader : DatasetLoader :=
  {| source := "s3://datasets"; minio_config := None; s3_config := Some s3_cfg |}.

Definition s3_bodies : list (string * list byte) :=
  [("img/a.png", [x01; x02]); ("readme.md", [x23]);
   ("img/B.JPEG", [x03]); ("img/c.png", [x04; x05; x06])].

Definition paged_bucket : World :=
  {| os_path_exists := os_path_exists offline;
     os_listdir := os_listdir offline;
     open_rb_read := open_rb_read offline;
     boto3_client := fun _ => Ok tt;
     s3_list_objects_v2 := fun _ _ token =>
       match token with
       | None =>
           Ok {| Contents := Some [mkS3Object "img/a.png"; mkS3Object "readme.md";
                                   mkS3Object "img/B.JPEG"];
                 IsTruncated := true;
                 NextContinuationToken := Some "page-2" |}
       | Some _ =>
           Ok {| Contents := Some [mkS3Object "img/c.png"];
                 IsTruncated := false;
                 NextContinuationToken := None |}
       end;
     s3_object_body := fun _ _ key =>
       match assoc s3_bodies key with
       | Some data => Ok data
       | None => Err (ClientError "NoSuchKey")
       end;
     Minio := Minio offline;
     minio_list_objects := minio_list_objects offline;
     minio_fget_object := minio_fget_object offline |}.

(** What loading the bucket gives: the images of the first page. *)
Definition s3_loaded : gmap string BytesIO :=
  <["img/B.JPEG" := mkBytesIO [x03] 0]> (<["img/a.png" := mkBytesIO [x01; x02] 0]> ∅).

Definition s3_client : S3Client :=
  mkS3Client (VStr "key-id") (VStr "key-secret") (VStr "eu-west-1").

Definition s3_trace : list event :=
  [Log INFO "Initializing S3 client...";
   Boto3Client s3_client;
   Log INFO "Listing objects in S3 bucket: datasets";
   S3ListObjectsV2 s3_client (VStr "datasets") None;
   S3DownloadFileobj s3_client (VStr "datasets") "img/a.png";
   S3DownloadFileobj s3_client (VStr "datasets") "img/B.JPEG";
   Log INFO "Successfully loaded 2 images from S3 bucket."].

(** The store when the loader of the bucket is first called, the references
    it returns, and the store it leaves. *)
Definition s3_first_call : Obj.store := Obj.mkStore s3_loader ∅ 0 [].

Definition s3_first_refs : gmap string nat :=
  <["img/B.JPEG" := 1]> (<["img/a.png" := 0]> ∅).

Definition s3_after_first : Obj.store :=
  Obj.mkStore s3_loader
    (<[1 := mkBytesIO [x03] 0]> (<[0 := mkBytesIO [x01; x02] 0]> ∅)) 2 s3_trace.

(** Before the second call the caller has read the first stream to its end,
    written over the second and made a stream of its own. *)
Definition s3_second_call : Obj.store :=
  Obj.mkStore s3_loader
    (<[2 := mkBytesIO [x2a] 0]>
       (<[1 := mkBytesIO [xff; xfe] 2]> (<[0 := mkBytesIO [x01; x02] 2]> ∅)))
    3 (s3_trace ++ [Log INFO "first pass done"]).

Definition s3_second_refs : gmap string nat :=
  <["img/B.JPEG" := 4]> (<["img/a.png" := 3]> ∅).

Definition s3_after_second : Obj.store :=
  Obj.mkStore s3_loader
    (<[4 := mkBytesIO [x03] 0]>
       (<[3 := mkBytesIO [x01; x02] 0]> (Obj.heap s3_second_call)))
    5 (Obj.trace s3_second_call ++ s3_trace).

(** The same bucket, where the download of [img/B.JPEG] breaks. *)
Definition flaky_bucket : World :=
  {| os_path_exists := os_path_exists offline;
     os_listdir := os_listdir offline;
     open_rb_read := open_rb_read offline;
     boto3_client := boto3_client paged_bucket;
     s3_list_objects_v2 := s3_list_objects_v2 paged_bucket;
     s3_object_body := fun c b key =>
       if String.eqb key "img/B.JPEG" then Err (ClientError "ConnectionResetError")
       else s3_object_body paged_bucket c b key;
     Minio := Minio offline;
     minio_list_objects := minio_list_objects offline;
     minio_fget_object := minio_fget_object offline |}.

(** A MinIO bucket with objects under nested prefixes. *)
Definition minio_cfg : gmap string value :=
  list_to_map [("endpoint", VStr "localhost:9000"); ("access_key", VStr "key-id");
               ("secret_key", VStr "key-secret"); ("bucket", VStr "scans")].

Definition minio_loader : DatasetLoader :=
  {| source := "minio://scans"; minio_config := Some minio_cfg; s3_config := None |}.

Definition minio_bodies : list (string * list byte) :=
  [("cover.png", [x0a]); ("2024/readme.txt", [x0b]); ("2024/trip/dog.JPG", [x0c; x0d])].

(** The name has no ["/"]: the object is at the top of the bucket. *)
Fixpoint top_level (name : string) : bool :=
  match name with
  | EmptyString => true
  | String c name' => if Ascii.eqb c "/" then false else top_level name'
  end.

(** The server's listing: every object when recursive, otherwise those at
    the top (the common prefixes it would add are no images and left out). *)
Definition minio_listing (recursive : bool) : list MinioObject :=
  mkMinioObject <$>
    (if recursive then minio_bodies.*1
     else filter (fun n => top_level n = true) (minio_bodies.*1)).

(** The MinIO client as the SDK has it: [fget_object(bucket_name,
    object_name, file_path)] downloads to the file named [file_path]; it
    first tests [os.path.isdir(file_path)], which raises [TypeError] for an
    argument that is no path. *)
Definition minio_sdk : World :=
  {| os_path_exists := os_path_exists offline;
     os_listdir := os_listdir offline;
     open_rb_read := open_rb_read offline;
     boto3_client := boto3_client offline;
     s3_list_objects_v2 := s3_list_objects_v2 offline;
     s3_object_body := s3_object_body offline;
     Minio := fun _ => Ok tt;
     minio_list_objects := fun _ _ recursive => (minio_listing recursive, None);
     minio_fget_object := fun _ _ _ _ =>
       Err (TypeError "stat: path should be string, bytes, os.PathLike or integer, not BytesIO") |}.

Definition minio_client : MinioClient :=
  mkMinioClient (VStr "localhost:9000") (VStr "key-id") (VStr "key-secret") (VBool false).

(** The run of the loader against that client: the listing is recursive,
    and the first image ends the run. *)
Definition minio_sdk_trace : list event :=
  [Log INFO "Initializing MinIO client...";
   MinioNew minio_client;
   Log INFO "Listing objects in MinIO bucket: scans";
   MinioListObjects minio_client (VStr "scans") true;
   MinioFgetObject minio_client (VStr "scans") "cover.png";
   Log ERROR "Error loading images from MinIO: stat: path should be string, bytes, os.PathLike or integer, not BytesIO";
   Log ERROR "Error loading images: stat: path should be string, bytes, os.PathLike or integer, not BytesIO"].

(** A client whose [fget_object] would write the object into a stream. *)
Definition minio_streaming : World :=
  {| os_path_exists := os_path_exists offline;
     os_listdir := os_listdir offline;
     open_rb_read := open_rb_read offline;
     boto3_client := boto3_client offline;
     s3_list_objects_v2 := s3_list_objects_v2 offline;
     s3_object_body := s3_object_body offline;
     Minio := fun _ => Ok tt;
     minio_list_objects := fun _ _ recursive => (minio_listing recursive, None);
     minio_fget_object := fun _ _ key stream =>
       match assoc minio_bodies key with
       | Some data => Ok (BytesIO_write stream data)
       | None => Err (ClientError "NoSuchKey")
       end |}.

(** Configurations that lack a key. *)
Definition s3_cfg_no_region : gmap string value := delete "region" s3_cfg.
Definition s3_cfg_no_bucket : gmap string value := delete "bucket" s3_cfg.
Definition minio_cfg_no_endpoint : gmap string value := delete "endpoint" minio_cfg.
Definition minio_cfg_no_bucket : gmap string value := delete "bucket" minio_cfg.

(** boto3 and the MinIO client refuse to build a client. *)
Definition no_clients : World :=
  {| os_path_exists := os_path_exists offline;
     os_listdir := os_listdir offline;
     open_rb_read := open_rb_read offline;
     boto3_client := fun _ => Err (ClientError "InvalidRegionError");
     s3_list_objects_v2 := s3_list_objects_v2 paged_bucket;
     s3_object_body := s3_object_body paged_bucket;
     Minio := fun _ => Err (ValueError "path in endpoint is not allowed");
     minio_list_objects := minio_list_objects minio_streaming;
     minio_fget_object := minio_fget_object minio_streaming |}.

(** A bucket without objects: the page has no [Contents]. *)
Definition empty_bucket : World :=
  {| os_path_exists := os_path_exists offline;
     os_listdir := os_listdir offline;
     open_rb_read := open_rb_read offline;
     boto3_client := fun _ => Ok tt;
     s3_list_objects_v2 := fun _ _ _ =>
       Ok {| Contents := None; IsTruncated := false; NextContinuationToken := None |};
     s3_object_body := s3_object_body offline;
     Minio := Minio offline;
     minio_list_objects := minio_list_objects offline;
     minio_fget_object := minio_fget_object offline |}.

(** A MinIO listing that breaks after its first entry. *)
Definition minio_listing_breaks : World :=
  {| os_path_exists := os_path_exists offline;
     os_listdir := os_listdir offline;
     open_rb_read := open_rb_read offline;
     boto3_client := boto3_client offline;
     s3_list_objects_v2 := s3_list_objects_v2 offline;
     s3_object_body := s3_object_body offline;
     Minio := fun _ => Ok tt;
     minio_list_objects := fun _ _ _ =>
       ([mkMinioObject "cover.png"], Some (ClientError "ReadTimeoutError"));
     minio_fget_object := minio_fget_object minio_streaming |}.

End Examples.

(* ===================================================================== *)
(** * Facts about strings and paths *)
(* ===================================================================== *)

Section StringFacts.

Implicit Types s t p suf pre ext : string.

Lemma append_nil_l s : "" +:+ s = s.
Proof. reflexivity. Qed.

Lemma append_cons c s t : String c s +:+ t = String c (s +:+ t).
Proof. reflexivity. Qed.

Lemma append_nil_r s : s +:+ "" = s.
Proof. induction s as [|c s IH]; [done|]. by rewrite append_cons, IH. Qed.

Lemma append_assoc s t p : (s +:+ t) +:+ p = s +:+ (t +:+ p).
Proof. induction s as [|c s IH]; [done|]. by rewrite !append_cons, IH. Qed.

Lemma lower_append s t : lower (s +:+ t) = lower s +:+ lower t.
Proof.
  induction s as [|c s IH]; [done|].
  rewrite append_cons. simpl. by rewrite IH, append_cons.
Qed.

Lemma startswith_spec s pre : startswith s pre = true <-> has_prefix s pre.
Proof.
  unfold has_prefix. revert s. induction pre as [|a pre IH]; intros s.
  - split; [intros _; by exists s|]. by destruct s.
  - destruct s as [|b s]; simpl.
    + split; [done|]. intros [rest Hrest]. by rewrite append_cons in Hrest.
    + destruct (Ascii.eqb a b) eqn:Hab.
      * apply Ascii.eqb_eq in Hab as ->. rewrite IH. split.
        -- intros [rest ->]. by exists rest.
        -- intros [rest Hrest]. rewrite append_cons in Hrest.
           injection Hrest as ->. by exists rest.
      * apply Ascii.eqb_neq in Hab. split; [done|].
        intros [rest Hrest]. rewrite append_cons in Hrest. congruence.
Qed.

Lemma endswith_unfold s suf :
  endswith s suf =
    (String.eqb s suf || match s with "" => false | String _ s' => endswith s' suf end).
Proof. destruct s; simpl; by case_match. Qed.

Lemma endswith_spec s suf : endswith s suf = true <-> exists p, s = p +:+ suf.
Proof.
  induction s as [|c s IH]; rewrite endswith_unfold, orb_true_iff, String.eqb_eq.
  - split.
    + intros [<-|?]; [by exists ""|done].
    + intros [[|??] Hp]; [left; by rewrite append_nil_l in Hp|done].
  - rewrite IH. split.
    + intros [<-|[p ->]]; [by exists ""|by exists (String c p)].
    + intros [[|c' p] Hp].
      * left. by rewrite append_nil_l in Hp.
      * right. rewrite append_cons in Hp. injection Hp as _ ->. by exists p.
Qed.

Lemma endswith_append p s suf : endswith s suf = true -> endswith (p +:+ s) suf = true.
Proof.
  rewrite !endswith_spec. intros [q ->]. exists (p +:+ q). by rewrite append_assoc.
Qed.

Lemma has_slash_append s t : has_slash (s +:+ t) = has_slash s || has_slash t.
Proof.
  induction s as [|c s IH]; [done|].
  rewrite append_cons. simpl. by rewrite IH, orb_assoc.
Qed.

Lemma endswith_after_slash p t ext :
  has_slash ext = false -> endswith (p +:+ String "/" t) ext = endswith t ext.
Proof.
  intros Hext.
  assert (Hne : forall q, String.eqb (q +:+ String "/" t) ext = false).
  { intros q. apply String.eqb_neq. intros Heq.
    rewrite <- Heq, has_slash_append in Hext. simpl in Hext.
    by rewrite orb_true_r in Hext. }
  induction p as [|c p IH].
  - specialize (Hne ""). rewrite append_nil_l in *.
    by rewrite endswith_unfold, Hne.
  - specialize (Hne (String c p)). rewrite append_cons in *.
    by rewrite endswith_unfold, Hne.
Qed.

Lemma os_path_join_cases a b :
  os_path_join a b = b \/ exists p, os_path_join a b = p +:+ String "/" b.
Proof.
  unfold os_path_join. destruct (startswith b "/"); [by left|].
  destruct (String.eqb a "") eqn:Ha; simpl.
  { apply String.eqb_eq in Ha as ->. by left. }
  destruct (endswith a "/") eqn:Hs.
  - apply endswith_spec in Hs as [p ->]. right. exists p.
    by rewrite append_assoc.
  - right. by exists a.
Qed.

(** Joining a directory in front does not change whether a name is kept. *)
Lemma is_image_name_join a b : is_image_name (os_path_join a b) = is_image_name b.
Proof.
  unfold is_image_name, endswith_any.
  destruct (os_path_join_cases a b) as [->|[p ->]]; [done|].
  rewrite lower_append. change (lower (String "/" b)) with (String "/" (lower b)).
  unfold IMAGE_SUFFIXES. simpl. by rewrite !endswith_after_slash.
Qed.

(** With a fixed directory, the joined path determines the entry. *)
Lemma os_path_join_inj a b1 b2 :
  startswith b1 "/" = false -> startswith b2 "/" = false ->
  os_path_join a b1 = os_path_join a b2 -> b1 = b2.
Proof.
  unfold os_path_join. intros -> ->.
  destruct (String.eqb a "" || endswith a "/"); intros H.
  - by apply (inj (String.app a)) in H.
  - apply (inj (String.app a)) in H. by injection H.
Qed.

Lemma is_image_name_spec name : is_image_name name = true <-> has_image_suffix name.
Proof.
  unfold is_image_name, endswith_any, has_image_suffix.
  rewrite existsb_exists. split.
  - intros (ext & Hin & [stem Hs]%endswith_spec).
    exists stem, ext. by rewrite list_elem_of_In.
  - intros (stem & ext & Hin & Hs). exists ext. rewrite <- list_elem_of_In.
    split; [done|]. apply endswith_spec. by exists stem.
Qed.

End StringFacts.

(* ===================================================================== *)
(** * Laws of the monad *)
(* ===================================================================== *)

Section MonadLaws.

Context {A B : Type}.

Lemma traced_ret (a : A) : traced (ret a).
Proof. intros w tr. unfold result_of, events_of, ret. simpl. by rewrite app_nil_r. Qed.

Lemma traced_raise (e : exception) : traced (@raise A e).
Proof. intros w tr. unfold result_of, events_of, raise. simpl. by rewrite app_nil_r. Qed.

Lemma traced_emit (ev : event) : traced (emit ev).
Proof. by intros w tr. Qed.

Lemma traced_ask (ev : event) (oracle : World -> result A) : traced (ask ev oracle).
Proof. by intros w tr. Qed.

Lemma traced_logging lvl msg : traced (logging lvl msg).
Proof. apply traced_emit. Qed.

Lemma run_bind (m : IO A) (k : A -> IO B) w tr :
  traced m -> (forall a, traced (k a)) ->
  bind m k w tr =
    match result_of m w with
    | Ok a => (result_of (k a) w, tr ++ events_of m w ++ events_of (k a) w)
    | Err e => (Err e, tr ++ events_of m w)
    end.
Proof.
  intros Hm Hk. unfold bind. rewrite Hm.
  destruct (result_of m w) as [a|e]; [|done].
  by rewrite Hk, app_assoc.
Qed.

Lemma traced_bind (m : IO A) (k : A -> IO B) :
  traced m -> (forall a, traced (k a)) -> traced (bind m k).
Proof.
  intros Hm Hk w tr. unfold result_of, events_of.
  rewrite !run_bind by done.
  destruct (result_of m w); simpl; by rewrite ?app_nil_l.
Qed.

Lemma result_of_bind (m : IO A) (k : A -> IO B) w :
  traced m -> (forall a, traced (k a)) ->
  result_of (bind m k) w =
    match result_of m w with
    | Ok a => result_of (k a) w
    | Err e => Err e
    end.
Proof.
  intros Hm Hk. unfold result_of at 1. rewrite run_bind by done.
  by destruct (result_of m w).
Qed.

Lemma events_of_bind (m : IO A) (k : A -> IO B) w :
  traced m -> (forall a, traced (k a)) ->
  events_of (bind m k) w =
    events_of m w ++ match result_of m w with
                     | Ok a => events_of (k a) w
                     | Err e => []
                     end.
Proof.
  intros Hm Hk. unfold events_of at 1. rewrite run_bind by done.
  destruct (result_of m w); simpl; by rewrite ?app_nil_r.
Qed.

Lemma run_try_log_raise prefix (m : IO A) w tr :
  traced m ->
  try_log_raise prefix m w tr =
    (result_of m w,
     tr ++ events_of m w ++ match result_of m w with
                            | Ok _ => []
                            | Err e => [Log ERROR (prefix +:+ exc_str e)]
                            end).
Proof.
  intros Hm. unfold try_log_raise. rewrite Hm.
  destruct (result_of m w); by rewrite ?app_nil_r, ?app_assoc.
Qed.

Lemma traced_try_log_raise prefix (m : IO A) : traced m -> traced (try_log_raise prefix m).
Proof.
  intros Hm w tr. unfold result_of, events_of. by rewrite !run_try_log_raise.
Qed.

Lemma result_of_try_log_raise prefix (m : IO A) w :
  traced m -> result_of (try_log_raise prefix m) w = result_of m w.
Proof. intros Hm. unfold result_of at 1. by rewrite run_try_log_raise. Qed.

Lemma events_of_try_log_raise prefix (m : IO A) w :
  traced m ->
  events_of (try_log_raise prefix m) w =
    events_of m w ++ match result_of m w with
                     | Ok _ => []
                     | Err e => [Log ERROR (prefix +:+ exc_str e)]
                     end.
Proof. intros Hm. unfold events_of at 1. by rewrite run_try_log_raise. Qed.

End MonadLaws.

Lemma traced_for_each {A S} (items : list A) (body : S -> A -> IO S) acc :
  (forall acc x, traced (body acc x)) -> traced (for_each items body acc).
Proof.
  intros Hbody. revert acc.
  induction items as [|x items IH]; intros acc; simpl.
  - apply traced_ret.
  - apply traced_bind; [apply Hbody|done].
Qed.

Lemma traced_getitem cfg key : traced (getitem cfg key).
Proof.
  unfold getitem. destruct cfg as [d|]; [|apply traced_raise].
  destruct (d !! key); [apply traced_ret|apply traced_raise].
Qed.

Lemma traced_dict_get cfg key dflt : traced (dict_get cfg key dflt).
Proof. destruct cfg; [apply traced_ret|apply traced_raise]. Qed.

(** Decompose a goal [traced m] along the structure of [m]. *)
Ltac traced_step :=
  match goal with
  | |- traced (bind _ _) => apply traced_bind; [|intros ?]
  | |- traced (ret _) => apply traced_ret
  | |- traced (raise _) => apply traced_raise
  | |- traced (ask _ _) => apply traced_ask
  | |- traced (emit _) => apply traced_emit
  | |- traced (logging _ _) => apply traced_logging
  | |- traced (getitem _ _) => apply traced_getitem
  | |- traced (dict_get _ _ _) => apply traced_dict_get
  | |- traced (try_log_raise _ _) => apply traced_try_log_raise
  | |- traced (for_each _ _ _) => apply traced_for_each; intros ? ?
  | |- traced (if ?b then _ else _) => destruct b
  | |- traced (match ?x with _ => _ end) => destruct x
  | |- traced (let _ := _ in _) => cbv zeta
  end.

Lemma traced_load_file file : traced (load_file file).
Proof. unfold load_file. repeat traced_step. Qed.

Lemma traced_download_fileobj s3 bucket key stream :
  traced (download_fileobj s3 bucket key stream).
Proof. unfold download_fileobj. repeat traced_step. Qed.

Lemma traced_fget_object client bucket key stream :
  traced (fget_object client bucket key stream).
Proof. unfold fget_object. repeat traced_step. Qed.

Ltac solve_traced :=
  intros;
  repeat first [ traced_step
               | apply traced_load_file
               | apply traced_download_fileobj
               | apply traced_fget_object ].

Lemma traced_load_from_local self : traced (_load_from_local self).
Proof. unfold _load_from_local. solve_traced. Qed.

Lemma traced_load_from_s3 self : traced (_load_from_s3 self).
Proof. unfold _load_from_s3, tqdm. solve_traced. Qed.

Lemma traced_load_from_minio self : traced (_load_from_minio self).
Proof. unfold _load_from_minio, tqdm. solve_traced. Qed.

Lemma traced_load_images self : traced (load_images self).
Proof.
  unfold load_images. apply traced_try_log_raise.
  repeat case_match;
    [apply traced_load_from_s3|apply traced_load_from_minio|apply traced_load_from_local].
Qed.

(* ===================================================================== *)
(** * The loops *)
(* ===================================================================== *)

Section Collect.

Context {A : Type} (keyf : A -> string) (sel : A -> bool).
Context (fetched : A -> result BytesIO).

Implicit Types (items : list A) (acc m : gmap string BytesIO).

(** A run of the loop is the pure [collect]. *)
Lemma result_of_for_each_collect (fetch : A -> IO BytesIO) (post : BytesIO -> BytesIO)
    (body : gmap string BytesIO -> A -> IO (gmap string BytesIO)) w :
  (forall x, traced (fetch x)) ->
  (forall x, match result_of (fetch x) w with
             | Ok s => Ok (post s)
             | Err e => Err e
             end = fetched x) ->
  (forall acc x, body acc x =
     if sel x then (s <- fetch x ;; ret (<[keyf x := post s]> acc)) else ret acc) ->
  forall items acc,
    result_of (for_each items body acc) w = collect keyf sel fetched items acc.
Proof.
  intros Htr Hres Hbody.
  assert (Hb : forall acc x, traced (body acc x)).
  { intros acc x. rewrite Hbody. repeat traced_step. apply Htr. }
  induction items as [|x items IH]; intros acc; [done|].
  simpl. rewrite result_of_bind by (auto using traced_for_each).
  rewrite Hbody. destruct (sel x).
  - rewrite result_of_bind by (auto using traced_ret). rewrite <- Hres.
    destruct (result_of (fetch x) w); [apply IH|done].
  - apply IH.
Qed.

Lemma collect_Ok_lookup items acc m k :
  collect keyf sel fetched items acc = Ok m ->
  (exists x s, x ∈ items /\ sel x = true /\ keyf x = k
               /\ fetched x = Ok s /\ m !! k = Some s)
  \/ ((forall x, x ∈ items -> sel x = true -> keyf x <> k) /\ m !! k = acc !! k).
Proof.
  revert acc. induction items as [|x items IH]; intros acc; simpl.
  - intros [= <-]. right. split; [|done]. by intros x ?%elem_of_nil.
  - destruct (sel x) eqn:Hsel.
    + destruct (fetched x) as [s|e] eqn:Hf; [|done]. intros Hm.
      destruct (IH _ Hm) as [(y & t & Hy & ? & ? & ? & ?)|[Hnone Hk]].
      * left. exists y, t. rewrite elem_of_cons. auto.
      * destruct (decide (keyf x = k)) as [Heq|Hne].
        -- left. exists x, s. rewrite elem_of_cons. subst k.
           rewrite lookup_insert_eq in Hk. auto.
        -- right. rewrite lookup_insert_ne in Hk by done. split; [|done].
           intros y [->|?]%elem_of_cons ?; [done|by eapply Hnone].
    + intros Hm.
      destruct (IH _ Hm) as [(y & t & Hy & ? & ? & ? & ?)|[Hnone Hk]].
      * left. exists y, t. rewrite elem_of_cons. auto.
      * right. split; [|done].
        intros y [->|?]%elem_of_cons ?; [congruence|by eapply Hnone].
Qed.

(** A key of the result was there before or is the key of a selected item. *)
Lemma collect_Ok_key items acc m k :
  collect keyf sel fetched items acc = Ok m ->
  is_Some (m !! k) ->
  is_Some (acc !! k) \/ exists x, x ∈ items /\ sel x = true /\ keyf x = k.
Proof.
  intros Hm Hk.
  destruct (collect_Ok_lookup _ _ _ k Hm) as [(x & s & ? & ? & ? & _)|[_ Heq]].
  - right. by exists x.
  - left. by rewrite <- Heq.
Qed.

(** All or nothing: a result means that every selected item was fetched. *)
Lemma collect_Ok_fetched items acc m x :
  collect keyf sel fetched items acc = Ok m ->
  x ∈ items -> sel x = true -> exists s, fetched x = Ok s.
Proof.
  revert acc. induction items as [|y items IH]; intros acc; simpl.
  - by intros _ ?%elem_of_nil.
  - intros Hm [->|Hin]%elem_of_cons Hsel.
    + rewrite Hsel in Hm. destruct (fetched y) as [s|]; [by exists s|done].
    + destruct (sel y); [destruct (fetched y); [|done]|]; by eapply IH.
Qed.

Lemma collect_Err items acc x e :
  x ∈ items -> sel x = true -> fetched x = Err e ->
  exists e', collect keyf sel fetched items acc = Err e'.
Proof.
  intros Hin Hsel Hf.
  destruct (collect keyf sel fetched items acc) as [m|e'] eqn:Hc; [|by exists e'].
  destruct (collect_Ok_fetched _ _ _ _ Hc Hin Hsel) as [s Hs]. congruence.
Qed.

Lemma collect_all_fetched items acc :
  (forall x, x ∈ items -> sel x = true -> exists s, fetched x = Ok s) ->
  exists m, collect keyf sel fetched items acc = Ok m.
Proof.
  revert acc. induction items as [|y items IH]; intros acc Hall; simpl.
  - by exists acc.
  - assert (Hrest : forall x, x ∈ items -> sel x = true -> exists s, fetched x = Ok s).
    { intros x Hx. apply Hall. by right. }
    destruct (sel y) eqn:Hsel; [|by apply IH].
    destruct (Hall y) as [s ->]; [by left|done|]. by apply IH.
Qed.

(** Selected items with pairwise different keys each add one entry. *)
Lemma collect_Ok_size items acc m :
  collect keyf sel fetched items acc = Ok m ->
  NoDup (keyf <$> filter (fun x => sel x = true) items) ->
  (forall x, x ∈ items -> sel x = true -> acc !! keyf x = None) ->
  size m = size acc + length (filter (fun x => sel x = true) items).
Proof.
  revert acc. induction items as [|y items IH]; intros acc; simpl.
  - intros [= <-] _ _. lia.
  - intros Hm Hnd Hfresh. rewrite filter_cons in Hnd |- *.
    assert (Hrest : forall x, x ∈ items -> sel x = true -> acc !! keyf x = None).
    { intros x Hx. apply Hfresh. by right. }
    destruct (decide (sel y = true)) as [Hsel|Hsel].
    + rewrite Hsel in Hm. destruct (fetched y) as [s|]; [|done].
      rewrite fmap_cons in Hnd. apply NoDup_cons in Hnd as [Hy Hnd].
      rewrite (IH _ Hm Hnd).
      * rewrite map_size_insert_None by (apply Hfresh; [by left|done]).
        simpl. lia.
      * intros x Hx Hsx. rewrite lookup_insert_ne; [by apply Hrest|].
        intros Heq. apply Hy. rewrite Heq.
        apply list_elem_of_fmap_2, list_elem_of_filter. done.
    + apply not_true_is_false in Hsel. rewrite Hsel in Hm. by apply IH.
Qed.

End Collect.

(** The loops emit only what their bodies emit. *)
Lemma events_of_for_each_Forall {A S} (P : event -> Prop) (items : list A)
    (body : S -> A -> IO S) acc w :
  (forall acc x, traced (body acc x)) ->
  (forall acc x, Forall P (events_of (body acc x) w)) ->
  Forall P (events_of (for_each items body acc) w).
Proof.
  intros Htr Hev. revert acc.
  induction items as [|x items IH]; intros acc; simpl.
  - constructor.
  - rewrite events_of_bind by (auto using traced_for_each).
    apply Forall_app. split; [apply Hev|].
    destruct (result_of (body acc x) w); [apply IH|constructor].
Qed.

(* ===================================================================== *)
(** * Results of the primitive steps *)
(* ===================================================================== *)

Lemma result_of_ret {A} (a : A) w : result_of (ret a) w = Ok a.
Proof. reflexivity. Qed.

Lemma result_of_raise {A} e w : result_of (@raise A e) w = Err e.
Proof. reflexivity. Qed.

Lemma result_of_ask {A} ev (oracle : World -> result A) w :
  result_of (ask ev oracle) w = oracle w.
Proof. reflexivity. Qed.

Lemma result_of_logging lvl msg w : result_of (logging lvl msg) w = Ok tt.
Proof. reflexivity. Qed.

Lemma events_of_ret {A} (a : A) w : events_of (ret a) w = [].
Proof. reflexivity. Qed.

Lemma events_of_raise {A} e w : events_of (@raise A e) w = [].
Proof. reflexivity. Qed.

Lemma events_of_ask {A} ev (oracle : World -> result A) w :
  events_of (ask ev oracle) w = [ev].
Proof. reflexivity. Qed.

Lemma events_of_logging lvl msg w : events_of (logging lvl msg) w = [Log lvl msg].
Proof. reflexivity. Qed.

Lemma result_of_getitem_Some d key v w :
  d !! key = Some v -> result_of (getitem (Some d) key) w = Ok v.
Proof. intros Hv. unfold getitem. by rewrite Hv. Qed.

Lemma events_of_getitem cfg key w : events_of (getitem cfg key) w = [].
Proof. unfold getitem. by repeat case_match. Qed.

Lemma result_of_getitem_Ok cfg key v w :
  result_of (getitem cfg key) w = Ok v -> exists d, cfg = Some d /\ d !! key = Some v.
Proof.
  unfold getitem. destruct cfg as [d|]; [|done].
  destruct (d !! key) as [v'|] eqn:Hv; [|done].
  intros [= <-]. by exists d.
Qed.

Lemma result_of_dict_get d key dflt w :
  result_of (dict_get (Some d) key dflt) w = Ok (default dflt (d !! key)).
Proof. reflexivity. Qed.

Lemma events_of_dict_get cfg key dflt w : events_of (dict_get cfg key dflt) w = [].
Proof. by destruct cfg. Qed.

Lemma BytesIO_write_new body :
  BytesIO_write (BytesIO_new []) body = {| getvalue := body; tell := length body |}.
Proof.
  unfold BytesIO_write, BytesIO_new. simpl. by rewrite drop_nil, app_nil_r.
Qed.

Lemma truthy_Some_lookup d key v : d !! key = Some v -> truthy (Some d) = true.
Proof.
  intros Hv. simpl. destruct (size d) eqn:Hsz; [|done].
  apply map_size_empty_inv in Hsz as ->. by rewrite lookup_empty in Hv.
Qed.

Create Rewrite HintDb run.
#[local] Hint Rewrite @result_of_ret @result_of_raise @result_of_ask result_of_logging
  @events_of_ret @events_of_raise @events_of_ask events_of_logging
  events_of_getitem events_of_dict_get result_of_dict_get : run.

(** One step of a run: split the outermost [bind], evaluate its head. *)
Ltac run_step :=
  first [ rewrite result_of_bind by solve_traced
        | rewrite events_of_bind by solve_traced ];
  autorewrite with run; cbv beta iota.

(* ===================================================================== *)
(** * The three strategies, run *)
(* ===================================================================== *)

Lemma result_of_load_file w file :
  result_of (load_file file) w =
    match open_rb_read w file with
    | Ok data => Ok (BytesIO_seek (BytesIO_new data) 0)
    | Err e => Err e
    end.
Proof. unfold load_file. run_step. by destruct (open_rb_read w file). Qed.

Lemma result_of_download_fileobj w s3 bucket key stream :
  result_of (download_fileobj s3 bucket key stream) w =
    match s3_object_body w s3 bucket key with
    | Ok body => Ok (BytesIO_write stream body)
    | Err e => Err e
    end.
Proof. unfold download_fileobj. run_step. by destruct (s3_object_body w s3 bucket key). Qed.

Lemma local_loop_result w src items acc :
  result_of
    (for_each items
       (fun images file =>
          stream <- load_file (os_path_join src file) ;;
          ret (<[os_path_join src file := stream]> images))
       acc) w
  = collect (os_path_join src) (fun _ => true) (local_fetched w src) items acc.
Proof.
  apply (result_of_for_each_collect _ _ _
           (fun file => load_file (os_path_join src file)) (fun s => s)).
  - intros file. apply traced_load_file.
  - intros file. rewrite result_of_load_file. unfold local_fetched.
    by destruct (open_rb_read w _).
  - done.
Qed.

Lemma s3_loop_result w s3 bucket items acc :
  result_of
    (for_each items
       (fun files obj =>
          if is_image_name (Key obj)
          then file_stream <- download_fileobj s3 bucket (Key obj) (BytesIO_new []) ;;
               ret (<[Key obj := BytesIO_seek file_stream 0]> files)
          else ret files)
       acc) w
  = collect Key (fun obj => is_image_name (Key obj)) (s3_fetched w s3 bucket) items acc.
Proof.
  apply (result_of_for_each_collect _ _ _
           (fun obj => download_fileobj s3 bucket (Key obj) (BytesIO_new []))
           (fun s => BytesIO_seek s 0)).
  - intros obj. apply traced_download_fileobj.
  - intros obj. rewrite result_of_download_fileobj. unfold s3_fetched.
    by destruct (s3_object_body w _ _ _).
  - done.
Qed.

Lemma minio_loop_result w client bucket items acc :
  result_of
    (for_each items
       (fun files obj =>
          if is_image_name (object_name obj)
          then file_stream <- fget_object client bucket (object_name obj) (BytesIO_new []) ;;
               ret (<[object_name obj := BytesIO_seek file_stream 0]> files)
          else ret files)
       acc) w
  = collect object_name (fun obj => is_image_name (object_name obj))
      (minio_fetched w client bucket) items acc.
Proof.
  apply (result_of_for_each_collect _ _ _
           (fun obj => fget_object client bucket (object_name obj) (BytesIO_new []))
           (fun s => BytesIO_seek s 0)).
  - intros obj. apply traced_fget_object.
  - done.
  - done.
Qed.

(** ** A successful run, read backwards *)

Lemma local_Ok_inv self w m :
  result_of (_load_from_local self) w = Ok m ->
  os_path_exists w (source self) = true
  /\ exists entries,
       os_listdir w (source self) = Ok entries
       /\ collect (os_path_join (source self)) (fun _ => true)
            (local_fetched w (source self))
            (filter (fun file => is_image_name file = true) entries) ∅ = Ok m.
Proof.
  unfold _load_from_local.
  rewrite result_of_try_log_raise by solve_traced.
  run_step.
  destruct (os_path_exists w (source self)); simpl negb; cbv iota; [|done].
  run_step. run_step.
  destruct (os_listdir w (source self)) as [entries|]; [|done].
  run_step. rewrite local_loop_result.
  destruct (collect _ _ _ _ _) as [images|] eqn:Hloop; [|done].
  run_step. intros [= <-]. eauto.
Qed.

Lemma s3_Ok_inv self w m :
  result_of (_load_from_s3 self) w = Ok m ->
  exists d ak sk rg bucket page,
    s3_config self = Some d
    /\ d !! "access_key" = Some ak /\ d !! "secret_key" = Some sk
    /\ d !! "region" = Some rg /\ d !! "bucket" = Some bucket
    /\ boto3_client w (mkS3Client ak sk rg) = Ok tt
    /\ s3_list_objects_v2 w (mkS3Client ak sk rg) bucket None = Ok page
    /\ collect Key (fun obj => is_image_name (Key obj))
         (s3_fetched w (mkS3Client ak sk rg) bucket)
         (default [] (Contents page)) ∅ = Ok m.
Proof.
  unfold _load_from_s3, tqdm.
  rewrite result_of_try_log_raise by solve_traced.
  destruct (truthy (s3_config self)); simpl negb; cbv iota; [|done].
  run_step. run_step.
  destruct (result_of (getitem _ "access_key") w) as [ak|] eqn:Hak; [|done].
  run_step.
  destruct (result_of (getitem _ "secret_key") w) as [sk|] eqn:Hsk; [|done].
  run_step.
  destruct (result_of (getitem _ "region") w) as [rg|] eqn:Hrg; [|done].
  run_step.
  destruct (boto3_client w _) as [[]|] eqn:Hclient; [|done].
  run_step.
  destruct (result_of (getitem _ "bucket") w) as [bucket|] eqn:Hb; [|done].
  run_step. run_step.
  destruct (s3_list_objects_v2 w _ _ _) as [page|] eqn:Hpage; [|done].
  run_step. rewrite s3_loop_result.
  destruct (collect _ _ _ _ _) as [files|] eqn:Hloop; [|done].
  run_step. intros [= <-].
  apply result_of_getitem_Ok in Hak as (d & Hd & Hak).
  apply result_of_getitem_Ok in Hsk as (? & ? & Hsk).
  apply result_of_getitem_Ok in Hrg as (? & ? & Hrg).
  apply result_of_getitem_Ok in Hb as (? & ? & Hb).
  simplify_eq. exists d, ak, sk, rg, bucket, page. done.
Qed.

Lemma minio_Ok_inv self w m :
  result_of (_load_from_minio self) w = Ok m ->
  exists d ep ak sk bucket,
    let client := mkMinioClient ep ak sk (default (VBool false) (d !! "secure")) in
    minio_config self = Some d
    /\ d !! "endpoint" = Some ep /\ d !! "access_key" = Some ak
    /\ d !! "secret_key" = Some sk /\ d !! "bucket" = Some bucket
    /\ Minio w client = Ok tt
    /\ snd (minio_list_objects w client bucket true) = None
    /\ collect object_name (fun obj => is_image_name (object_name obj))
         (minio_fetched w client bucket)
         (fst (minio_list_objects w client bucket true)) ∅ = Ok m.
Proof.
  unfold _load_from_minio, tqdm.
  rewrite result_of_try_log_raise by solve_traced.
  destruct (minio_config self) as [d|]; [|done].
  destruct (truthy (Some d)); simpl negb; cbv iota; [|done].
  run_step. run_step.
  destruct (result_of (getitem _ "endpoint") w) as [ep|] eqn:Hep; [|done].
  run_step.
  destruct (result_of (getitem _ "access_key") w) as [ak|] eqn:Hak; [|done].
  run_step.
  destruct (result_of (getitem _ "secret_key") w) as [sk|] eqn:Hsk; [|done].
  run_step. run_step.
  destruct (Minio w _) as [[]|] eqn:Hclient; [|done].
  run_step.
  destruct (result_of (getitem _ "bucket") w) as [bucket|] eqn:Hb; [|done].
  run_step. run_step. run_step. rewrite minio_loop_result.
  destruct (collect _ _ _ _ _) as [files|] eqn:Hloop; [|done].
  run_step.
  destruct (snd (minio_list_objects w _ _ _)) eqn:Hend; autorewrite with run; [done|].
  run_step. intros [= <-].
  apply result_of_getitem_Ok in Hep as (? & ? & Hep).
  apply result_of_getitem_Ok in Hak as (? & ? & Hak).
  apply result_of_getitem_Ok in Hsk as (? & ? & Hsk).
  apply result_of_getitem_Ok in Hb as (? & ? & Hb).
  simplify_eq. eexists _, ep, ak, sk, bucket. cbv zeta. done.
Qed.

(** ** A run whose steps are known, read forwards *)

Lemma local_run self w entries :
  os_path_exists w (source self) = true ->
  os_listdir w (source self) = Ok entries ->
  result_of (_load_from_local self) w =
    collect (os_path_join (source self)) (fun _ => true)
      (local_fetched w (source self))
      (filter (fun file => is_image_name file = true) entries) ∅.
Proof.
  intros Hex Hls. unfold _load_from_local.
  rewrite result_of_try_log_raise by solve_traced.
  run_step. rewrite Hex. simpl negb. cbv iota.
  run_step. run_step. rewrite Hls.
  run_step. rewrite local_loop_result.
  destruct (collect _ _ _ _ _); [|done]. by run_step.
Qed.

(** Evaluate the steps whose outcome the hypotheses give. *)
Ltac run_known :=
  repeat (run_step; erewrite ?result_of_getitem_Some by eassumption; cbv beta iota).

Lemma filter_none {A} (P : A -> Prop) `{!forall x, Decision (P x)} (l : list A) :
  Forall (fun x => ~ P x) l -> filter P l = [].
Proof.
  induction 1 as [|x l Hx _ IH]; [done|].
  by rewrite filter_cons_False.
Qed.

Lemma s3_loop_events w s3 bucket items (acc : gmap string BytesIO) :
  Forall (fun ev => ~ is_s3_listing ev = true)
    (events_of
       (for_each items
          (fun files obj =>
             if is_image_name (Key obj)
             then file_stream <- download_fileobj s3 bucket (Key obj) (BytesIO_new []) ;;
                  ret (<[Key obj := BytesIO_seek file_stream 0]> files)
             else ret files)
          acc) w).
Proof.
  apply events_of_for_each_Forall.
  - solve_traced.
  - intros files obj. destruct (is_image_name (Key obj)); [|constructor].
    unfold download_fileobj. run_known.
    destruct (s3_object_body w _ _ _); autorewrite with run; repeat constructor; done.
Qed.

Lemma s3_run self w d ak sk rg bucket page :
  s3_config self = Some d ->
  d !! "access_key" = Some ak -> d !! "secret_key" = Some sk ->
  d !! "region" = Some rg -> d !! "bucket" = Some bucket ->
  boto3_client w (mkS3Client ak sk rg) = Ok tt ->
  s3_list_objects_v2 w (mkS3Client ak sk rg) bucket None = Ok page ->
  result_of (_load_from_s3 self) w =
    collect Key (fun obj => is_image_name (Key obj))
      (s3_fetched w (mkS3Client ak sk rg) bucket) (default [] (Contents page)) ∅
  /\ filter (fun ev => is_s3_listing ev = true) (events_of (_load_from_s3 self) w)
     = [S3ListObjectsV2 (mkS3Client ak sk rg) bucket None].
Proof.
  intros Hd Hak Hsk Hrg Hb Hclient Hpage.
  pose proof (truthy_Some_lookup _ _ _ Hak) as Htruthy.
  unfold _load_from_s3, tqdm.
  rewrite result_of_try_log_raise, events_of_try_log_raise by solve_traced.
  rewrite Hd, Htruthy. simpl negb. cbv iota.
  split.
  - run_known. rewrite Hclient. run_known. rewrite Hpage. run_known.
    rewrite s3_loop_result. destruct (collect _ _ _ _ _); [|done]. by run_known.
  - run_known. rewrite Hclient. run_known. rewrite Hpage. run_known.
    rewrite s3_loop_result.
    destruct (collect _ _ _ _ _); run_known;
      rewrite !filter_app, (filter_none _ _ (s3_loop_events _ _ _ _ _)); reflexivity.
Qed.

(* ===================================================================== *)
(** * [load_images]: dispatch and early failures *)
(* ===================================================================== *)

Lemma startswith_false s pre : ~ has_prefix s pre -> startswith s pre = false.
Proof.
  intros Hno. destruct (startswith s pre) eqn:Hs; [|done].
  by apply startswith_spec in Hs.
Qed.

(** A [minio://] source does not start with [s3://]. *)
Lemma minio_prefix_not_s3 s : has_prefix s "minio://" -> startswith s "s3://" = false.
Proof. by intros [rest ->]. Qed.

Lemma load_images_s3 self :
  has_prefix (source self) "s3://" ->
  load_images self = try_log_raise "Error loading images: " (_load_from_s3 self).
Proof. intros Hs%startswith_spec. unfold load_images. by rewrite Hs. Qed.

Lemma load_images_minio self :
  has_prefix (source self) "minio://" ->
  load_images self = try_log_raise "Error loading images: " (_load_from_minio self).
Proof.
  intros Hm. unfold load_images.
  rewrite (minio_prefix_not_s3 _ Hm). apply startswith_spec in Hm. by rewrite Hm.
Qed.

Lemma load_images_local self :
  ~ has_prefix (source self) "s3://" -> ~ has_prefix (source self) "minio://" ->
  load_images self = try_log_raise "Error loading images: " (_load_from_local self).
Proof.
  intros Hs%startswith_false Hm%startswith_false. unfold load_images.
  by rewrite Hs, Hm.
Qed.

(** The result of [load_images] is the result of the strategy it selects. *)
Lemma result_of_load_images self w :
  result_of (load_images self) w =
    if startswith (source self) "s3://" then result_of (_load_from_s3 self) w
    else if startswith (source self) "minio://" then result_of (_load_from_minio self) w
    else result_of (_load_from_local self) w.
Proof.
  unfold load_images.
  repeat case_match; apply result_of_try_log_raise;
    auto using traced_load_from_s3, traced_load_from_minio, traced_load_from_local.
Qed.

Lemma load_images_result self w tr r tr' :
  load_images self w tr = (r, tr') ->
  result_of (load_images self) w = r /\ tr' = tr ++ events_of (load_images self) w.
Proof. rewrite traced_load_images. by intros [= <- <-]. Qed.

(** A falsy configuration ends an S3 run before anything else happens. *)
Lemma s3_falsy_config self w tr :
  has_prefix (source self) "s3://" -> truthy (s3_config self) = false ->
  load_images self w tr =
    (Err (ValueError "S3 configuration is required for loading from S3."),
     tr ++ [Log ERROR "Error loading images from S3: S3 configuration is required for loading from S3.";
            Log ERROR "Error loading images: S3 configuration is required for loading from S3."]).
Proof.
  intros Hs Hcfg. rewrite (load_images_s3 _ Hs).
  unfold _load_from_s3, try_log_raise, raise. rewrite Hcfg. simpl.
  by rewrite <- app_assoc.
Qed.

Lemma minio_falsy_config self w tr :
  has_prefix (source self) "minio://" -> truthy (minio_config self) = false ->
  load_images self w tr =
    (Err (ValueError "MinIO configuration is required for loading from MinIO."),
     tr ++ [Log ERROR "Error loading images from MinIO: MinIO configuration is required for loading from MinIO.";
            Log ERROR "Error loading images: MinIO configuration is required for loading from MinIO."]).
Proof.
  intros Hm Hcfg. rewrite (load_images_minio _ Hm).
  unfold _load_from_minio, try_log_raise, raise. rewrite Hcfg. simpl.
  by rewrite <- app_assoc.
Qed.

(** C2: [load_images] dispatches on the prefix of the source, in three
    cases that cover every source: a source that starts with [s3://] runs
    the S3 strategy, one that starts with [minio://] the MinIO strategy, and
    every other source, whatever its scheme, the Local strategy; each run is
    the strategy's own, wrapped in the error log of [load_images]. *)
Theorem load_images_dispatch self :
  (has_prefix (source self) "s3://" ->
     load_images self = try_log_raise "Error loading images: " (_load_from_s3 self))
  /\ (has_prefix (source self) "minio://" ->
        load_images self = try_log_raise "Error loading images: " (_load_from_minio self))
  /\ (~ has_prefix (source self) "s3://" -> ~ has_prefix (source self) "minio://" ->
        load_images self = try_log_raise "Error loading images: " (_load_from_local self))
  /\ (has_prefix (source self) "s3://" \/ has_prefix (source self) "minio://"
      \/ (~ has_prefix (source self) "s3://" /\ ~ has_prefix (source self) "minio://")).
Proof.
  split; [apply load_images_s3|].
  split; [apply load_images_minio|].
  split; [apply load_images_local|].
  destruct (startswith (source self) "s3://") eqn:Hs.
  { left. by apply startswith_spec. }
  destruct (startswith (source self) "minio://") eqn:Hm.
  { right. left. by apply startswith_spec. }
  right. right. split; intros H%startswith_spec; congruence.
Qed.

Lemma load_images_dispatch_witness :
  load_images Examples.s3_loader
    = try_log_raise "Error loading images: " (_load_from_s3 Examples.s3_loader)
  /\ load_images Examples.minio_loader
     = try_log_raise "Error loading images: " (_load_from_minio Examples.minio_loader)
  /\ load_images Examples.missing_loader
     = try_log_raise "Error loading images: " (_load_from_local Examples.missing_loader).
Proof.
  split; [|split].
  - apply (load_images_dispatch Examples.s3_loader). by exists "datasets".
  - apply (load_images_dispatch Examples.minio_loader). by exists "scans".
  - apply (load_images_dispatch Examples.missing_loader); by intros [rest [=]].
Defined.

(** C4: when the source selects a remote origin and the configuration of
    that backend is absent, [load_images] raises a [ValueError] (the
    configuration error of the loader) and returns no mapping; all the run
    adds to the trace is two error records, so no client was constructed
    and no request was sent. *)
Theorem missing_remote_config_fails self w tr :
  (has_prefix (source self) "s3://" /\ s3_config self = None)
  \/ (has_prefix (source self) "minio://" /\ minio_config self = None) ->
  exists msg evs,
    load_images self w tr = (Err (ValueError msg), tr ++ evs)
    /\ Forall (fun ev => is_client_construction ev = false
                         /\ is_network_call ev = false) evs
    /\ exists origin, evs = [Log ERROR ("Error loading images from " +:+ origin +:+ ": " +:+ msg);
                             Log ERROR ("Error loading images: " +:+ msg)].
Proof.
  intros [[Hsrc Hcfg]|[Hsrc Hcfg]]; eexists _, _; (split; [|split]).
  - apply s3_falsy_config; [done|]. by rewrite Hcfg.
  - by repeat constructor.
  - by exists "S3".
  - apply minio_falsy_config; [done|]. by rewrite Hcfg.
  - by repeat constructor.
  - by exists "MinIO".
Qed.

Lemma missing_remote_config_fails_witness :
  exists msg evs,
    load_images (mkDatasetLoader "minio://scans" None (Some Examples.s3_cfg))
      Examples.minio_streaming [] = (Err (ValueError msg), [] ++ evs)
    /\ Forall (fun ev => is_client_construction ev = false
                         /\ is_network_call ev = false) evs
    /\ exists origin, evs = [Log ERROR ("Error loading images from " +:+ origin +:+ ": " +:+ msg);
                             Log ERROR ("Error loading images: " +:+ msg)].
Proof.
  apply (missing_remote_config_fails
           (mkDatasetLoader "minio://scans" None (Some Examples.s3_cfg))).
  right. split; [by exists "scans"|reflexivity].
Defined.

(** C10: a remote backend configuration that is supplied but empty is
    treated like an absent one: the run is the same, event for event, and
    ends in the same [ValueError]. *)
Theorem empty_config_like_absent src cfg w tr :
  (has_prefix src "s3://" ->
     load_images (mkDatasetLoader src cfg (Some ∅)) w tr
     = load_images (mkDatasetLoader src cfg None) w tr
     /\ fst (load_images (mkDatasetLoader src cfg (Some ∅)) w tr)
        = Err (ValueError "S3 configuration is required for loading from S3."))
  /\ (has_prefix src "minio://" ->
        load_images (mkDatasetLoader src (Some ∅) cfg) w tr
        = load_images (mkDatasetLoader src None cfg) w tr
        /\ fst (load_images (mkDatasetLoader src (Some ∅) cfg) w tr)
           = Err (ValueError "MinIO configuration is required for loading from MinIO.")).
Proof.
  split; intros Hsrc.
  - rewrite !s3_falsy_config; done.
  - rewrite !minio_falsy_config; done.
Qed.

Lemma empty_config_like_absent_witness :
  load_images (mkDatasetLoader "s3://datasets" None (Some ∅)) Examples.paged_bucket []
  = load_images (mkDatasetLoader "s3://datasets" None None) Examples.paged_bucket []
  /\ fst (load_images (mkDatasetLoader "s3://datasets" None (Some ∅))
            Examples.paged_bucket [])
     = Err (ValueError "S3 configuration is required for loading from S3.").
Proof.
  apply (empty_config_like_absent "s3://datasets" None Examples.paged_bucket []).
  by exists "datasets".
Defined.

(** C5: when the source selects the Local strategy and the path does not
    exist, [load_images] raises a [ValueError] that names the path and
    returns no mapping; it has looked at nothing but the path. *)
Theorem missing_local_path_fails self w tr :
  ~ has_prefix (source self) "s3://" -> ~ has_prefix (source self) "minio://" ->
  os_path_exists w (source self) = false ->
  load_images self w tr =
    (Err (ValueError ("Local path does not exist: " +:+ source self)),
     tr ++ [PathExists (source self);
            Log ERROR ("Error loading images from local directory: "
                       +:+ "Local path does not exist: " +:+ source self);
            Log ERROR ("Error loading images: "
                       +:+ "Local path does not exist: " +:+ source self)]).
Proof.
  intros Hs Hm Hex. rewrite (load_images_local _ Hs Hm).
  unfold _load_from_local, try_log_raise, bind, ask, raise. rewrite Hex. simpl.
  by rewrite <- !app_assoc.
Qed.

Lemma missing_local_path_fails_witness :
  load_images Examples.missing_loader Examples.photos_world [] =
    (Err (ValueError "Local path does not exist: gcs://bucket/photos"),
     [PathExists "gcs://bucket/photos";
      Log ERROR "Error loading images from local directory: Local path does not exist: gcs://bucket/photos";
      Log ERROR "Error loading images: Local path does not exist: gcs://bucket/photos"]).
Proof.
  apply (missing_local_path_fails Examples.missing_loader Examples.photos_world []).
  - by intros [rest [=]].
  - by intros [rest [=]].
  - reflexivity.
Defined.

(* ===================================================================== *)
(** * What a run touches *)
(* ===================================================================== *)

Lemma events_of_for_each_Forall_in {A S} (P : event -> Prop) (items : list A)
    (body : S -> A -> IO S) acc w :
  (forall acc x, traced (body acc x)) ->
  (forall acc x, x ∈ items -> Forall P (events_of (body acc x) w)) ->
  Forall P (events_of (for_each items body acc) w).
Proof.
  intros Htr. revert acc.
  induction items as [|x items IH]; intros acc Hev; simpl.
  - constructor.
  - rewrite events_of_bind by (auto using traced_for_each).
    apply Forall_app. split; [apply Hev; by left|].
    destruct (result_of (body acc x) w); [|constructor].
    apply IH. intros acc' y Hy. apply Hev. by right.
Qed.

(** Walk through the events of a run, branch by branch. *)
Ltac events_step :=
  match goal with
  | |- Forall _ [] => constructor
  | |- Forall _ (_ :: _) => constructor; [try done|]
  | |- Forall _ (_ ++ _) => apply Forall_app; split
  | |- Forall _ (events_of (for_each _ _ _) _) =>
      apply events_of_for_each_Forall_in; [solve_traced|intros ? ? ?]
  | |- Forall _ (match ?r with _ => _ end) => destruct r eqn:?
  | |- Forall _ (events_of (if ?b then _ else _) _) => destruct b eqn:?
  | |- Forall _ (events_of (match ?x with _ => _ end) _) => destruct x eqn:?
  | |- Forall _ (events_of (bind _ _) _) => rewrite events_of_bind by solve_traced
  | |- Forall _ (events_of (try_log_raise _ _) _) =>
      rewrite events_of_try_log_raise by solve_traced
  | |- Forall _ (events_of _ _) => progress autorewrite with run
  end.

(** The loader opens, downloads or fetches nothing but image names. *)
Lemma load_images_fetches_images_only self w :
  Forall (fun ev => fetches_image ev = true) (events_of (load_images self) w).
Proof.
  unfold load_images, _load_from_s3, _load_from_minio, _load_from_local, tqdm,
    load_file, download_fileobj, fget_object.
  repeat events_step.
  match goal with
  | H : _ ∈ filter _ _ |- _ =>
      apply (list_elem_of_filter (fun f => is_image_name f = true)) in H as [H _]
  end.
  simpl. by rewrite is_image_name_join.
Qed.

(* ===================================================================== *)
(** * What a successful call returns *)
(* ===================================================================== *)

(** Every key of a returned mapping passed the filter of its strategy. *)
Lemma loaded_key_is_image self w m key :
  result_of (load_images self) w = Ok m -> is_Some (m !! key) ->
  is_image_name key = true.
Proof.
  rewrite result_of_load_images. intros Hrun Hkey.
  assert (Hempty : ~ is_Some ((∅ : gmap string BytesIO) !! key)).
  { rewrite lookup_empty. by intros [? ?]. }
  destruct (startswith (source self) "s3://");
    [|destruct (startswith (source self) "minio://")].
  - apply s3_Ok_inv in Hrun as (d & ak & sk & rg & bucket & page & Hrun).
    destruct Hrun as (_ & _ & _ & _ & _ & _ & _ & Hloop).
    destruct (collect_Ok_key _ _ _ _ _ _ key Hloop Hkey)
      as [?|(obj & _ & Hsel & <-)]; done.
  - apply minio_Ok_inv in Hrun as (d & ep & ak & sk & bucket & Hrun).
    cbv zeta in Hrun. destruct Hrun as (_ & _ & _ & _ & _ & _ & _ & Hloop).
    destruct (collect_Ok_key _ _ _ _ _ _ key Hloop Hkey)
      as [?|(obj & _ & Hsel & <-)]; done.
  - apply local_Ok_inv in Hrun as (_ & entries & _ & Hloop).
    destruct (collect_Ok_key _ _ _ _ _ _ key Hloop Hkey)
      as [?|(file & Hfile & _ & <-)]; [done|].
    apply list_elem_of_filter in Hfile as [Himg _].
    by rewrite is_image_name_join.
Qed.

(** C1: after a successful call, every key of the returned mapping has a
    lowercased suffix among [.png], [.jpg], [.jpeg], [.bmp]; a name with
    any other suffix is no key of it, neither as it is (a remote object
    name) nor joined to the source (a local file).  Such an object is
    skipped without a trace: the call has opened, downloaded or fetched
    nothing but names that pass the filter. *)
Theorem keys_have_image_suffix self w tr m tr' :
  load_images self w tr = (Ok m, tr') ->
  (forall key, is_Some (m !! key) -> has_image_suffix key)
  /\ (forall name, ~ has_image_suffix name ->
        m !! name = None /\ m !! os_path_join (source self) name = None)
  /\ exists evs, tr' = tr ++ evs /\ Forall (fun ev => fetches_image ev = true) evs.
Proof.
  intros [Hrun ->]%load_images_result. split; [|split].
  - intros key Hkey. apply is_image_name_spec. by eapply loaded_key_is_image.
  - intros name Hname.
    assert (Hno : is_image_name name = false).
    { destruct (is_image_name name) eqn:Himg; [|done].
      by apply is_image_name_spec in Himg. }
    split; apply eq_None_not_Some; intros Hkey;
      apply (loaded_key_is_image _ _ _ _ Hrun) in Hkey.
    + congruence.
    + rewrite is_image_name_join in Hkey. congruence.
  - eexists. split; [done|]. apply load_images_fetches_images_only.
Qed.

Lemma keys_have_image_suffix_witness :
  (forall key, is_Some (Examples.photos_loaded !! key) -> has_image_suffix key)
  /\ (forall name, ~ has_image_suffix name ->
        Examples.photos_loaded !! name = None
        /\ Examples.photos_loaded !! os_path_join "photos" name = None)
  /\ exists evs, Examples.photos_trace = [] ++ evs
                 /\ Forall (fun ev => fetches_image ev = true) evs.
Proof.
  apply (keys_have_image_suffix Examples.local_loader Examples.photos_world []
           Examples.photos_loaded Examples.photos_trace).
  vm_compute. reflexivity.
Defined.

Lemma filter_all {A} (l : list A) : filter (fun _ : A => true = true) l = l.
Proof.
  induction l as [|x l IH]; [done|].
  by rewrite filter_cons_True, IH.
Qed.

(** C3: for an existing local directory whose entries are [entries] (file
    names, each listed once), let [images] be the files among them whose
    name ends, in any letter case, in [.png], [.jpg], [.jpeg] or [.bmp].
    When these are readable, [load_images] returns a mapping with exactly
    as many entries as [images] has files; each is keyed by the joined path
    of the source and the name, and its stream holds the bytes of that file
    with the read position at 0.  The other entries leave no key. *)
Theorem local_directory_loaded self w tr entries images :
  ~ has_prefix (source self) "s3://" -> ~ has_prefix (source self) "minio://" ->
  os_path_exists w (source self) = true ->
  os_listdir w (source self) = Ok entries ->
  NoDup entries ->
  (forall file, file ∈ entries -> startswith file "/" = false) ->
  NoDup images ->
  (forall file, file ∈ images <-> file ∈ entries /\ has_image_suffix file) ->
  (forall file, file ∈ images ->
     exists data, open_rb_read w (os_path_join (source self) file) = Ok data) ->
  exists m tr',
    load_images self w tr = (Ok m, tr')
    /\ size m = length images
    /\ (forall file data,
          file ∈ images ->
          open_rb_read w (os_path_join (source self) file) = Ok data ->
          m !! os_path_join (source self) file
          = Some {| getvalue := data; tell := 0 |})
    /\ (forall key, is_Some (m !! key) ->
          exists file, file ∈ images /\ key = os_path_join (source self) file)
    /\ (forall file, file ∈ entries -> ~ has_image_suffix file ->
          m !! os_path_join (source self) file = None).
Proof.
  intros Hs Hm Hex Hls Hnd Hnames Hndi Himages Hread.
  set (kept := filter (fun file => is_image_name file = true) entries).
  assert (Hkept : forall file, file ∈ kept <-> file ∈ images).
  { intros file. unfold kept.
    rewrite (list_elem_of_filter (fun f => is_image_name f = true)).
    rewrite Himages, is_image_name_spec. tauto. }
  assert (Hlen : length kept = length images).
  { apply Permutation_length, NoDup_Permutation; [by apply NoDup_filter|done..]. }
  pose proof (local_run self w entries Hex Hls) as Hrun. fold kept in Hrun.
  destruct (collect_all_fetched (os_path_join (source self)) (fun _ => true)
              (local_fetched w (source self)) kept ∅) as [m Hloop].
  { intros file Hin%Hkept _. unfold local_fetched.
    destruct (Hread file Hin) as [data ->]. eauto. }
  rewrite Hloop in Hrun.
  assert (Hres : result_of (load_images self) w = Ok m).
  { rewrite result_of_load_images.
    by rewrite (startswith_false _ _ Hs), (startswith_false _ _ Hm). }
  exists m, (tr ++ events_of (load_images self) w).
  split; [|split; [|split; [|split]]].
  - rewrite traced_load_images. by f_equal.
  - rewrite (collect_Ok_size _ _ _ _ _ _ Hloop).
    + by rewrite map_size_empty, filter_all.
    + rewrite filter_all. apply NoDup_fmap_2_strong; [|by apply NoDup_filter].
      intros f1 f2 H1%Hkept%Himages H2%Hkept%Himages.
      apply os_path_join_inj; apply Hnames; tauto.
    + intros. apply lookup_empty.
  - intros file data Hin Hdata.
    destruct (collect_Ok_lookup _ _ _ _ _ _ (os_path_join (source self) file) Hloop)
      as [(f' & s & _ & _ & Hkey & Hf & ->)|[Hnone _]].
    + unfold local_fetched in Hf. rewrite Hkey, Hdata in Hf. by injection Hf as <-.
    + exfalso. apply (Hnone file); [by apply Hkept|done..].
  - intros key Hkey.
    destruct (collect_Ok_key _ _ _ _ _ _ key Hloop Hkey) as [Hin|(file & Hf & _ & <-)].
    + rewrite lookup_empty in Hin. by destruct Hin.
    + apply Hkept in Hf. by exists file.
  - intros file Hin Hno. apply eq_None_not_Some. intros Hkey.
    apply (loaded_key_is_image _ _ _ _ Hres) in Hkey.
    rewrite is_image_name_join in Hkey. by apply is_image_name_spec in Hkey.
Qed.

Lemma local_directory_loaded_witness :
  load_images Examples.local_loader Examples.photos_world []
  = (Ok Examples.photos_loaded, Examples.photos_trace)
  /\ size Examples.photos_loaded = length ["cat.png"; "DOG.JPG"]
  /\ (forall file data,
        file ∈ ["cat.png"; "DOG.JPG"] ->
        open_rb_read Examples.photos_world (os_path_join "photos" file) = Ok data ->
        Examples.photos_loaded !! os_path_join "photos" file
        = Some {| getvalue := data; tell := 0 |})
  /\ (forall key, is_Some (Examples.photos_loaded !! key) ->
        exists file, file ∈ ["cat.png"; "DOG.JPG"] /\ key = os_path_join "photos" file)
  /\ (forall file, file ∈ Examples.photos_entries -> ~ has_image_suffix file ->
        Examples.photos_loaded !! os_path_join "photos" file = None).
Proof.
  destruct (local_directory_loaded Examples.local_loader Examples.photos_world []
              Examples.photos_entries ["cat.png"; "DOG.JPG"])
    as (m & tr' & Hrun & Hrest).
  - by intros [rest [=]].
  - by intros [rest [=]].
  - reflexivity.
  - reflexivity.
  - apply (bool_decide_unpack _). vm_compute. reflexivity.
  - apply (proj1 (Forall_forall (fun file => startswith file "/" = false) _)).
    repeat constructor.
  - apply (bool_decide_unpack _). vm_compute. reflexivity.
  - intros file. split.
    + intros [->|[->|Hin%elem_of_nil]%elem_of_cons]%elem_of_cons; [| |done].
      * split; [set_solver|]. exists "cat", ".png". split; [set_solver|reflexivity].
      * split; [set_solver|]. exists "dog", ".jpg". split; [set_solver|reflexivity].
    + intros [Hin Himg%is_image_name_spec]. revert file Hin Himg.
      apply (proj1 (Forall_forall
                      (fun file => is_image_name file = true ->
                         file ∈ ["cat.png"; "DOG.JPG"]) _)).
      unfold Examples.photos_entries.
      repeat (apply Forall_cons_2;
              [intros Himg; first [ discriminate Himg | by left | by right; left ]|]).
      apply Forall_nil_2.
  - apply (proj1 (Forall_forall
                    (fun file => exists data,
                       open_rb_read Examples.photos_world
                         (os_path_join "photos" file) = Ok data) _)).
    repeat constructor; eexists; reflexivity.
  - assert (Hfix : load_images Examples.local_loader Examples.photos_world []
                   = (Ok Examples.photos_loaded, Examples.photos_trace)).
    { vm_compute. reflexivity. }
    rewrite Hfix in Hrun. injection Hrun as <- <-. by split.
Defined.

(* ===================================================================== *)
(** * Failures while listing or streaming *)
(* ===================================================================== *)

(** C6: when listing the origin or streaming one of its candidate objects
    fails, [load_images] raises: the call returns no mapping, so what the
    loop had streamed before the failure is lost with it. *)
Theorem transfer_failure_is_total self w tr :
  transfer_fails self w ->
  exists e tr', load_images self w tr = (Err e, tr').
Proof.
  intros Hfail.
  destruct (load_images self w tr) as [[m|e] tr'] eqn:Hrun; [exfalso|by eauto].
  apply load_images_result in Hrun as [Hrun _].
  rewrite result_of_load_images in Hrun.
  destruct Hfail as
    [e Hs Hm Hls | entries file e Hs Hm Hls Hin Himg Hread
    |d ak sk rg bucket e Hs Hd Hak Hsk Hrg Hb Hls
    |d ak sk rg bucket page obj e Hs Hd Hak Hsk Hrg Hb Hls Hin Himg Hget
    |d ep ak sk bucket e Hm Hd Hep Hak Hsk Hb Hls
    |d ep ak sk bucket obj e Hm Hd Hep Hak Hsk Hb Hin Himg Hget].
  - rewrite (startswith_false _ _ Hs), (startswith_false _ _ Hm) in Hrun.
    apply local_Ok_inv in Hrun as (_ & entries & Hls' & _). congruence.
  - rewrite (startswith_false _ _ Hs), (startswith_false _ _ Hm) in Hrun.
    apply local_Ok_inv in Hrun as (_ & entries' & Hls' & Hloop).
    assert (entries' = entries) as -> by congruence.
    destruct (collect_Ok_fetched _ _ _ _ _ _ file Hloop) as [s Hs']; [|done|].
    + by apply list_elem_of_filter.
    + unfold local_fetched in Hs'. by rewrite Hread in Hs'.
  - apply startswith_spec in Hs. rewrite Hs in Hrun.
    apply s3_Ok_inv in Hrun as (d' & ak' & sk' & rg' & bucket' & page & Hrun).
    destruct Hrun as (Hd' & ? & ? & ? & ? & _ & Hls' & _). simplify_eq. congruence.
  - apply startswith_spec in Hs. rewrite Hs in Hrun.
    apply s3_Ok_inv in Hrun as (d' & ak' & sk' & rg' & bucket' & page' & Hrun).
    destruct Hrun as (Hd' & ? & ? & ? & ? & _ & Hls' & Hloop). simplify_eq.
    assert (page' = page) as -> by congruence.
    destruct (collect_Ok_fetched _ _ _ _ _ _ obj Hloop Hin Himg) as [s Hs'].
    unfold s3_fetched in Hs'. by rewrite Hget in Hs'.
  - rewrite (minio_prefix_not_s3 _ Hm) in Hrun.
    apply startswith_spec in Hm. rewrite Hm in Hrun.
    apply minio_Ok_inv in Hrun as (d' & ep' & ak' & sk' & bucket' & Hrun).
    cbv zeta in Hrun. destruct Hrun as (Hd' & ? & ? & ? & ? & _ & Hls' & _).
    simplify_eq.
  - rewrite (minio_prefix_not_s3 _ Hm) in Hrun.
    apply startswith_spec in Hm. rewrite Hm in Hrun.
    apply minio_Ok_inv in Hrun as (d' & ep' & ak' & sk' & bucket' & Hrun).
    cbv zeta in Hrun. destruct Hrun as (Hd' & ? & ? & ? & ? & _ & _ & Hloop).
    simplify_eq.
    destruct (collect_Ok_fetched _ _ _ _ _ _ obj Hloop Hin Himg) as [s Hs'].
    unfold minio_fetched in Hs'. by rewrite Hget in Hs'.
Qed.

Lemma transfer_failure_is_total_witness :
  exists e tr', load_images Examples.s3_loader Examples.flaky_bucket [] = (Err e, tr').
Proof.
  apply (transfer_failure_is_total Examples.s3_loader Examples.flaky_bucket []).
  apply (s3_download_fails _ _ Examples.s3_cfg (VStr "key-id") (VStr "key-secret")
           (VStr "eu-west-1") (VStr "datasets")
           {| Contents := Some [mkS3Object "img/a.png"; mkS3Object "readme.md";
                                mkS3Object "img/B.JPEG"];
              IsTruncated := true;
              NextContinuationToken := Some "page-2" |}
           (mkS3Object "img/B.JPEG") (ClientError "ConnectionResetError")).
  - by exists "datasets".
  - reflexivity.
  - reflexivity.
  - reflexivity.
  - reflexivity.
  - reflexivity.
  - reflexivity.
  - simpl. set_solver.
  - reflexivity.
  - reflexivity.
Defined.

(* ===================================================================== *)
(** * The S3 listing *)
(* ===================================================================== *)

Lemma no_listing_in_error_log {A} (r : result A) prefix :
  filter (fun ev => is_s3_listing ev = true)
    match r with
    | Ok _ => []
    | Err e => [Log ERROR (prefix +:+ exc_str e)]
    end = [].
Proof. by destruct r. Qed.

(** Whatever happens, an S3 run asks for at most one page, the first. *)
Lemma s3_listing_calls self w :
  filter (fun ev => is_s3_listing ev = true) (events_of (_load_from_s3 self) w) = []
  \/ exists s3 bucket,
       filter (fun ev => is_s3_listing ev = true) (events_of (_load_from_s3 self) w)
       = [S3ListObjectsV2 s3 bucket None].
Proof.
  unfold _load_from_s3, tqdm.
  rewrite events_of_try_log_raise by solve_traced.
  rewrite filter_app, no_listing_in_error_log, app_nil_r.
  destruct (truthy (s3_config self)); simpl negb; cbv iota; [|by left].
  run_step. run_step.
  destruct (result_of (getitem _ "access_key") w) as [ak|]; [|by left].
  run_step.
  destruct (result_of (getitem _ "secret_key") w) as [sk|]; [|by left].
  run_step.
  destruct (result_of (getitem _ "region") w) as [rg|]; [|by left].
  run_step.
  destruct (boto3_client w _) as [[]|]; [|by left].
  run_step.
  destruct (result_of (getitem _ "bucket") w) as [bucket|]; [|by left].
  run_step. run_step. right. exists (mkS3Client ak sk rg), bucket.
  destruct (s3_list_objects_v2 w _ _ _) as [page|]; [|done].
  run_step. rewrite !filter_app, (filter_none _ _ (s3_loop_events _ _ _ _ _)).
  destruct (result_of (for_each _ _ _) w); [|done]. by run_known.
Qed.

(** A run that has its client and its bucket asks exactly once. *)
Lemma s3_listing_once self w d ak sk rg bucket :
  s3_config self = Some d ->
  d !! "access_key" = Some ak -> d !! "secret_key" = Some sk ->
  d !! "region" = Some rg -> d !! "bucket" = Some bucket ->
  boto3_client w (mkS3Client ak sk rg) = Ok tt ->
  filter (fun ev => is_s3_listing ev = true) (events_of (_load_from_s3 self) w)
  = [S3ListObjectsV2 (mkS3Client ak sk rg) bucket None].
Proof.
  intros Hd Hak Hsk Hrg Hb Hclient.
  destruct (s3_list_objects_v2 w (mkS3Client ak sk rg) bucket None) as [page|e] eqn:Hpage.
  { by destruct (s3_run self w d ak sk rg bucket page) as [_ ?]. }
  pose proof (truthy_Some_lookup _ _ _ Hak) as Htruthy.
  unfold _load_from_s3, tqdm.
  rewrite events_of_try_log_raise by solve_traced.
  rewrite filter_app, no_listing_in_error_log, app_nil_r.
  rewrite Hd, Htruthy. simpl negb. cbv iota.
  run_known. rewrite Hclient. run_known. by rewrite Hpage.
Qed.

(** C7: a run on an S3 source asks for a listing at most once and never
    with a continuation token, and exactly once when the configuration
    gives it a client and a bucket; a successful run has asked for the
    first page, and its result holds exactly the objects of that page whose
    names pass the filter, each with its body from position 0: an object
    that only a later page lists is not in the result. *)
Theorem s3_first_page_only self w tr r tr' :
  has_prefix (source self) "s3://" ->
  load_images self w tr = (r, tr') ->
  exists evs,
    tr' = tr ++ evs
    /\ (filter (fun ev => is_s3_listing ev = true) evs = []
        \/ exists s3 bucket,
             filter (fun ev => is_s3_listing ev = true) evs
             = [S3ListObjectsV2 s3 bucket None])
    /\ (forall d ak sk rg bucket,
          s3_config self = Some d ->
          d !! "access_key" = Some ak -> d !! "secret_key" = Some sk ->
          d !! "region" = Some rg -> d !! "bucket" = Some bucket ->
          boto3_client w (mkS3Client ak sk rg) = Ok tt ->
          filter (fun ev => is_s3_listing ev = true) evs
          = [S3ListObjectsV2 (mkS3Client ak sk rg) bucket None])
    /\ forall m, r = Ok m ->
         exists s3 bucket page,
           filter (fun ev => is_s3_listing ev = true) evs
           = [S3ListObjectsV2 s3 bucket None]
           /\ s3_list_objects_v2 w s3 bucket None = Ok page
           /\ (forall key, is_Some (m !! key) ->
                 is_image_name key = true
                 /\ exists obj, obj ∈ default [] (Contents page) /\ Key obj = key)
           /\ (forall obj, obj ∈ default [] (Contents page) ->
                 is_image_name (Key obj) = true ->
                 exists body, s3_object_body w s3 bucket (Key obj) = Ok body
                              /\ m !! Key obj = Some {| getvalue := body; tell := 0 |})
           /\ (forall token later obj,
                 s3_list_objects_v2 w s3 bucket (Some token) = Ok later ->
                 obj ∈ default [] (Contents later) ->
                 (forall first, first ∈ default [] (Contents page) -> Key first <> Key obj) ->
                 m !! Key obj = None).
Proof.
  intros Hs [Hr ->]%load_images_result.
  exists (events_of (load_images self) w). split; [done|].
  assert (Hev : filter (fun ev => is_s3_listing ev = true) (events_of (load_images self) w)
                = filter (fun ev => is_s3_listing ev = true) (events_of (_load_from_s3 self) w)).
  { rewrite (load_images_s3 _ Hs).
    rewrite events_of_try_log_raise by apply traced_load_from_s3.
    by rewrite filter_app, no_listing_in_error_log, app_nil_r. }
  rewrite Hev. split; [apply s3_listing_calls|].
  split; [intros; by eapply s3_listing_once|].
  intros m ->. rewrite result_of_load_images in Hr.
  apply startswith_spec in Hs. rewrite Hs in Hr.
  destruct (s3_Ok_inv _ _ _ Hr) as (d & ak & sk & rg & bucket & page & Hinv).
  destruct Hinv as (Hd & Hak & Hsk & Hrg & Hb & Hclient & Hpage & Hloop).
  exists (mkS3Client ak sk rg), bucket, page.
  assert (Hkeys : forall key, is_Some (m !! key) ->
            is_image_name key = true
            /\ exists obj, obj ∈ default [] (Contents page) /\ Key obj = key).
  { intros key Hkey.
    destruct (collect_Ok_key _ _ _ _ _ _ key Hloop Hkey) as [Hin|(obj & Hin & Hsel & <-)].
    - rewrite lookup_empty in Hin. by destruct Hin.
    - eauto. }
  split; [|split; [|split; [|split]]]; [|done..| |].
  - by eapply s3_listing_once.
  - intros obj Hin Himg.
    destruct (collect_Ok_lookup _ _ _ _ _ _ (Key obj) Hloop)
      as [(obj' & s & _ & _ & Hkey & Hf & ->)|[Hnone _]].
    + unfold s3_fetched in Hf. rewrite Hkey in Hf.
      destruct (s3_object_body w _ _ (Key obj)) as [body|]; [|done].
      exists body. split; [done|]. injection Hf as <-.
      by rewrite BytesIO_write_new.
    + by destruct (Hnone obj).
  - intros token later obj _ _ Hlater. apply eq_None_not_Some. intros Hkey.
    destruct (Hkeys _ Hkey) as [_ (first & Hin & Heq)]. by eapply Hlater.
Qed.

Lemma s3_first_page_only_witness :
  exists evs,
    Examples.s3_trace = [] ++ evs
    /\ (filter (fun ev => is_s3_listing ev = true) evs = []
        \/ exists s3 bucket,
             filter (fun ev => is_s3_listing ev = true) evs
             = [S3ListObjectsV2 s3 bucket None])
    /\ (forall d ak sk rg bucket,
          s3_config Examples.s3_loader = Some d ->
          d !! "access_key" = Some ak -> d !! "secret_key" = Some sk ->
          d !! "region" = Some rg -> d !! "bucket" = Some bucket ->
          boto3_client Examples.paged_bucket (mkS3Client ak sk rg) = Ok tt ->
          filter (fun ev => is_s3_listing ev = true) evs
          = [S3ListObjectsV2 (mkS3Client ak sk rg) bucket None])
    /\ forall m, Ok Examples.s3_loaded = Ok m ->
         exists s3 bucket page,
           filter (fun ev => is_s3_listing ev = true) evs
           = [S3ListObjectsV2 s3 bucket None]
           /\ s3_list_objects_v2 Examples.paged_bucket s3 bucket None = Ok page
           /\ (forall key, is_Some (m !! key) ->
                 is_image_name key = true
                 /\ exists obj, obj ∈ default [] (Contents page) /\ Key obj = key)
           /\ (forall obj, obj ∈ default [] (Contents page) ->
                 is_image_name (Key obj) = true ->
                 exists body, s3_object_body Examples.paged_bucket s3 bucket (Key obj) = Ok body
                              /\ m !! Key obj = Some {| getvalue := body; tell := 0 |})
           /\ (forall token later obj,
                 s3_list_objects_v2 Examples.paged_bucket s3 bucket (Some token) = Ok later ->
                 obj ∈ default [] (Contents later) ->
                 (forall first, first ∈ default [] (Contents page) -> Key first <> Key obj) ->
                 m !! Key obj = None).
Proof.
  apply (s3_first_page_only Examples.s3_loader Examples.paged_bucket []
           (Ok Examples.s3_loaded) Examples.s3_trace).
  - by exists "datasets".
  - vm_compute. reflexivity.
Defined.

(* ===================================================================== *)
(** * Calling twice *)
(* ===================================================================== *)

(** The methods are compared with their versions on objects: what a call
    returns is what the version on values returns, behind new references. *)

(** ** Stores that grow *)

Lemma extends_refl st : Obj.extends st st.
Proof. by repeat split. Qed.

Lemma extends_trans st1 st2 st3 :
  Obj.extends st1 st2 -> Obj.extends st2 st3 -> Obj.extends st1 st3.
Proof.
  intros (Ha1 & Hn1 & Hh1) (Ha2 & Hn2 & Hh2). repeat split.
  - congruence.
  - lia.
  - intros l Hl. rewrite Hh2 by lia. by apply Hh1.
Qed.

Lemma extends_trace st tr :
  Obj.extends st (Obj.mkStore (Obj.attrs st) (Obj.heap st) (Obj.next st) tr).
Proof. by repeat split. Qed.

Lemma represents_extends base st st' refs m :
  Obj.represents base st refs m -> Obj.extends st st' ->
  Obj.represents base st' refs m.
Proof.
  intros Hrep (_ & Hn & Hh) key. specialize (Hrep key).
  destruct (refs !! key) as [l|]; [|done].
  destruct Hrep as (? & ? & ? & ?). repeat split; [done|lia|done|].
  by rewrite Hh.
Qed.

Lemma run_lift {A} (m : IO A) w st :
  traced m ->
  Obj.lift m w st
  = (result_of m w,
     Obj.mkStore (Obj.attrs st) (Obj.heap st) (Obj.next st)
       (Obj.trace st ++ events_of m w)).
Proof. intros Hm. unfold Obj.lift. by rewrite Hm. Qed.

Lemma sim_getattr {A} self w (field : DatasetLoader -> A) kh mv :
  sim self w (kh (field self)) mv ->
  sim self w (Obj.bind (Obj.getattr field) kh) mv.
Proof.
  intros Hk st Hattr. unfold Obj.bind, Obj.getattr. rewrite Hattr. by apply Hk.
Qed.

Lemma sim_lift {A} self w (m : IO A) kh kv :
  traced m -> (forall a, traced (kv a)) ->
  (forall a, sim self w (kh a) (kv a)) ->
  sim self w (Obj.bind (Obj.lift m) kh) (bind m kv).
Proof.
  intros Hm Hkv Hk st Hattr. unfold Obj.bind.
  rewrite run_lift, result_of_bind by done.
  destruct (result_of m w) as [a|e].
  - destruct (Hk a (Obj.mkStore (Obj.attrs st) (Obj.heap st) (Obj.next st)
                      (Obj.trace st ++ events_of m w)) Hattr)
      as (rh & st' & Hrun & Hext & Hrel).
    exists rh, st'. split; [done|]. split; [|done].
    by eapply extends_trans; [apply extends_trace|].
  - eexists _, _. split; [done|]. split; [apply extends_trace|done].
Qed.

Lemma sim_raise self w e : sim self w (Obj.raise e) (raise e).
Proof.
  intros st _. exists (Err e), st. split; [done|]. split; [apply extends_refl|done].
Qed.

Lemma sim_try self w prefix mh mv :
  traced mv -> sim self w mh mv ->
  sim self w (Obj.try_log_raise prefix mh) (try_log_raise prefix mv).
Proof.
  intros Hmv Hm st Hattr. destruct (Hm st Hattr) as (rh & st' & Hrun & Hext & Hrel).
  unfold Obj.try_log_raise. rewrite Hrun, result_of_try_log_raise by done.
  destruct rh as [refs|e].
  - by exists (Ok refs), st'.
  - eexists _, _. split; [done|]. split; [|done].
    by eapply extends_trans; [|apply extends_trace].
Qed.

Lemma sim_for_each {A} self w (keyf : A -> string) sel fetched body :
  body_spec self w keyf sel fetched body ->
  forall items acc accv st base,
    Obj.attrs st = self ->
    Obj.represents base st acc accv -> base <= Obj.next st ->
    exists rh st',
      Obj.for_each items body acc w st = (rh, st') /\ Obj.extends st st'
      /\ match rh, collect keyf sel fetched items accv with
         | Ok refs, Ok m => Obj.represents base st' refs m
         | Err e, Err e' => e = e'
         | _, _ => False
         end.
Proof.
  intros Hbody.
  induction items as [|x items IH]; intros acc accv st base Hattr Hrep Hbase.
  { exists (Ok acc), st. split; [done|]. split; [apply extends_refl|done]. }
  simpl. unfold Obj.bind.
  destruct (Hbody acc x st Hattr) as (rh1 & st1 & -> & Hext1 & Hstep).
  assert (Hn1 : Obj.next st <= Obj.next st1) by apply Hext1.
  assert (Hattr1 : Obj.attrs st1 = self).
  { destruct Hext1 as [-> _]. done. }
  destruct (sel x).
  - destruct (fetched x) as [v|e].
    + destruct Hstep as (-> & Hfresh & Hv).
      destruct (IH (<[keyf x := Obj.next st]> acc) (<[keyf x := v]> accv) st1 base)
        as (rh & st' & Hrun & Hext & Hrel); [done| |lia|].
      { intros key. destruct (decide (keyf x = key)) as [<-|Hne].
        - rewrite !lookup_insert_eq. repeat split; [done|done|by eexists|done].
        - rewrite !lookup_insert_ne by done.
          apply (represents_extends _ _ _ _ _ Hrep Hext1). }
      exists rh, st'. split; [done|]. split; [by eapply extends_trans|done].
    + subst rh1. by exists (Err e), st1.
  - subst rh1.
    destruct (IH acc accv st1 base) as (rh & st' & Hrun & Hext & Hrel); [done| |lia|].
    { by eapply represents_extends. }
    exists rh, st'. split; [done|]. split; [by eapply extends_trans|done].
Qed.

Lemma sim_for_each_then {A} self w (keyf : A -> string) sel fetched body bodyv
    items kh kv :
  body_spec self w keyf sel fetched body ->
  (forall acc, result_of (for_each items bodyv acc) w
               = collect keyf sel fetched items acc) ->
  (forall acc x, traced (bodyv acc x)) -> (forall m, traced (kv m)) ->
  passes_through w kh kv ->
  sim self w (Obj.bind (Obj.for_each items body ∅) kh)
    (bind (for_each items bodyv ∅) kv).
Proof.
  intros Hbody Hv Htr Hkv Hpass st Hattr. unfold Obj.bind.
  destruct (sim_for_each self w keyf sel fetched body Hbody items ∅ ∅ st (Obj.next st))
    as (rh & st1 & -> & Hext & Hrel); [done|by intros key; rewrite !lookup_empty|done|].
  rewrite result_of_bind by (auto using traced_for_each). rewrite Hv.
  destruct rh as [refs|e], (collect keyf sel fetched items ∅) as [m|e']; try done.
  - destruct (Hpass refs m) as (r & -> & Hk). destruct (Hk st1) as [tr ->].
    eexists _, _. split; [done|].
    split; [by eapply extends_trans; [|apply extends_trace]|].
    destruct r; [|done]. by eapply represents_extends; [|apply extends_trace].
  - eexists _, _. split; [done|]. by split.
Qed.

(** ** The bodies of the three loops *)

Lemma run_stream_update st l s :
  Obj.heap st !! l = Some s ->
  forall f w,
    Obj.bind (Obj.deref l) (fun s0 => Obj.assign l (f s0)) w st
    = (Ok tt, Obj.mkStore (Obj.attrs st) (<[l := f s]> (Obj.heap st))
                (Obj.next st) (Obj.trace st)).
Proof. intros Hl f w. unfold Obj.bind, Obj.deref, Obj.assign. by rewrite Hl. Qed.

Lemma extends_fresh_object st s tr :
  Obj.extends st
    (Obj.mkStore (Obj.attrs st) (<[Obj.next st := s]> (Obj.heap st))
       (S (Obj.next st)) tr).
Proof.
  repeat split; simpl; [lia|]. intros l Hl. apply lookup_insert_ne. lia.
Qed.

(** Run the object operations of a body on a store. *)
Ltac run_objects :=
  cbv beta iota zeta delta
    [Obj.bind Obj.getattr Obj.load_file Obj.download_fileobj Obj.fget_object
     Obj.write Obj.seek Obj.BytesIO Obj.deref Obj.assign Obj.lift Obj.ret ask];
  simpl.

Lemma local_body_spec self w :
  body_spec self w (os_path_join (source self)) (fun _ => true)
    (local_fetched w (source self))
    (fun images file =>
       Obj.bind (Obj.getattr source) (fun key_src =>
       Obj.bind (Obj.getattr source) (fun src =>
       Obj.bind (Obj.load_file (os_path_join src file)) (fun stream =>
       Obj.ret (<[os_path_join key_src file := stream]> images))))).
Proof.
  intros acc file st <-. unfold local_fetched. run_objects.
  destruct (open_rb_read w (os_path_join _ file)) as [data|e]; simpl.
  - rewrite lookup_insert_eq. eexists _, _. split; [done|]. simpl.
    rewrite insert_insert_eq, lookup_insert_eq.
    split; [apply extends_fresh_object|]. split; [done|]. split; [lia|done].
  - eexists _, _. split; [done|]. split; [apply extends_trace|done].
Qed.

Lemma s3_body_spec self w s3 bucket :
  body_spec self w Key (fun obj => is_image_name (Key obj)) (s3_fetched w s3 bucket)
    (fun files obj =>
       if is_image_name (Key obj)
       then Obj.bind (Obj.BytesIO []) (fun file_stream =>
            Obj.bind (Obj.download_fileobj s3 bucket (Key obj) file_stream) (fun _ =>
            Obj.bind (Obj.seek file_stream 0) (fun _ =>
            Obj.ret (<[Key obj := file_stream]> files))))
       else Obj.ret files).
Proof.
  intros acc obj st <-. unfold s3_fetched.
  destruct (is_image_name (Key obj)).
  2: { exists (Ok acc), st. split; [done|]. split; [apply extends_refl|done]. }
  run_objects.
  destruct (s3_object_body w s3 bucket (Key obj)) as [body|e]; simpl.
  - rewrite lookup_insert_eq. simpl. rewrite lookup_insert_eq.
    eexists _, _. split; [done|]. simpl.
    rewrite !insert_insert_eq, lookup_insert_eq.
    split; [apply extends_fresh_object|]. split; [done|]. split; [lia|done].
  - eexists _, _. split; [done|]. split; [apply extends_fresh_object|done].
Qed.

Lemma minio_body_spec self w client bucket :
  body_spec self w object_name (fun obj => is_image_name (object_name obj))
    (minio_fetched w client bucket)
    (fun files obj =>
       if is_image_name (object_name obj)
       then Obj.bind (Obj.BytesIO []) (fun file_stream =>
            Obj.bind (Obj.fget_object client bucket (object_name obj) file_stream) (fun _ =>
            Obj.bind (Obj.seek file_stream 0) (fun _ =>
            Obj.ret (<[object_name obj := file_stream]> files))))
       else Obj.ret files).
Proof.
  intros acc obj st <-. unfold minio_fetched.
  destruct (is_image_name (object_name obj)).
  2: { exists (Ok acc), st. split; [done|]. split; [apply extends_refl|done]. }
  run_objects. rewrite lookup_insert_eq. simpl.
  destruct (minio_fget_object w client bucket (object_name obj) (BytesIO_new []))
    as [s|e]; simpl.
  - rewrite lookup_insert_eq. eexists _, _. split; [done|]. simpl.
    rewrite !insert_insert_eq, lookup_insert_eq.
    split; [apply extends_fresh_object|]. split; [done|]. split; [lia|done].
  - eexists _, _. split; [done|]. split; [apply extends_fresh_object|done].
Qed.

(** ** What follows the loops *)

Lemma passes_through_logging w (msgh : gmap string nat -> string)
    (msgv : gmap string BytesIO -> string) :
  passes_through w
    (fun files => Obj.bind (Obj.lift (logging INFO (msgh files))) (fun _ => Obj.ret files))
    (fun files => bind (logging INFO (msgv files)) (fun _ => ret files)).
Proof.
  intros refs m. exists (Ok tt). split; [done|].
  intros st. by eexists.
Qed.

Lemma passes_through_listing_error w (err : option exception)
    (msgh : gmap string nat -> string) (msgv : gmap string BytesIO -> string) :
  passes_through w
    (fun files =>
       Obj.bind (Obj.lift (match err with Some e => raise e | None => ret tt end)) (fun _ =>
       Obj.bind (Obj.lift (logging INFO (msgh files))) (fun _ => Obj.ret files)))
    (fun files =>
       bind (match err with Some e => raise e | None => ret tt end) (fun _ =>
       bind (logging INFO (msgv files)) (fun _ => ret files))).
Proof.
  intros refs m. destruct err as [e|].
  - exists (Err e). split; [done|]. intros st. by eexists.
  - exists (Ok tt). split; [done|]. intros st. by eexists.
Qed.

(** ** The three strategies and the dispatch *)

(** Decompose a goal [sim self w mh mv] along the two programs. *)
Ltac sim_step :=
  match goal with
  | |- sim _ _ (Obj.try_log_raise _ _) (try_log_raise _ _) =>
      apply sim_try; [solve_traced|]
  | |- sim _ _ (Obj.bind (Obj.getattr _) _) _ => apply sim_getattr; cbv beta
  | |- sim _ _ (Obj.bind (Obj.lift _) _) (bind _ _) =>
      apply sim_lift; [solve_traced|solve_traced|intros ?]
  | |- sim _ _ (Obj.raise _) (raise _) => apply sim_raise
  | |- sim _ _ (if ?b then _ else _) (if ?b then _ else _) => destruct b
  | |- sim _ _ (let _ := _ in _) _ => cbv zeta
  end.

Lemma local_sim self w : sim self w Obj._load_from_local (_load_from_local self).
Proof.
  unfold Obj._load_from_local, _load_from_local. repeat sim_step.
  apply (sim_for_each_then self w (os_path_join (source self)) (fun _ => true)
           (local_fetched w (source self))).
  - apply local_body_spec.
  - intros acc. apply local_loop_result.
  - solve_traced.
  - solve_traced.
  - apply (passes_through_logging w
             (fun images => "Successfully loaded " +:+ pretty (size images)
                            +:+ " images from local directory.")
             (fun images => "Successfully loaded " +:+ pretty (size images)
                            +:+ " images from local directory.")).
Qed.

Lemma s3_sim self w : sim self w Obj._load_from_s3 (_load_from_s3 self).
Proof.
  unfold Obj._load_from_s3, _load_from_s3, tqdm. repeat sim_step.
  match goal with
  | |- context [ Obj.download_fileobj ?s3 ?bucket ] =>
      apply (sim_for_each_then self w Key (fun obj => is_image_name (Key obj))
               (s3_fetched w s3 bucket))
  end.
  - apply s3_body_spec.
  - intros acc. apply s3_loop_result.
  - solve_traced.
  - solve_traced.
  - apply (passes_through_logging w
             (fun files => "Successfully loaded " +:+ pretty (size files)
                           +:+ " images from S3 bucket.")
             (fun files => "Successfully loaded " +:+ pretty (size files)
                           +:+ " images from S3 bucket.")).
Qed.

Lemma minio_sim self w : sim self w Obj._load_from_minio (_load_from_minio self).
Proof.
  unfold Obj._load_from_minio, _load_from_minio, tqdm. repeat sim_step.
  match goal with
  | |- context [ Obj.fget_object ?client ?bucket ] =>
      apply (sim_for_each_then self w object_name
               (fun obj => is_image_name (object_name obj))
               (minio_fetched w client bucket))
  end.
  - apply minio_body_spec.
  - intros acc. apply minio_loop_result.
  - solve_traced.
  - solve_traced.
  - match goal with
    | |- context [ snd ?objects ] =>
        apply (passes_through_listing_error w (snd objects)
                 (fun files => "Successfully loaded " +:+ pretty (size files)
                               +:+ " images from MinIO bucket.")
                 (fun files => "Successfully loaded " +:+ pretty (size files)
                               +:+ " images from MinIO bucket."))
    end.
Qed.

Lemma load_images_sim self w : sim self w Obj.load_images (load_images self).
Proof.
  unfold Obj.load_images, load_images.
  apply sim_try.
  { repeat case_match;
      [apply traced_load_from_s3|apply traced_load_from_minio|apply traced_load_from_local]. }
  apply sim_getattr; cbv beta.
  destruct (startswith (source self) "s3://"); [apply s3_sim|].
  apply sim_getattr; cbv beta.
  destruct (startswith (source self) "minio://"); [apply minio_sim|apply local_sim].
Qed.

(** ** The second call *)

Lemma loaded_stream_rewound self w m key stream :
  result_of (load_images self) w = Ok m ->
  m !! key = Some stream ->
  tell stream = 0.
Proof.
  intros Hrun Hkey. rewrite result_of_load_images in Hrun.
  assert (Hempty : (∅ : gmap string BytesIO) !! key = Some stream -> tell stream = 0).
  { by rewrite lookup_empty. }
  destruct (startswith (source self) "s3://");
    [|destruct (startswith (source self) "minio://")].
  - apply s3_Ok_inv in Hrun as (d & ak & sk & rg & bucket & page & Hrun).
    destruct Hrun as (_ & _ & _ & _ & _ & _ & _ & Hloop).
    destruct (collect_Ok_lookup _ _ _ _ _ _ key Hloop)
      as [(obj & s & _ & _ & _ & Hf & Hs)|[_ Heq]]; [|rewrite Heq in Hkey; auto].
    unfold s3_fetched in Hf. destruct (s3_object_body w _ _ _); [|done].
    by simplify_eq.
  - apply minio_Ok_inv in Hrun as (d & ep & ak & sk & bucket & Hrun).
    cbv zeta in Hrun. destruct Hrun as (_ & _ & _ & _ & _ & _ & _ & Hloop).
    destruct (collect_Ok_lookup _ _ _ _ _ _ key Hloop)
      as [(obj & s & _ & _ & _ & Hf & Hs)|[_ Heq]]; [|rewrite Heq in Hkey; auto].
    unfold minio_fetched in Hf. destruct (minio_fget_object w _ _ _ _); [|done].
    by simplify_eq.
  - apply local_Ok_inv in Hrun as (_ & entries & _ & Hloop).
    destruct (collect_Ok_lookup _ _ _ _ _ _ key Hloop)
      as [(file & s & _ & _ & _ & Hf & Hs)|[_ Heq]]; [|rewrite Heq in Hkey; auto].
    unfold local_fetched in Hf. destruct (open_rb_read w _); [|done].
    by simplify_eq.
Qed.

(** C9: two calls of [load_images] on an unchanged origin return equal
    mappings.  The loader and its streams are objects in a store; between
    the calls the caller may read, overwrite or drop the streams it was
    handed and make objects of its own, as long as the attributes of the
    loader are the ones the first call left.  Then either both calls raise
    the same exception, or both return mappings with the same keys, and
    under each key the second call hands out a new object, not the one of
    the first call, holding the bytes the first call loaded, at position 0.
    Neither call changes the loader's attributes, and the second leaves
    every object that existed when it started as it found it. *)
Theorem load_images_twice w st1 st2 r1 st1' r2 st2' :
  Obj.load_images w st1 = (r1, st1') ->
  Obj.attrs st2 = Obj.attrs st1' ->
  Obj.next st1' <= Obj.next st2 ->
  Obj.load_images w st2 = (r2, st2') ->
  Obj.attrs st1' = Obj.attrs st1 /\ Obj.attrs st2' = Obj.attrs st2
  /\ (forall l, l < Obj.next st2 -> Obj.heap st2' !! l = Obj.heap st2 !! l)
  /\ match r1, r2 with
     | Ok m1, Ok m2 =>
         (forall key, is_Some (m1 !! key) <-> is_Some (m2 !! key))
         /\ forall key l1 l2, m1 !! key = Some l1 -> m2 !! key = Some l2 ->
              l1 <> l2 /\ Obj.next st2 <= l2
              /\ exists stream,
                   Obj.heap st1' !! l1 = Some stream
                   /\ Obj.heap st2' !! l2 = Some stream
                   /\ tell stream = 0
     | Err e1, Err e2 => e1 = e2
     | _, _ => False
     end.
Proof.
  intros Hrun1 Hattrs Hnext Hrun2.
  destruct (load_images_sim (Obj.attrs st1) w st1 eq_refl)
    as (r1' & st1'' & Hsim1 & Hext1 & Hrel1).
  rewrite Hrun1 in Hsim1. injection Hsim1 as <- <-.
  assert (Hself : Obj.attrs st2 = Obj.attrs st1).
  { rewrite Hattrs. apply Hext1. }
  destruct (load_images_sim (Obj.attrs st1) w st2 Hself)
    as (r2' & st2'' & Hsim2 & Hext2 & Hrel2).
  rewrite Hrun2 in Hsim2. injection Hsim2 as <- <-.
  split; [apply Hext1|]. split; [apply Hext2|]. split; [apply Hext2|].
  destruct r1 as [m1|e1], r2 as [m2|e2],
    (result_of (load_images (Obj.attrs st1)) w) as [m|e] eqn:Hm;
    try done; [|congruence].
  split.
  - intros key. specialize (Hrel1 key). specialize (Hrel2 key).
    destruct (m1 !! key) as [l1|], (m2 !! key) as [l2|]; try done.
    + destruct Hrel1 as (_ & _ & Hsome & _). rewrite Hrel2 in Hsome.
      split; [done|]. intros _. by destruct Hsome.
    + destruct Hrel2 as (_ & _ & Hsome & _). rewrite Hrel1 in Hsome.
      split; [|done]. intros _. by destruct Hsome.
  - intros key l1 l2 Hl1 Hl2. specialize (Hrel1 key). specialize (Hrel2 key).
    rewrite Hl1 in Hrel1. rewrite Hl2 in Hrel2.
    destruct Hrel1 as (_ & Hlt1 & [stream Hstream] & Hheap1).
    destruct Hrel2 as (Hge2 & _ & _ & Hheap2).
    split; [lia|]. split; [done|].
    exists stream. rewrite Hheap1, Hheap2. split; [done|]. split; [done|].
    by eapply loaded_stream_rewound.
Qed.

Lemma load_images_twice_witness :
  Obj.load_images Examples.paged_bucket Examples.s3_first_call
    = (Ok Examples.s3_first_refs, Examples.s3_after_first)
  /\ Obj.load_images Examples.paged_bucket Examples.s3_second_call
     = (Ok Examples.s3_second_refs, Examples.s3_after_second)
  /\ Obj.attrs Examples.s3_after_first = Obj.attrs Examples.s3_first_call
  /\ Obj.attrs Examples.s3_after_second = Obj.attrs Examples.s3_second_call
  /\ (forall l, l < 3 ->
        Obj.heap Examples.s3_after_second !! l = Obj.heap Examples.s3_second_call !! l)
  /\ (forall key, is_Some (Examples.s3_first_refs !! key)
                  <-> is_Some (Examples.s3_second_refs !! key))
  /\ forall key l1 l2,
       Examples.s3_first_refs !! key = Some l1 ->
       Examples.s3_second_refs !! key = Some l2 ->
       l1 <> l2 /\ 3 <= l2
       /\ exists stream,
            Obj.heap Examples.s3_after_first !! l1 = Some stream
            /\ Obj.heap Examples.s3_after_second !! l2 = Some stream
            /\ tell stream = 0.
Proof.
  assert (Hfirst : Obj.load_images Examples.paged_bucket Examples.s3_first_call
                   = (Ok Examples.s3_first_refs, Examples.s3_after_first)).
  { vm_compute. reflexivity. }
  assert (Hsecond : Obj.load_images Examples.paged_bucket Examples.s3_second_call
                    = (Ok Examples.s3_second_refs, Examples.s3_after_second)).
  { vm_compute. reflexivity. }
  split; [exact Hfirst|]. split; [exact Hsecond|].
  apply (load_images_twice Examples.paged_bucket
           Examples.s3_first_call Examples.s3_second_call
           (Ok Examples.s3_first_refs) Examples.s3_after_first
           (Ok Examples.s3_second_refs) Examples.s3_after_second).
  - exact Hfirst.
  - reflexivity.
  - simpl. lia.
  - exact Hsecond.
Defined.

(* ===================================================================== *)
(** * The MinIO strategy *)
(* ===================================================================== *)

(** C8, on the client as the SDK has it: against a bucket with images at
    the top and under nested prefixes, the loader lists recursively, hands
    its stream to [fget_object] for the first image, and the [TypeError]
    this raises ends the call: no mapping is returned. *)
Theorem minio_fget_object_rejects_stream :
  load_images Examples.minio_loader Examples.minio_sdk []
  = (Err (TypeError "stat: path should be string, bytes, os.PathLike or integer, not BytesIO"),
     Examples.minio_sdk_trace)
  /\ MinioListObjects Examples.minio_client (VStr "scans") true ∈ Examples.minio_sdk_trace
  /\ Examples.minio_listing true
     = [mkMinioObject "cover.png"; mkMinioObject "2024/readme.txt";
        mkMinioObject "2024/trip/dog.JPG"].
Proof.
  split; [|split].
  - vm_compute. reflexivity.
  - unfold Examples.minio_sdk_trace. set_solver.
  - reflexivity.
Qed.

Lemma minio_run self w d ep ak sk bucket :
  let client := mkMinioClient ep ak sk (default (VBool false) (d !! "secure")) in
  minio_config self = Some d ->
  d !! "endpoint" = Some ep -> d !! "access_key" = Some ak ->
  d !! "secret_key" = Some sk -> d !! "bucket" = Some bucket ->
  Minio w client = Ok tt ->
  snd (minio_list_objects w client bucket true) = None ->
  result_of (_load_from_minio self) w =
    collect object_name (fun obj => is_image_name (object_name obj))
      (minio_fetched w client bucket)
      (fst (minio_list_objects w client bucket true)) ∅.
Proof.
  intros client Hd Hep Hak Hsk Hb Hclient Hend. subst client.
  pose proof (truthy_Some_lookup _ _ _ Hak) as Htruthy.
  unfold _load_from_minio, tqdm.
  rewrite result_of_try_log_raise by solve_traced.
  rewrite Hd, Htruthy. simpl negb. cbv iota.
  run_known. rewrite Hclient. run_known.
  rewrite minio_loop_result, Hend.
  destruct (collect _ _ _ _ _); [|done]. by run_known.
Qed.

(** With a client whose [fget_object] writes the object into the stream it
    is given, the MinIO strategy returns every listed image, at any depth,
    under its full name, buffered and rewound. *)
Lemma minio_streaming_client_loads self w d ep ak sk bucket :
  let client := mkMinioClient ep ak sk (default (VBool false) (d !! "secure")) in
  has_prefix (source self) "minio://" ->
  minio_config self = Some d ->
  d !! "endpoint" = Some ep -> d !! "access_key" = Some ak ->
  d !! "secret_key" = Some sk -> d !! "bucket" = Some bucket ->
  Minio w client = Ok tt ->
  snd (minio_list_objects w client bucket true) = None ->
  (forall obj, obj ∈ fst (minio_list_objects w client bucket true) ->
     is_image_name (object_name obj) = true ->
     exists data, minio_fget_object w client bucket (object_name obj) (BytesIO_new [])
                  = Ok (BytesIO_write (BytesIO_new []) data)) ->
  exists m,
    result_of (load_images self) w = Ok m
    /\ forall obj data,
         obj ∈ fst (minio_list_objects w client bucket true) ->
         is_image_name (object_name obj) = true ->
         minio_fget_object w client bucket (object_name obj) (BytesIO_new [])
         = Ok (BytesIO_write (BytesIO_new []) data) ->
         m !! object_name obj = Some {| getvalue := data; tell := 0 |}.
Proof.
  intros client Hm Hd Hep Hak Hsk Hb Hclient Hend Hget.
  rewrite result_of_load_images, (minio_prefix_not_s3 _ Hm).
  apply startswith_spec in Hm. rewrite Hm.
  rewrite (minio_run self w d ep ak sk bucket) by done. fold client.
  destruct (collect_all_fetched object_name (fun obj => is_image_name (object_name obj))
              (minio_fetched w client bucket)
              (fst (minio_list_objects w client bucket true)) ∅) as [m Hloop].
  { intros obj Hin Himg. unfold minio_fetched.
    destruct (Hget obj Hin Himg) as [data ->]. eauto. }
  exists m. split; [done|]. intros obj data Hin Himg Hdata.
  destruct (collect_Ok_lookup _ _ _ _ _ _ (object_name obj) Hloop)
    as [(obj' & s & _ & _ & Hkey & Hf & ->)|[Hnone _]].
  - unfold minio_fetched in Hf. rewrite Hkey, Hdata in Hf.
    injection Hf as <-. by rewrite BytesIO_write_new.
  - by destruct (Hnone obj).
Qed.

Example minio_streaming_world_loads :
  exists tr,
    load_images Examples.minio_loader Examples.minio_streaming [] =
      (Ok (<["2024/trip/dog.JPG" := mkBytesIO [x0c; x0d] 0]>
             (<["cover.png" := mkBytesIO [x0a] 0]> ∅)), tr).
Proof. eexists. vm_compute. reflexivity. Qed.

(* ===================================================================== *)
(** * Whole runs *)
(* ===================================================================== *)

Lemma result_of_getitem_None d key w :
  d !! key = None -> result_of (getitem (Some d) key) w = Err (KeyError key).
Proof. intros Hv. unfold getitem. by rewrite Hv. Qed.

(** Evaluate the steps of a run, configuration lookups included. *)
Ltac run_cfg :=
  repeat (run_step;
          erewrite ?result_of_getitem_Some by eassumption;
          erewrite ?result_of_getitem_None by eassumption;
          cbv beta iota).

Lemma truthy_nonempty d : d <> ∅ -> truthy (Some d) = true.
Proof.
  intros Hne. simpl. destruct (size d) eqn:Hsz; [|done].
  by apply map_size_empty_inv in Hsz.
Qed.

Lemma load_images_s3_run self w tr :
  has_prefix (source self) "s3://" ->
  load_images self w tr =
    (result_of (_load_from_s3 self) w,
     tr ++ events_of (_load_from_s3 self) w
        ++ match result_of (_load_from_s3 self) w with
           | Ok _ => []
           | Err e => [Log ERROR ("Error loading images: " +:+ exc_str e)]
           end).
Proof.
  intros Hs. rewrite (load_images_s3 _ Hs).
  apply run_try_log_raise, traced_load_from_s3.
Qed.

Lemma load_images_minio_run self w tr :
  has_prefix (source self) "minio://" ->
  load_images self w tr =
    (result_of (_load_from_minio self) w,
     tr ++ events_of (_load_from_minio self) w
        ++ match result_of (_load_from_minio self) w with
           | Ok _ => []
           | Err e => [Log ERROR ("Error loading images: " +:+ exc_str e)]
           end).
Proof.
  intros Hm. rewrite (load_images_minio _ Hm).
  apply run_try_log_raise, traced_load_from_minio.
Qed.

Lemma load_images_local_run self w tr :
  ~ has_prefix (source self) "s3://" -> ~ has_prefix (source self) "minio://" ->
  load_images self w tr =
    (result_of (_load_from_local self) w,
     tr ++ events_of (_load_from_local self) w
        ++ match result_of (_load_from_local self) w with
           | Ok _ => []
           | Err e => [Log ERROR ("Error loading images: " +:+ exc_str e)]
           end).
Proof.
  intros Hs Hm. rewrite (load_images_local _ Hs Hm).
  apply run_try_log_raise, traced_load_from_local.
Qed.

(** Open a strategy up to the body of its [try]. *)
Ltac open_s3 :=
  unfold _load_from_s3, tqdm;
  rewrite ?result_of_try_log_raise, ?events_of_try_log_raise by solve_traced.
Ltac open_minio :=
  unfold _load_from_minio, tqdm;
  rewrite ?result_of_try_log_raise, ?events_of_try_log_raise by solve_traced.
Ltac open_local :=
  unfold _load_from_local;
  rewrite ?result_of_try_log_raise, ?events_of_try_log_raise by solve_traced.

(* ===================================================================== *)
(** * Incomplete configurations *)
(* ===================================================================== *)

(** X1: an S3 configuration that is not empty but lacks [access_key],
    [secret_key] or [region] ends the call with the [KeyError] of the first
    of these it lacks; the run has logged that it initialises the client,
    but no client was constructed and no request sent. *)
Theorem s3_missing_credential_key self w tr d key :
  has_prefix (source self) "s3://" ->
  s3_config self = Some d -> d <> ∅ ->
  first_missing d ["access_key"; "secret_key"; "region"] = Some key ->
  load_images self w tr =
    (Err (KeyError key),
     tr ++ [Log INFO "Initializing S3 client...";
            Log ERROR ("Error loading images from S3: " +:+ exc_str (KeyError key));
            Log ERROR ("Error loading images: " +:+ exc_str (KeyError key))]).
Proof.
  intros Hs Hd Hne%truthy_nonempty Hmiss.
  rewrite (load_images_s3_run _ _ _ Hs).
  assert (Hrun : result_of (_load_from_s3 self) w = Err (KeyError key)
                 /\ events_of (_load_from_s3 self) w
                    = [Log INFO "Initializing S3 client...";
                       Log ERROR ("Error loading images from S3: "
                                  +:+ exc_str (KeyError key))]).
  { open_s3. rewrite Hd, Hne. simpl negb. cbv iota. simpl in Hmiss.
    destruct (d !! "access_key") eqn:Hak; [|injection Hmiss as <-; split; by run_cfg].
    destruct (d !! "secret_key") eqn:Hsk; [|injection Hmiss as <-; split; by run_cfg].
    destruct (d !! "region") eqn:Hrg; [done|injection Hmiss as <-; split; by run_cfg]. }
  destruct Hrun as [-> ->]. done.
Qed.

Lemma s3_missing_credential_key_witness :
  load_images (mkDatasetLoader "s3://datasets" None (Some Examples.s3_cfg_no_region))
    Examples.paged_bucket [] =
    (Err (KeyError "region"),
     [] ++ [Log INFO "Initializing S3 client...";
            Log ERROR ("Error loading images from S3: " +:+ exc_str (KeyError "region"));
            Log ERROR ("Error loading images: " +:+ exc_str (KeyError "region"))]).
Proof.
  apply (s3_missing_credential_key
           (mkDatasetLoader "s3://datasets" None (Some Examples.s3_cfg_no_region))
           Examples.paged_bucket [] Examples.s3_cfg_no_region "region").
  - by exists "datasets".
  - reflexivity.
  - intros Hempty. apply (f_equal (fun d => d !! "bucket")) in Hempty.
    vm_compute in Hempty. discriminate Hempty.
  - vm_compute. reflexivity.
Defined.

(** X2: an S3 configuration with credentials and region but no [bucket]
    ends the call with [KeyError('bucket')] after the client was
    constructed and before any request. *)
Theorem s3_missing_bucket self w tr d ak sk rg :
  has_prefix (source self) "s3://" ->
  s3_config self = Some d ->
  d !! "access_key" = Some ak -> d !! "secret_key" = Some sk ->
  d !! "region" = Some rg -> d !! "bucket" = None ->
  boto3_client w (mkS3Client ak sk rg) = Ok tt ->
  load_images self w tr =
    (Err (KeyError "bucket"),
     tr ++ [Log INFO "Initializing S3 client...";
            Boto3Client (mkS3Client ak sk rg);
            Log ERROR ("Error loading images from S3: " +:+ exc_str (KeyError "bucket"));
            Log ERROR ("Error loading images: " +:+ exc_str (KeyError "bucket"))]).
Proof.
  intros Hs Hd Hak Hsk Hrg Hb Hclient.
  pose proof (truthy_Some_lookup _ _ _ Hak) as Htruthy.
  rewrite (load_images_s3_run _ _ _ Hs).
  assert (Hrun : result_of (_load_from_s3 self) w = Err (KeyError "bucket")
                 /\ events_of (_load_from_s3 self) w
                    = [Log INFO "Initializing S3 client...";
                       Boto3Client (mkS3Client ak sk rg);
                       Log ERROR ("Error loading images from S3: "
                                  +:+ exc_str (KeyError "bucket"))]).
  { open_s3. rewrite Hd, Htruthy. simpl negb. cbv iota.
    split; run_cfg; rewrite Hclient; by run_cfg. }
  destruct Hrun as [-> ->]. done.
Qed.

Lemma s3_missing_bucket_witness :
  load_images (mkDatasetLoader "s3://datasets" None (Some Examples.s3_cfg_no_bucket))
    Examples.paged_bucket [] =
    (Err (KeyError "bucket"),
     [] ++ [Log INFO "Initializing S3 client...";
            Boto3Client Examples.s3_client;
            Log ERROR ("Error loading images from S3: " +:+ exc_str (KeyError "bucket"));
            Log ERROR ("Error loading images: " +:+ exc_str (KeyError "bucket"))]).
Proof.
  apply (s3_missing_bucket
           (mkDatasetLoader "s3://datasets" None (Some Examples.s3_cfg_no_bucket))
           Examples.paged_bucket [] Examples.s3_cfg_no_bucket
           (VStr "key-id") (VStr "key-secret") (VStr "eu-west-1")).
  - by exists "datasets".
  - reflexivity.
  - reflexivity.
  - reflexivity.
  - reflexivity.
  - reflexivity.
  - reflexivity.
Defined.

(** X3: when boto3 raises while the client is constructed, the call ends
    with that exception, unchanged, and no request is sent. *)
Theorem s3_client_construction_fails self w tr d ak sk rg e :
  has_prefix (source self) "s3://" ->
  s3_config self = Some d ->
  d !! "access_key" = Some ak -> d !! "secret_key" = Some sk ->
  d !! "region" = Some rg ->
  boto3_client w (mkS3Client ak sk rg) = Err e ->
  load_images self w tr =
    (Err e,
     tr ++ [Log INFO "Initializing S3 client...";
            Boto3Client (mkS3Client ak sk rg);
            Log ERROR ("Error loading images from S3: " +:+ exc_str e);
            Log ERROR ("Error loading images: " +:+ exc_str e)]).
Proof.
  intros Hs Hd Hak Hsk Hrg Hclient.
  pose proof (truthy_Some_lookup _ _ _ Hak) as Htruthy.
  rewrite (load_images_s3_run _ _ _ Hs).
  assert (Hrun : result_of (_load_from_s3 self) w = Err e
                 /\ events_of (_load_from_s3 self) w
                    = [Log INFO "Initializing S3 client...";
                       Boto3Client (mkS3Client ak sk rg);
                       Log ERROR ("Error loading images from S3: " +:+ exc_str e)]).
  { open_s3. rewrite Hd, Htruthy. simpl negb. cbv iota.
    split; run_cfg; by rewrite Hclient. }
  destruct Hrun as [-> ->]. done.
Qed.

Lemma s3_client_construction_fails_witness :
  load_images Examples.s3_loader Examples.no_clients [] =
    (Err (ClientError "InvalidRegionError"),
     [] ++ [Log INFO "Initializing S3 client...";
            Boto3Client Examples.s3_client;
            Log ERROR ("Error loading images from S3: "
                       +:+ exc_str (ClientError "InvalidRegionError"));
            Log ERROR ("Error loading images: "
                       +:+ exc_str (ClientError "InvalidRegionError"))]).
Proof.
  apply (s3_client_construction_fails Examples.s3_loader Examples.no_clients []
           Examples.s3_cfg (VStr "key-id") (VStr "key-secret") (VStr "eu-west-1")).
  - by exists "datasets".
  - reflexivity.
  - reflexivity.
  - reflexivity.
  - reflexivity.
  - reflexivity.
Defined.

(** X4: a MinIO configuration that is not empty but lacks [endpoint],
    [access_key] or [secret_key] ends the call with the [KeyError] of the
    first of these it lacks, before a client is constructed. *)
Theorem minio_missing_connection_key self w tr d key :
  has_prefix (source self) "minio://" ->
  minio_config self = Some d -> d <> ∅ ->
  first_missing d ["endpoint"; "access_key"; "secret_key"] = Some key ->
  load_images self w tr =
    (Err (KeyError key),
     tr ++ [Log INFO "Initializing MinIO client...";
            Log ERROR ("Error loading images from MinIO: " +:+ exc_str (KeyError key));
            Log ERROR ("Error loading images: " +:+ exc_str (KeyError key))]).
Proof.
  intros Hm Hd Hne%truthy_nonempty Hmiss.
  rewrite (load_images_minio_run _ _ _ Hm).
  assert (Hrun : result_of (_load_from_minio self) w = Err (KeyError key)
                 /\ events_of (_load_from_minio self) w
                    = [Log INFO "Initializing MinIO client...";
                       Log ERROR ("Error loading images from MinIO: "
                                  +:+ exc_str (KeyError key))]).
  { open_minio. rewrite Hd, Hne. simpl negb. cbv iota. simpl in Hmiss.
    destruct (d !! "endpoint") eqn:Hep; [|injection Hmiss as <-; split; by run_cfg].
    destruct (d !! "access_key") eqn:Hak; [|injection Hmiss as <-; split; by run_cfg].
    destruct (d !! "secret_key") eqn:Hsk; [done|injection Hmiss as <-; split; by run_cfg]. }
  destruct Hrun as [-> ->]. done.
Qed.

Lemma minio_missing_connection_key_witness :
  load_images (mkDatasetLoader "minio://scans" (Some Examples.minio_cfg_no_endpoint) None)
    Examples.minio_streaming [] =
    (Err (KeyError "endpoint"),
     [] ++ [Log INFO "Initializing MinIO client...";
            Log ERROR ("Error loading images from MinIO: " +:+ exc_str (KeyError "endpoint"));
            Log ERROR ("Error loading images: " +:+ exc_str (KeyError "endpoint"))]).
Proof.
  apply (minio_missing_connection_key
           (mkDatasetLoader "minio://scans" (Some Examples.minio_cfg_no_endpoint) None)
           Examples.minio_streaming [] Examples.minio_cfg_no_endpoint "endpoint").
  - by exists "scans".
  - reflexivity.
  - intros Hempty. apply (f_equal (fun d => d !! "bucket")) in Hempty.
    vm_compute in Hempty. discriminate Hempty.
  - vm_compute. reflexivity.
Defined.

(** X5: a MinIO configuration with [endpoint], [access_key] and
    [secret_key] but no [bucket] ends the call with [KeyError('bucket')]
    after the client was constructed, with [secure] as the configuration has
    it and [False] when it has none, and before any request. *)
Theorem minio_missing_bucket self w tr d ep ak sk :
  has_prefix (source self) "minio://" ->
  minio_config self = Some d ->
  d !! "endpoint" = Some ep -> d !! "access_key" = Some ak ->
  d !! "secret_key" = Some sk -> d !! "bucket" = None ->
  Minio w (mkMinioClient ep ak sk (default (VBool false) (d !! "secure"))) = Ok tt ->
  load_images self w tr =
    (Err (KeyError "bucket"),
     tr ++ [Log INFO "Initializing MinIO client...";
            MinioNew (mkMinioClient ep ak sk (default (VBool false) (d !! "secure")));
            Log ERROR ("Error loading images from MinIO: " +:+ exc_str (KeyError "bucket"));
            Log ERROR ("Error loading images: " +:+ exc_str (KeyError "bucket"))]).
Proof.
  intros Hm Hd Hep Hak Hsk Hb Hclient.
  pose proof (truthy_Some_lookup _ _ _ Hak) as Htruthy.
  rewrite (load_images_minio_run _ _ _ Hm).
  assert (Hrun : result_of (_load_from_minio self) w = Err (KeyError "bucket")
                 /\ events_of (_load_from_minio self) w
                    = [Log INFO "Initializing MinIO client...";
                       MinioNew (mkMinioClient ep ak sk
                                   (default (VBool false) (d !! "secure")));
                       Log ERROR ("Error loading images from MinIO: "
                                  +:+ exc_str (KeyError "bucket"))]).
  { open_minio. rewrite Hd, Htruthy. simpl negb. cbv iota.
    split; run_cfg; rewrite Hclient; by run_cfg. }
  destruct Hrun as [-> ->]. done.
Qed.

Lemma minio_missing_bucket_witness :
  load_images (mkDatasetLoader "minio://scans" (Some Examples.minio_cfg_no_bucket) None)
    Examples.minio_streaming [] =
    (Err (KeyError "bucket"),
     [] ++ [Log INFO "Initializing MinIO client...";
            MinioNew (mkMinioClient (VStr "localhost:9000") (VStr "key-id")
                        (VStr "key-secret")
                        (default (VBool false) (Examples.minio_cfg_no_bucket !! "secure")));
            Log ERROR ("Error loading images from MinIO: " +:+ exc_str (KeyError "bucket"));
            Log ERROR ("Error loading images: " +:+ exc_str (KeyError "bucket"))]).
Proof.
  apply (minio_missing_bucket
           (mkDatasetLoader "minio://scans" (Some Examples.minio_cfg_no_bucket) None)
           Examples.minio_streaming [] Examples.minio_cfg_no_bucket
           (VStr "localhost:9000") (VStr "key-id") (VStr "key-secret")).
  - by exists "scans".
  - reflexivity.
  - reflexivity.
  - reflexivity.
  - reflexivity.
  - reflexivity.
  - reflexivity.
Defined.

(** X6: when the MinIO client raises while it is constructed, the call ends
    with that exception, unchanged, and no request is sent. *)
Theorem minio_client_construction_fails self w tr d ep ak sk e :
  has_prefix (source self) "minio://" ->
  minio_config self = Some d ->
  d !! "endpoint" = Some ep -> d !! "access_key" = Some ak ->
  d !! "secret_key" = Some sk ->
  Minio w (mkMinioClient ep ak sk (default (VBool false) (d !! "secure"))) = Err e ->
  load_images self w tr =
    (Err e,
     tr ++ [Log INFO "Initializing MinIO client...";
            MinioNew (mkMinioClient ep ak sk (default (VBool false) (d !! "secure")));
            Log ERROR ("Error loading images from MinIO: " +:+ exc_str e);
            Log ERROR ("Error loading images: " +:+ exc_str e)]).
Proof.
  intros Hm Hd Hep Hak Hsk Hclient.
  pose proof (truthy_Some_lookup _ _ _ Hak) as Htruthy.
  rewrite (load_images_minio_run _ _ _ Hm).
  assert (Hrun : result_of (_load_from_minio self) w = Err e
                 /\ events_of (_load_from_minio self) w
                    = [Log INFO "Initializing MinIO client...";
                       MinioNew (mkMinioClient ep ak sk
                                   (default (VBool false) (d !! "secure")));
                       Log ERROR ("Error loading images from MinIO: " +:+ exc_str e)]).
  { open_minio. rewrite Hd, Htruthy. simpl negb. cbv iota.
    split; run_cfg; by rewrite Hclient. }
  destruct Hrun as [-> ->]. done.
Qed.

Lemma minio_client_construction_fails_witness :
  load_images Examples.minio_loader Examples.no_clients [] =
    (Err (ValueError "path in endpoint is not allowed"),
     [] ++ [Log INFO "Initializing MinIO client...";
            MinioNew (mkMinioClient (VStr "localhost:9000") (VStr "key-id")
                        (VStr "key-secret")
                        (default (VBool false) (Examples.minio_cfg !! "secure")));
            Log ERROR ("Error loading images from MinIO: "
                       +:+ exc_str (ValueError "path in endpoint is not allowed"));
            Log ERROR ("Error loading images: "
                       +:+ exc_str (ValueError "path in endpoint is not allowed"))]).
Proof.
  apply (minio_client_construction_fails Examples.minio_loader Examples.no_clients []
           Examples.minio_cfg (VStr "localhost:9000") (VStr "key-id") (VStr "key-secret")).
  - by exists "scans".
  - reflexivity.
  - reflexivity.
  - reflexivity.
  - reflexivity.
  - reflexivity.
Defined.

(* ===================================================================== *)
(** * What the loops request *)
(* ===================================================================== *)

Section Attempts.

Context {A : Type} (keyf : A -> string) (sel : A -> bool).
Context (fetched : A -> result BytesIO).

Implicit Types (items : list A) (acc m : gmap string BytesIO).

(** The events of a loop are the fetches of the items it gets to. *)
Lemma events_of_for_each_attempts (fetch : A -> IO BytesIO) (post : BytesIO -> BytesIO)
    (body : gmap string BytesIO -> A -> IO (gmap string BytesIO)) (ev : A -> event) w :
  (forall x, traced (fetch x)) ->
  (forall x, match result_of (fetch x) w with
             | Ok s => Ok (post s)
             | Err e => Err e
             end = fetched x) ->
  (forall x, events_of (fetch x) w = [ev x]) ->
  (forall acc x, body acc x =
     if sel x then (s <- fetch x ;; ret (<[keyf x := post s]> acc)) else ret acc) ->
  forall items acc,
    events_of (for_each items body acc) w = ev <$> attempts sel fetched items.
Proof.
  intros Htr Hres Hev Hbody.
  assert (Hb : forall acc x, traced (body acc x)).
  { intros acc x. rewrite Hbody. repeat traced_step. apply Htr. }
  induction items as [|x items IH]; intros acc; [done|].
  simpl. rewrite events_of_bind by (auto using traced_for_each).
  rewrite Hbody. destruct (sel x).
  - rewrite events_of_bind, result_of_bind by (auto using traced_ret).
    rewrite Hev, <- Hres. destruct (result_of (fetch x) w); simpl; [|done].
    by rewrite IH.
  - simpl. apply IH.
Qed.

(** A loop that completes got to every selected item. *)
Lemma attempts_complete items acc m :
  collect keyf sel fetched items acc = Ok m ->
  attempts sel fetched items = filter (fun x => sel x = true) items.
Proof.
  revert acc. induction items as [|x items IH]; intros acc; simpl; [done|].
  rewrite filter_cons. destruct (sel x) eqn:Hsel.
  - destruct (fetched x); [|done]. intros Hm.
    rewrite decide_True by done. f_equal. by eapply IH.
  - intros Hm. rewrite decide_False by done. by eapply IH.
Qed.

(** A loop stops at the first selected item whose fetch fails. *)
Lemma attempts_first_failure before x after acc e :
  (forall y, y ∈ before -> sel y = true -> exists s, fetched y = Ok s) ->
  sel x = true -> fetched x = Err e ->
  collect keyf sel fetched (before ++ x :: after) acc = Err e
  /\ attempts sel fetched (before ++ x :: after)
     = filter (fun y => sel y = true) before ++ [x].
Proof.
  intros Hbefore Hsel Hx. revert acc.
  induction before as [|y before IH]; intros acc; simpl.
  - by rewrite Hsel, Hx.
  - assert (Hrest : forall z, z ∈ before -> sel z = true -> exists s, fetched z = Ok s).
    { intros z Hz. apply Hbefore. by right. }
    rewrite filter_cons. destruct (sel y) eqn:Hy.
    + destruct (Hbefore y) as [s ->]; [by left|done|].
      rewrite decide_True by done.
      destruct (IH Hrest (<[keyf y := s]> acc)) as [-> ->]. done.
    + rewrite decide_False by done. apply (IH Hrest).
Qed.

End Attempts.

Lemma events_of_load_file w file : events_of (load_file file) w = [OpenRead file].
Proof.
  unfold load_file. run_step. destruct (open_rb_read w file); by autorewrite with run.
Qed.

Lemma events_of_download_fileobj w s3 bucket key stream :
  events_of (download_fileobj s3 bucket key stream) w = [S3DownloadFileobj s3 bucket key].
Proof.
  unfold download_fileobj. run_step.
  destruct (s3_object_body w s3 bucket key); by autorewrite with run.
Qed.

Lemma local_loop_trace w src items (acc : gmap string BytesIO) :
  events_of
    (for_each items
       (fun images file =>
          stream <- load_file (os_path_join src file) ;;
          ret (<[os_path_join src file := stream]> images))
       acc) w
  = (fun file => OpenRead (os_path_join src file))
      <$> attempts (fun _ => true) (local_fetched w src) items.
Proof.
  apply (events_of_for_each_attempts (os_path_join src) _ _
           (fun file => load_file (os_path_join src file)) (fun s => s)).
  - intros file. apply traced_load_file.
  - intros file. rewrite result_of_load_file. unfold local_fetched.
    by destruct (open_rb_read w _).
  - intros file. apply events_of_load_file.
  - done.
Qed.

Lemma s3_loop_trace w s3 bucket items (acc : gmap string BytesIO) :
  events_of
    (for_each items
       (fun files obj =>
          if is_image_name (Key obj)
          then file_stream <- download_fileobj s3 bucket (Key obj) (BytesIO_new []) ;;
               ret (<[Key obj := BytesIO_seek file_stream 0]> files)
          else ret files)
       acc) w
  = (fun obj => S3DownloadFileobj s3 bucket (Key obj))
      <$> attempts (fun obj => is_image_name (Key obj)) (s3_fetched w s3 bucket) items.
Proof.
  apply (events_of_for_each_attempts Key _ _
           (fun obj => download_fileobj s3 bucket (Key obj) (BytesIO_new []))
           (fun s => BytesIO_seek s 0)).
  - intros obj. apply traced_download_fileobj.
  - intros obj. rewrite result_of_download_fileobj. unfold s3_fetched.
    by destruct (s3_object_body w _ _ _).
  - intros obj. apply events_of_download_fileobj.
  - done.
Qed.

Lemma minio_loop_trace w client bucket items (acc : gmap string BytesIO) :
  events_of
    (for_each items
       (fun files obj =>
          if is_image_name (object_name obj)
          then file_stream <- fget_object client bucket (object_name obj) (BytesIO_new []) ;;
               ret (<[object_name obj := BytesIO_seek file_stream 0]> files)
          else ret files)
       acc) w
  = (fun obj => MinioFgetObject client bucket (object_name obj))
      <$> attempts (fun obj => is_image_name (object_name obj))
            (minio_fetched w client bucket) items.
Proof.
  apply (events_of_for_each_attempts object_name _ _
           (fun obj => fget_object client bucket (object_name obj) (BytesIO_new []))
           (fun s => BytesIO_seek s 0)).
  - intros obj. apply traced_fget_object.
  - done.
  - done.
  - done.
Qed.

(** ** The trace of each strategy once its origin is reached *)

Lemma local_events self w entries :
  os_path_exists w (source self) = true ->
  os_listdir w (source self) = Ok entries ->
  events_of (_load_from_local self) w =
    [PathExists (source self);
     Log INFO ("Loading images from local directory: " +:+ source self);
     Listdir (source self)]
    ++ ((fun file => OpenRead (os_path_join (source self) file))
          <$> attempts (fun _ => true) (local_fetched w (source self))
                (filter (fun file => is_image_name file = true) entries))
    ++ [match collect (os_path_join (source self)) (fun _ => true)
                (local_fetched w (source self))
                (filter (fun file => is_image_name file = true) entries) ∅ with
        | Ok images => Log INFO ("Successfully loaded " +:+ pretty (size images)
                                 +:+ " images from local directory.")
        | Err e => Log ERROR ("Error loading images from local directory: "
                              +:+ exc_str e)
        end].
Proof.
  intros Hex Hls. open_local.
  run_known. rewrite Hex. simpl negb. cbv iota.
  run_known. rewrite Hls. run_known.
  rewrite local_loop_result, local_loop_trace.
  destruct (collect _ _ _ _ _); run_known; simpl; by rewrite ?app_nil_r, <- ?app_assoc.
Qed.

Lemma s3_events self w d ak sk rg bucket page :
  s3_config self = Some d ->
  d !! "access_key" = Some ak -> d !! "secret_key" = Some sk ->
  d !! "region" = Some rg -> d !! "bucket" = Some bucket ->
  boto3_client w (mkS3Client ak sk rg) = Ok tt ->
  s3_list_objects_v2 w (mkS3Client ak sk rg) bucket None = Ok page ->
  events_of (_load_from_s3 self) w =
    [Log INFO "Initializing S3 client...";
     Boto3Client (mkS3Client ak sk rg);
     Log INFO ("Listing objects in S3 bucket: " +:+ str bucket);
     S3ListObjectsV2 (mkS3Client ak sk rg) bucket None]
    ++ ((fun obj => S3DownloadFileobj (mkS3Client ak sk rg) bucket (Key obj))
          <$> attempts (fun obj => is_image_name (Key obj))
                (s3_fetched w (mkS3Client ak sk rg) bucket)
                (default [] (Contents page)))
    ++ [match collect Key (fun obj => is_image_name (Key obj))
                (s3_fetched w (mkS3Client ak sk rg) bucket)
                (default [] (Contents page)) ∅ with
        | Ok files => Log INFO ("Successfully loaded " +:+ pretty (size files)
                                +:+ " images from S3 bucket.")
        | Err e => Log ERROR ("Error loading images from S3: " +:+ exc_str e)
        end].
Proof.
  intros Hd Hak Hsk Hrg Hb Hclient Hpage.
  pose proof (truthy_Some_lookup _ _ _ Hak) as Htruthy.
  open_s3. rewrite Hd, Htruthy. simpl negb. cbv iota.
  run_known. rewrite Hclient. run_known. rewrite Hpage. run_known.
  rewrite s3_loop_result, s3_loop_trace.
  destruct (collect _ _ _ _ _); run_known; simpl; by rewrite ?app_nil_r, <- ?app_assoc.
Qed.

Lemma minio_result self w d ep ak sk bucket :
  let client := mkMinioClient ep ak sk (default (VBool false) (d !! "secure")) in
  minio_config self = Some d ->
  d !! "endpoint" = Some ep -> d !! "access_key" = Some ak ->
  d !! "secret_key" = Some sk -> d !! "bucket" = Some bucket ->
  Minio w client = Ok tt ->
  result_of (_load_from_minio self) w =
    match collect object_name (fun obj => is_image_name (object_name obj))
            (minio_fetched w client bucket)
            (fst (minio_list_objects w client bucket true)) ∅ with
    | Ok files =>
        match snd (minio_list_objects w client bucket true) with
        | Some e => Err e
        | None => Ok files
        end
    | Err e => Err e
    end.
Proof.
  intros client Hd Hep Hak Hsk Hb Hclient. subst client.
  pose proof (truthy_Some_lookup _ _ _ Hak) as Htruthy.
  open_minio. rewrite Hd, Htruthy. simpl negb. cbv iota.
  run_known. rewrite Hclient. run_known.
  rewrite minio_loop_result.
  destruct (collect _ _ _ _ _); [|done]. run_known.
  destruct (snd (minio_list_objects w _ _ _)); by run_known.
Qed.

Lemma minio_events self w d ep ak sk bucket :
  let client := mkMinioClient ep ak sk (default (VBool false) (d !! "secure")) in
  minio_config self = Some d ->
  d !! "endpoint" = Some ep -> d !! "access_key" = Some ak ->
  d !! "secret_key" = Some sk -> d !! "bucket" = Some bucket ->
  Minio w client = Ok tt ->
  events_of (_load_from_minio self) w =
    [Log INFO "Initializing MinIO client...";
     MinioNew client;
     Log INFO ("Listing objects in MinIO bucket: " +:+ str bucket);
     MinioListObjects client bucket true]
    ++ ((fun obj => MinioFgetObject client bucket (object_name obj))
          <$> attempts (fun obj => is_image_name (object_name obj))
                (minio_fetched w client bucket)
                (fst (minio_list_objects w client bucket true)))
    ++ [match result_of (_load_from_minio self) w with
        | Ok files => Log INFO ("Successfully loaded " +:+ pretty (size files)
                                +:+ " images from MinIO bucket.")
        | Err e => Log ERROR ("Error loading images from MinIO: " +:+ exc_str e)
        end].
Proof.
  intros client Hd Hep Hak Hsk Hb Hclient.
  rewrite (minio_result self w d ep ak sk bucket) by done. fold client.
  subst client.
  pose proof (truthy_Some_lookup _ _ _ Hak) as Htruthy.
  open_minio. rewrite Hd, Htruthy. simpl negb. cbv iota.
  run_known. rewrite Hclient. run_known.
  rewrite minio_loop_result, minio_loop_trace.
  destruct (collect _ _ _ _ _); run_known;
    [destruct (snd (minio_list_objects w _ _ _)); run_known|];
    simpl; by rewrite ?app_nil_r, <- ?app_assoc.
Qed.

(* ===================================================================== *)
(** * The trace of a successful call *)
(* ===================================================================== *)

(** X7: a successful call on a local directory has tested the path, listed
    the directory once, opened each entry with a supported extension once,
    in the order of the listing, and nothing else; its last record reports
    the number of entries of the mapping it returns. *)
Theorem local_successful_trace self w tr m tr' :
  ~ has_prefix (source self) "s3://" -> ~ has_prefix (source self) "minio://" ->
  load_images self w tr = (Ok m, tr') ->
  exists entries,
    os_listdir w (source self) = Ok entries
    /\ tr' = tr ++ [PathExists (source self);
                    Log INFO ("Loading images from local directory: " +:+ source self);
                    Listdir (source self)]
                ++ ((fun file => OpenRead (os_path_join (source self) file))
                      <$> filter (fun file => is_image_name file = true) entries)
                ++ [Log INFO ("Successfully loaded " +:+ pretty (size m)
                              +:+ " images from local directory.")].
Proof.
  intros Hs Hm. rewrite (load_images_local_run _ _ _ Hs Hm).
  intros [= Hr <-]. rewrite Hr.
  destruct (local_Ok_inv _ _ _ Hr) as (Hex & entries & Hls & Hloop).
  exists entries. split; [done|].
  rewrite (local_events self w entries Hex Hls), Hloop.
  rewrite (attempts_complete _ _ _ _ _ _ Hloop), filter_all.
  by rewrite app_nil_r.
Qed.

Lemma local_successful_trace_witness :
  exists entries,
    os_listdir Examples.photos_world "photos" = Ok entries
    /\ Examples.photos_trace
       = [] ++ [PathExists "photos";
                Log INFO ("Loading images from local directory: " +:+ "photos");
                Listdir "photos"]
            ++ ((fun file => OpenRead (os_path_join "photos" file))
                  <$> filter (fun file => is_image_name file = true) entries)
            ++ [Log INFO ("Successfully loaded " +:+ pretty (size Examples.photos_loaded)
                          +:+ " images from local directory.")].
Proof.
  apply (local_successful_trace Examples.local_loader Examples.photos_world []
           Examples.photos_loaded Examples.photos_trace).
  - by intros [rest [=]].
  - by intros [rest [=]].
  - vm_compute. reflexivity.
Defined.

(** X8: a successful call on an S3 source has constructed one client,
    asked for the first page, and downloaded each listed object with a
    supported extension once, in the order of the page, and nothing else;
    its last record reports the number of entries of the mapping. *)
Theorem s3_successful_trace self w tr m tr' :
  has_prefix (source self) "s3://" ->
  load_images self w tr = (Ok m, tr') ->
  exists s3 bucket page,
    s3_list_objects_v2 w s3 bucket None = Ok page
    /\ tr' = tr ++ [Log INFO "Initializing S3 client...";
                    Boto3Client s3;
                    Log INFO ("Listing objects in S3 bucket: " +:+ str bucket);
                    S3ListObjectsV2 s3 bucket None]
                ++ ((fun obj => S3DownloadFileobj s3 bucket (Key obj))
                      <$> filter (fun obj => is_image_name (Key obj) = true)
                            (default [] (Contents page)))
                ++ [Log INFO ("Successfully loaded " +:+ pretty (size m)
                              +:+ " images from S3 bucket.")].
Proof.
  intros Hs. rewrite (load_images_s3_run _ _ _ Hs).
  intros [= Hr <-]. rewrite Hr.
  destruct (s3_Ok_inv _ _ _ Hr) as (d & ak & sk & rg & bucket & page & Hinv).
  destruct Hinv as (Hd & Hak & Hsk & Hrg & Hb & Hclient & Hpage & Hloop).
  exists (mkS3Client ak sk rg), bucket, page. split; [done|].
  rewrite (s3_events self w d ak sk rg bucket page) by done.
  rewrite Hloop, (attempts_complete _ _ _ _ _ _ Hloop).
  by rewrite app_nil_r.
Qed.

Lemma s3_successful_trace_witness :
  exists s3 bucket page,
    s3_list_objects_v2 Examples.paged_bucket s3 bucket None = Ok page
    /\ Examples.s3_trace
       = [] ++ [Log INFO "Initializing S3 client...";
                Boto3Client s3;
                Log INFO ("Listing objects in S3 bucket: " +:+ str bucket);
                S3ListObjectsV2 s3 bucket None]
            ++ ((fun obj => S3DownloadFileobj s3 bucket (Key obj))
                  <$> filter (fun obj => is_image_name (Key obj) = true)
                        (default [] (Contents page)))
            ++ [Log INFO ("Successfully loaded " +:+ pretty (size Examples.s3_loaded)
                          +:+ " images from S3 bucket.")].
Proof.
  apply (s3_successful_trace Examples.s3_loader Examples.paged_bucket []
           Examples.s3_loaded Examples.s3_trace).
  - by exists "datasets".
  - vm_compute. reflexivity.
Defined.

(** X9: a successful call on a MinIO source has constructed one client,
    started one listing, recursive, and called [fget_object] once for each
    listed object with a supported extension, in the order of the listing,
    and nothing else; the listing ended without an exception, and the last
    record reports the number of entries of the mapping. *)
Theorem minio_successful_trace self w tr m tr' :
  has_prefix (source self) "minio://" ->
  load_images self w tr = (Ok m, tr') ->
  exists client bucket,
    snd (minio_list_objects w client bucket true) = None
    /\ tr' = tr ++ [Log INFO "Initializing MinIO client...";
                    MinioNew client;
                    Log INFO ("Listing objects in MinIO bucket: " +:+ str bucket);
                    MinioListObjects client bucket true]
                ++ ((fun obj => MinioFgetObject client bucket (object_name obj))
                      <$> filter (fun obj => is_image_name (object_name obj) = true)
                            (fst (minio_list_objects w client bucket true)))
                ++ [Log INFO ("Successfully loaded " +:+ pretty (size m)
                              +:+ " images from MinIO bucket.")].
Proof.
  intros Hm. rewrite (load_images_minio_run _ _ _ Hm).
  intros [= Hr <-]. rewrite Hr.
  destruct (minio_Ok_inv _ _ _ Hr) as (d & ep & ak & sk & bucket & Hinv).
  cbv zeta in Hinv.
  destruct Hinv as (Hd & Hep & Hak & Hsk & Hb & Hclient & Hend & Hloop).
  eexists _, bucket. split; [exact Hend|].
  rewrite (minio_events self w d ep ak sk bucket) by done. cbv zeta.
  rewrite Hr, (attempts_complete _ _ _ _ _ _ Hloop).
  by rewrite app_nil_r.
Qed.

Lemma minio_successful_trace_witness :
  exists client bucket,
    snd (minio_list_objects Examples.minio_streaming client bucket true) = None
    /\ snd (load_images Examples.minio_loader Examples.minio_streaming [])
       = [] ++ [Log INFO "Initializing MinIO client...";
                MinioNew client;
                Log INFO ("Listing objects in MinIO bucket: " +:+ str bucket);
                MinioListObjects client bucket true]
            ++ ((fun obj => MinioFgetObject client bucket (object_name obj))
                  <$> filter (fun obj => is_image_name (object_name obj) = true)
                        (fst (minio_list_objects Examples.minio_streaming client bucket true)))
            ++ [Log INFO ("Successfully loaded "
                          +:+ pretty (size (<["2024/trip/dog.JPG" := mkBytesIO [x0c; x0d] 0]>
                                              (<["cover.png" := mkBytesIO [x0a] 0]>
                                                 (∅ : gmap string BytesIO))))
                          +:+ " images from MinIO bucket.")].
Proof.
  apply (minio_successful_trace Examples.minio_loader Examples.minio_streaming []).
  - by exists "scans".
  - vm_compute. reflexivity.
Defined.

(* ===================================================================== *)
(** * The first failure ends the call *)
(* ===================================================================== *)

(** X10: when the page lists [before], then [obj], then [after], the
    selected objects of [before] download and the download of [obj] raises
    [e], the call ends with [e], unchanged: it has downloaded the selected
    objects of [before], tried [obj], and requested nothing of [after]. *)
Theorem s3_stops_at_first_failed_download self w tr d ak sk rg bucket page
    before obj after e :
  has_prefix (source self) "s3://" ->
  s3_config self = Some d ->
  d !! "access_key" = Some ak -> d !! "secret_key" = Some sk ->
  d !! "region" = Some rg -> d !! "bucket" = Some bucket ->
  boto3_client w (mkS3Client ak sk rg) = Ok tt ->
  s3_list_objects_v2 w (mkS3Client ak sk rg) bucket None = Ok page ->
  default [] (Contents page) = before ++ obj :: after ->
  (forall o, o ∈ before -> is_image_name (Key o) = true ->
     exists body, s3_object_body w (mkS3Client ak sk rg) bucket (Key o) = Ok body) ->
  is_image_name (Key obj) = true ->
  s3_object_body w (mkS3Client ak sk rg) bucket (Key obj) = Err e ->
  load_images self w tr =
    (Err e,
     tr ++ [Log INFO "Initializing S3 client...";
            Boto3Client (mkS3Client ak sk rg);
            Log INFO ("Listing objects in S3 bucket: " +:+ str bucket);
            S3ListObjectsV2 (mkS3Client ak sk rg) bucket None]
        ++ ((fun o => S3DownloadFileobj (mkS3Client ak sk rg) bucket (Key o))
              <$> filter (fun o => is_image_name (Key o) = true) before ++ [obj])
        ++ [Log ERROR ("Error loading images from S3: " +:+ exc_str e);
            Log ERROR ("Error loading images: " +:+ exc_str e)]).
Proof.
  intros Hs Hd Hak Hsk Hrg Hb Hclient Hpage Hitems Hbefore Himg Hget.
  destruct (attempts_first_failure Key (fun o => is_image_name (Key o))
              (s3_fetched w (mkS3Client ak sk rg) bucket) before obj after ∅ e)
    as [Hloop Hatt]; [|done|by unfold s3_fetched; rewrite Hget|].
  { intros o Ho Hi. unfold s3_fetched. destruct (Hbefore o Ho Hi) as [body ->]. eauto. }
  rewrite (load_images_s3_run _ _ _ Hs).
  destruct (s3_run self w d ak sk rg bucket page) as [Hr _]; [done..|].
  rewrite (s3_events self w d ak sk rg bucket page) by done.
  rewrite Hr, Hitems, Hloop, Hatt. f_equal.
  by rewrite <- !app_assoc.
Qed.

Lemma s3_stops_at_first_failed_download_witness :
  load_images Examples.s3_loader Examples.flaky_bucket [] =
    (Err (ClientError "ConnectionResetError"),
     [] ++ [Log INFO "Initializing S3 client...";
            Boto3Client Examples.s3_client;
            Log INFO ("Listing objects in S3 bucket: " +:+ str (VStr "datasets"));
            S3ListObjectsV2 Examples.s3_client (VStr "datasets") None]
        ++ ((fun o => S3DownloadFileobj Examples.s3_client (VStr "datasets") (Key o))
              <$> filter (fun o => is_image_name (Key o) = true)
                    [mkS3Object "img/a.png"; mkS3Object "readme.md"]
                  ++ [mkS3Object "img/B.JPEG"])
        ++ [Log ERROR ("Error loading images from S3: "
                       +:+ exc_str (ClientError "ConnectionResetError"));
            Log ERROR ("Error loading images: "
                       +:+ exc_str (ClientError "ConnectionResetError"))]).
Proof.
  apply (s3_stops_at_first_failed_download Examples.s3_loader Examples.flaky_bucket []
           Examples.s3_cfg (VStr "key-id") (VStr "key-secret") (VStr "eu-west-1")
           (VStr "datasets")
           {| Contents := Some [mkS3Object "img/a.png"; mkS3Object "readme.md";
                                mkS3Object "img/B.JPEG"];
              IsTruncated := true;
              NextContinuationToken := Some "page-2" |}
           [mkS3Object "img/a.png"; mkS3Object "readme.md"]
           (mkS3Object "img/B.JPEG") []).
  - by exists "datasets".
  - reflexivity.
  - reflexivity.
  - reflexivity.
  - reflexivity.
  - reflexivity.
  - reflexivity.
  - reflexivity.
  - reflexivity.
  - apply (proj1 (Forall_forall
                    (fun o => is_image_name (Key o) = true ->
                       exists body, s3_object_body Examples.flaky_bucket Examples.s3_client
                                      (VStr "datasets") (Key o) = Ok body) _)).
    repeat constructor; intros Himg;
      first [ discriminate Himg | eexists; reflexivity ].
  - reflexivity.
  - reflexivity.
Defined.

(** X11: when the directory lists [before], then [file], then [after], the
    selected entries of [before] are readable and reading [file] raises
    [e], the call ends with [e], unchanged: it has opened the selected
    entries of [before], tried [file], and opened nothing of [after]. *)
Theorem local_stops_at_first_unreadable_file self w tr before file after e :
  ~ has_prefix (source self) "s3://" -> ~ has_prefix (source self) "minio://" ->
  os_path_exists w (source self) = true ->
  os_listdir w (source self) = Ok (before ++ file :: after) ->
  (forall f, f ∈ before -> is_image_name f = true ->
     exists data, open_rb_read w (os_path_join (source self) f) = Ok data) ->
  is_image_name file = true ->
  open_rb_read w (os_path_join (source self) file) = Err e ->
  load_images self w tr =
    (Err e,
     tr ++ [PathExists (source self);
            Log INFO ("Loading images from local directory: " +:+ source self);
            Listdir (source self)]
        ++ ((fun f => OpenRead (os_path_join (source self) f))
              <$> filter (fun f => is_image_name f = true) before ++ [file])
        ++ [Log ERROR ("Error loading images from local directory: " +:+ exc_str e);
            Log ERROR ("Error loading images: " +:+ exc_str e)]).
Proof.
  intros Hs Hm Hex Hls Hbefore Himg Hread.
  assert (Hfilter : filter (fun f => is_image_name f = true) (before ++ file :: after)
                    = filter (fun f => is_image_name f = true) before
                      ++ file :: filter (fun f => is_image_name f = true) after).
  { by rewrite filter_app, filter_cons_True. }
  destruct (attempts_first_failure (os_path_join (source self)) (fun _ => true)
              (local_fetched w (source self))
              (filter (fun f => is_image_name f = true) before) file
              (filter (fun f => is_image_name f = true) after) ∅ e)
    as [Hloop Hatt]; [|done|by unfold local_fetched; rewrite Hread|].
  { intros f [Hi Hf]%(list_elem_of_filter (fun f => is_image_name f = true)) _.
    unfold local_fetched. destruct (Hbefore f Hf Hi) as [data ->]. eauto. }
  rewrite filter_all in Hatt.
  rewrite (load_images_local_run _ _ _ Hs Hm).
  rewrite (local_run self w _ Hex Hls), (local_events self w _ Hex Hls).
  rewrite Hfilter, Hloop, Hatt. f_equal.
  by rewrite <- !app_assoc.
Qed.

Lemma local_stops_at_first_unreadable_file_witness :
  load_images Examples.local_loader Examples.photos_unreadable [] =
    (Err (OSError "[Errno 13] Permission denied"),
     [] ++ [PathExists "photos";
            Log INFO ("Loading images from local directory: " +:+ "photos");
            Listdir "photos"]
        ++ ((fun f => OpenRead (os_path_join "photos" f))
              <$> filter (fun f => is_image_name f = true) ["cat.png"; "notes.txt"]
                  ++ ["DOG.JPG"])
        ++ [Log ERROR ("Error loading images from local directory: "
                       +:+ exc_str (OSError "[Errno 13] Permission denied"));
            Log ERROR ("Error loading images: "
                       +:+ exc_str (OSError "[Errno 13] Permission denied"))]).
Proof.
  apply (local_stops_at_first_unreadable_file Examples.local_loader
           Examples.photos_unreadable [] ["cat.png"; "notes.txt"] "DOG.JPG"
           ["scan.jpeg.bak"]).
  - by intros [rest [=]].
  - by intros [rest [=]].
  - reflexivity.
  - reflexivity.
  - apply (proj1 (Forall_forall
                    (fun f => is_image_name f = true ->
                       exists data, open_rb_read Examples.photos_unreadable
                                      (os_path_join "photos" f) = Ok data) _)).
    repeat constructor; intros Himg;
      first [ discriminate Himg | eexists; reflexivity ].
  - reflexivity.
  - reflexivity.
Defined.

(** X12: when the MinIO listing yields [before], then [obj], then [after],
    the selected objects of [before] are fetched and [fget_object] raises
    [e] for [obj], the call ends with [e], unchanged: it has fetched the
    selected objects of [before], tried [obj], and requested nothing of
    [after]; how the listing would have ended plays no part. *)
Theorem minio_stops_at_first_failed_fetch self w tr d ep ak sk bucket
    before obj after e :
  let client := mkMinioClient ep ak sk (default (VBool false) (d !! "secure")) in
  has_prefix (source self) "minio://" ->
  minio_config self = Some d ->
  d !! "endpoint" = Some ep -> d !! "access_key" = Some ak ->
  d !! "secret_key" = Some sk -> d !! "bucket" = Some bucket ->
  Minio w client = Ok tt ->
  fst (minio_list_objects w client bucket true) = before ++ obj :: after ->
  (forall o, o ∈ before -> is_image_name (object_name o) = true ->
     exists s, minio_fget_object w client bucket (object_name o) (BytesIO_new []) = Ok s) ->
  is_image_name (object_name obj) = true ->
  minio_fget_object w client bucket (object_name obj) (BytesIO_new []) = Err e ->
  load_images self w tr =
    (Err e,
     tr ++ [Log INFO "Initializing MinIO client...";
            MinioNew client;
            Log INFO ("Listing objects in MinIO bucket: " +:+ str bucket);
            MinioListObjects client bucket true]
        ++ ((fun o => MinioFgetObject client bucket (object_name o))
              <$> filter (fun o => is_image_name (object_name o) = true) before ++ [obj])
        ++ [Log ERROR ("Error loading images from MinIO: " +:+ exc_str e);
            Log ERROR ("Error loading images: " +:+ exc_str e)]).
Proof.
  intros client Hm Hd Hep Hak Hsk Hb Hclient Hitems Hbefore Himg Hget.
  destruct (attempts_first_failure object_name (fun o => is_image_name (object_name o))
              (minio_fetched w client bucket) before obj after ∅ e)
    as [Hloop Hatt]; [|done|by unfold minio_fetched; rewrite Hget|].
  { intros o Ho Hi. unfold minio_fetched. destruct (Hbefore o Ho Hi) as [s ->]. eauto. }
  rewrite (load_images_minio_run _ _ _ Hm).
  rewrite (minio_events self w d ep ak sk bucket) by done.
  rewrite (minio_result self w d ep ak sk bucket) by done.
  fold client. rewrite Hitems, Hloop, Hatt. f_equal.
  by rewrite <- !app_assoc.
Qed.

Lemma minio_stops_at_first_failed_fetch_witness :
  load_images Examples.minio_loader Examples.minio_sdk [] =
    (Err (TypeError "stat: path should be string, bytes, os.PathLike or integer, not BytesIO"),
     [] ++ [Log INFO "Initializing MinIO client...";
            MinioNew (mkMinioClient (VStr "localhost:9000") (VStr "key-id")
                        (VStr "key-secret")
                        (default (VBool false) (Examples.minio_cfg !! "secure")));
            Log INFO ("Listing objects in MinIO bucket: " +:+ str (VStr "scans"));
            MinioListObjects
              (mkMinioClient (VStr "localhost:9000") (VStr "key-id") (VStr "key-secret")
                 (default (VBool false) (Examples.minio_cfg !! "secure")))
              (VStr "scans") true]
        ++ ((fun o => MinioFgetObject
                        (mkMinioClient (VStr "localhost:9000") (VStr "key-id")
                           (VStr "key-secret")
                           (default (VBool false) (Examples.minio_cfg !! "secure")))
                        (VStr "scans") (object_name o))
              <$> filter (fun o => is_image_name (object_name o) = true) []
                  ++ [mkMinioObject "cover.png"])
        ++ [Log ERROR ("Error loading images from MinIO: "
                       +:+ exc_str (TypeError "stat: path should be string, bytes, os.PathLike or integer, not BytesIO"));
            Log ERROR ("Error loading images: "
                       +:+ exc_str (TypeError "stat: path should be string, bytes, os.PathLike or integer, not BytesIO"))]).
Proof.
  apply (minio_stops_at_first_failed_fetch Examples.minio_loader Examples.minio_sdk []
           Examples.minio_cfg (VStr "localhost:9000") (VStr "key-id") (VStr "key-secret")
           (VStr "scans") [] (mkMinioObject "cover.png")
           [mkMinioObject "2024/readme.txt"; mkMinioObject "2024/trip/dog.JPG"]).
  - by exists "scans".
  - reflexivity.
  - reflexivity.
  - reflexivity.
  - reflexivity.
  - reflexivity.
  - reflexivity.
  - reflexivity.
  - by intros o ?%elem_of_nil.
  - reflexivity.
  - reflexivity.
Defined.

(** X13: when every selected object the MinIO listing yields is fetched
    and the listing then ends by raising [e], the call ends with [e],
    unchanged, after the fetches: what was fetched is not returned. *)
Theorem minio_listing_failure_after_fetches self w tr d ep ak sk bucket e :
  let client := mkMinioClient ep ak sk (default (VBool false) (d !! "secure")) in
  has_prefix (source self) "minio://" ->
  minio_config self = Some d ->
  d !! "endpoint" = Some ep -> d !! "access_key" = Some ak ->
  d !! "secret_key" = Some sk -> d !! "bucket" = Some bucket ->
  Minio w client = Ok tt ->
  (forall o, o ∈ fst (minio_list_objects w client bucket true) ->
     is_image_name (object_name o) = true ->
     exists s, minio_fget_object w client bucket (object_name o) (BytesIO_new []) = Ok s) ->
  snd (minio_list_objects w client bucket true) = Some e ->
  load_images self w tr =
    (Err e,
     tr ++ [Log INFO "Initializing MinIO client...";
            MinioNew client;
            Log INFO ("Listing objects in MinIO bucket: " +:+ str bucket);
            MinioListObjects client bucket true]
        ++ ((fun o => MinioFgetObject client bucket (object_name o))
              <$> filter (fun o => is_image_name (object_name o) = true)
                    (fst (minio_list_objects w client bucket true)))
        ++ [Log ERROR ("Error loading images from MinIO: " +:+ exc_str e);
            Log ERROR ("Error loading images: " +:+ exc_str e)]).
Proof.
  intros client Hm Hd Hep Hak Hsk Hb Hclient Hall Hend.
  destruct (collect_all_fetched object_name (fun o => is_image_name (object_name o))
              (minio_fetched w client bucket)
              (fst (minio_list_objects w client bucket true)) ∅) as [files Hloop].
  { intros o Ho Hi. unfold minio_fetched. destruct (Hall o Ho Hi) as [s ->]. eauto. }
  rewrite (load_images_minio_run _ _ _ Hm).
  rewrite (minio_events self w d ep ak sk bucket) by done.
  rewrite (minio_result self w d ep ak sk bucket) by done.
  fold client. rewrite Hloop, Hend, (attempts_complete _ _ _ _ _ _ Hloop). f_equal.
  by rewrite <- !app_assoc.
Qed.

Lemma minio_listing_failure_after_fetches_witness :
  load_images Examples.minio_loader Examples.minio_listing_breaks [] =
    (Err (ClientError "ReadTimeoutError"),
     [] ++ [Log INFO "Initializing MinIO client...";
            MinioNew (mkMinioClient (VStr "localhost:9000") (VStr "key-id")
                        (VStr "key-secret")
                        (default (VBool false) (Examples.minio_cfg !! "secure")));
            Log INFO ("Listing objects in MinIO bucket: " +:+ str (VStr "scans"));
            MinioListObjects
              (mkMinioClient (VStr "localhost:9000") (VStr "key-id") (VStr "key-secret")
                 (default (VBool false) (Examples.minio_cfg !! "secure")))
              (VStr "scans") true]
        ++ ((fun o => MinioFgetObject
                        (mkMinioClient (VStr "localhost:9000") (VStr "key-id")
                           (VStr "key-secret")
                           (default (VBool false) (Examples.minio_cfg !! "secure")))
                        (VStr "scans") (object_name o))
              <$> filter (fun o => is_image_name (object_name o) = true)
                    (fst (minio_list_objects Examples.minio_listing_breaks
                            (mkMinioClient (VStr "localhost:9000") (VStr "key-id")
                               (VStr "key-secret")
                               (default (VBool false) (Examples.minio_cfg !! "secure")))
                            (VStr "scans") true)))
        ++ [Log ERROR ("Error loading images from MinIO: "
                       +:+ exc_str (ClientError "ReadTimeoutError"));
            Log ERROR ("Error loading images: "
                       +:+ exc_str (ClientError "ReadTimeoutError"))]).
Proof.
  apply (minio_listing_failure_after_fetches Examples.minio_loader
           Examples.minio_listing_breaks []
           Examples.minio_cfg (VStr "localhost:9000") (VStr "key-id") (VStr "key-secret")
           (VStr "scans")).
  - by exists "scans".
  - reflexivity.
  - reflexivity.
  - reflexivity.
  - reflexivity.
  - reflexivity.
  - reflexivity.
  - apply (proj1 (Forall_forall
                    (fun o => is_image_name (object_name o) = true ->
                       exists s, minio_fget_object Examples.minio_listing_breaks
                                   (mkMinioClient (VStr "localhost:9000") (VStr "key-id")
                                      (VStr "key-secret")
                                      (default (VBool false)
                                         (Examples.minio_cfg !! "secure")))
                                   (VStr "scans") (object_name o) (BytesIO_new [])
                                 = Ok s) _)).
    repeat constructor; intros Himg; eexists; reflexivity.
  - reflexivity.
Defined.

(* ===================================================================== *)
(** * A listing that fails *)
(* ===================================================================== *)

(** X14: when the path exists but listing it raises [e] (the path is a
    file, or may not be read), the call ends with [e] itself, not with the
    [ValueError] of a missing path, and has opened no file. *)
Theorem local_listing_failure self w tr e :
  ~ has_prefix (source self) "s3://" -> ~ has_prefix (source self) "minio://" ->
  os_path_exists w (source self) = true ->
  os_listdir w (source self) = Err e ->
  load_images self w tr =
    (Err e,
     tr ++ [PathExists (source self);
            Log INFO ("Loading images from local directory: " +:+ source self);
            Listdir (source self);
            Log ERROR ("Error loading images from local directory: " +:+ exc_str e);
            Log ERROR ("Error loading images: " +:+ exc_str e)]).
Proof.
  intros Hs Hm Hex Hls. rewrite (load_images_local_run _ _ _ Hs Hm).
  assert (Hrun : result_of (_load_from_local self) w = Err e
                 /\ events_of (_load_from_local self) w
                    = [PathExists (source self);
                       Log INFO ("Loading images from local directory: " +:+ source self);
                       Listdir (source self);
                       Log ERROR ("Error loading images from local directory: "
                                  +:+ exc_str e)]).
  { open_local. split; run_known; rewrite Hex; simpl negb; cbv iota;
      run_known; by rewrite Hls. }
  destruct Hrun as [-> ->]. done.
Qed.

Lemma local_listing_failure_witness :
  load_images (mkDatasetLoader "photos/cat.png" None None) Examples.photos_world [] =
    (Err (OSError "[Errno 20] Not a directory"),
     [] ++ [PathExists "photos/cat.png";
            Log INFO ("Loading images from local directory: " +:+ "photos/cat.png");
            Listdir "photos/cat.png";
            Log ERROR ("Error loading images from local directory: "
                       +:+ exc_str (OSError "[Errno 20] Not a directory"));
            Log ERROR ("Error loading images: "
                       +:+ exc_str (OSError "[Errno 20] Not a directory"))]).
Proof.
  apply (local_listing_failure (mkDatasetLoader "photos/cat.png" None None)
           Examples.photos_world []).
  - by intros [rest [=]].
  - by intros [rest [=]].
  - reflexivity.
  - reflexivity.
Defined.

(** X15: when the request for the first page raises [e], the call ends
    with [e], unchanged, and has downloaded nothing. *)
Theorem s3_listing_failure self w tr d ak sk rg bucket e :
  has_prefix (source self) "s3://" ->
  s3_config self = Some d ->
  d !! "access_key" = Some ak -> d !! "secret_key" = Some sk ->
  d !! "region" = Some rg -> d !! "bucket" = Some bucket ->
  boto3_client w (mkS3Client ak sk rg) = Ok tt ->
  s3_list_objects_v2 w (mkS3Client ak sk rg) bucket None = Err e ->
  load_images self w tr =
    (Err e,
     tr ++ [Log INFO "Initializing S3 client...";
            Boto3Client (mkS3Client ak sk rg);
            Log INFO ("Listing objects in S3 bucket: " +:+ str bucket);
            S3ListObjectsV2 (mkS3Client ak sk rg) bucket None;
            Log ERROR ("Error loading images from S3: " +:+ exc_str e);
            Log ERROR ("Error loading images: " +:+ exc_str e)]).
Proof.
  intros Hs Hd Hak Hsk Hrg Hb Hclient Hpage.
  pose proof (truthy_Some_lookup _ _ _ Hak) as Htruthy.
  rewrite (load_images_s3_run _ _ _ Hs).
  assert (Hrun : result_of (_load_from_s3 self) w = Err e
                 /\ events_of (_load_from_s3 self) w
                    = [Log INFO "Initializing S3 client...";
                       Boto3Client (mkS3Client ak sk rg);
                       Log INFO ("Listing objects in S3 bucket: " +:+ str bucket);
                       S3ListObjectsV2 (mkS3Client ak sk rg) bucket None;
                       Log ERROR ("Error loading images from S3: " +:+ exc_str e)]).
  { open_s3. rewrite Hd, Htruthy. simpl negb. cbv iota.
    split; run_known; rewrite Hclient; run_known; by rewrite Hpage. }
  destruct Hrun as [-> ->]. done.
Qed.

Lemma s3_listing_failure_witness :
  load_images Examples.s3_loader Examples.offline [] =
    (Err (ClientError "EndpointConnectionError"),
     [] ++ [Log INFO "Initializing S3 client...";
            Boto3Client Examples.s3_client;
            Log INFO ("Listing objects in S3 bucket: " +:+ str (VStr "datasets"));
            S3ListObjectsV2 Examples.s3_client (VStr "datasets") None;
            Log ERROR ("Error loading images from S3: "
                       +:+ exc_str (ClientError "EndpointConnectionError"));
            Log ERROR ("Error loading images: "
                       +:+ exc_str (ClientError "EndpointConnectionError"))]).
Proof.
  apply (s3_listing_failure Examples.s3_loader Examples.offline []
           Examples.s3_cfg (VStr "key-id") (VStr "key-secret") (VStr "eu-west-1")
           (VStr "datasets")).
  - by exists "datasets".
  - reflexivity.
  - reflexivity.
  - reflexivity.
  - reflexivity.
  - reflexivity.
  - reflexivity.
  - reflexivity.
Defined.

(* ===================================================================== *)
(** * Nothing to load *)
(* ===================================================================== *)

Lemma collect_none_selected {A} (keyf : A -> string) (sel : A -> bool)
    (fetched : A -> result BytesIO) (items : list A) acc :
  (forall x, x ∈ items -> sel x = false) ->
  collect keyf sel fetched items acc = Ok acc.
Proof.
  induction items as [|x items IH]; intros Hnone; simpl; [done|].
  rewrite (Hnone x) by (by left). apply IH. intros y Hy. apply Hnone. by right.
Qed.

Lemma filter_none_selected {A} (sel : A -> bool) (items : list A) :
  (forall x, x ∈ items -> sel x = false) ->
  filter (fun x => sel x = true) items = [].
Proof.
  intros Hnone. apply filter_none, Forall_forall.
  intros x Hx. rewrite (Hnone x Hx). done.
Qed.

(** X16: a bucket whose first page has no [Contents], or none with a
    supported extension, is no error: the call returns the empty mapping
    and has downloaded nothing. *)
Theorem s3_nothing_to_load self w tr d ak sk rg bucket page :
  has_prefix (source self) "s3://" ->
  s3_config self = Some d ->
  d !! "access_key" = Some ak -> d !! "secret_key" = Some sk ->
  d !! "region" = Some rg -> d !! "bucket" = Some bucket ->
  boto3_client w (mkS3Client ak sk rg) = Ok tt ->
  s3_list_objects_v2 w (mkS3Client ak sk rg) bucket None = Ok page ->
  (forall obj, obj ∈ default [] (Contents page) -> is_image_name (Key obj) = false) ->
  load_images self w tr =
    (Ok ∅,
     tr ++ [Log INFO "Initializing S3 client...";
            Boto3Client (mkS3Client ak sk rg);
            Log INFO ("Listing objects in S3 bucket: " +:+ str bucket);
            S3ListObjectsV2 (mkS3Client ak sk rg) bucket None;
            Log INFO "Successfully loaded 0 images from S3 bucket."]).
Proof.
  intros Hs Hd Hak Hsk Hrg Hb Hclient Hpage Hnone.
  pose proof (collect_none_selected Key (fun obj => is_image_name (Key obj))
                (s3_fetched w (mkS3Client ak sk rg) bucket) _ ∅ Hnone) as Hloop.
  rewrite (load_images_s3_run _ _ _ Hs).
  destruct (s3_run self w d ak sk rg bucket page) as [Hr _]; [done..|].
  rewrite (s3_events self w d ak sk rg bucket page) by done.
  rewrite Hr, Hloop, (attempts_complete _ _ _ _ _ _ Hloop).
  rewrite (filter_none_selected (fun obj => is_image_name (Key obj))) by done.
  done.
Qed.

Lemma s3_nothing_to_load_witness :
  load_images Examples.s3_loader Examples.empty_bucket [] =
    (Ok ∅,
     [] ++ [Log INFO "Initializing S3 client...";
            Boto3Client Examples.s3_client;
            Log INFO ("Listing objects in S3 bucket: " +:+ str (VStr "datasets"));
            S3ListObjectsV2 Examples.s3_client (VStr "datasets") None;
            Log INFO "Successfully loaded 0 images from S3 bucket."]).
Proof.
  apply (s3_nothing_to_load Examples.s3_loader Examples.empty_bucket []
           Examples.s3_cfg (VStr "key-id") (VStr "key-secret") (VStr "eu-west-1")
           (VStr "datasets")
           {| Contents := None; IsTruncated := false; NextContinuationToken := None |}).
  - by exists "datasets".
  - reflexivity.
  - reflexivity.
  - reflexivity.
  - reflexivity.
  - reflexivity.
  - reflexivity.
  - reflexivity.
  - by intros obj ?%elem_of_nil.
Defined.

(** X17: an existing directory that is empty, or has no entry with a
    supported extension, is no error: the call returns the empty mapping
    and has opened no file. *)
Theorem local_nothing_to_load self w tr entries :
  ~ has_prefix (source self) "s3://" -> ~ has_prefix (source self) "minio://" ->
  os_path_exists w (source self) = true ->
  os_listdir w (source self) = Ok entries ->
  (forall file, file ∈ entries -> is_image_name file = false) ->
  load_images self w tr =
    (Ok ∅,
     tr ++ [PathExists (source self);
            Log INFO ("Loading images from local directory: " +:+ source self);
            Listdir (source self);
            Log INFO "Successfully loaded 0 images from local directory."]).
Proof.
  intros Hs Hm Hex Hls Hnone.
  rewrite (load_images_local_run _ _ _ Hs Hm).
  rewrite (local_run self w _ Hex Hls), (local_events self w _ Hex Hls).
  rewrite (filter_none_selected is_image_name) by done. done.
Qed.

Lemma local_nothing_to_load_witness :
  load_images (mkDatasetLoader "docs" None None)
    {| os_path_exists := fun _ => true;
       os_listdir := fun _ => Ok ["readme.md"; "png"; "a.png.txt"];
       open_rb_read := open_rb_read Examples.offline;
       boto3_client := boto3_client Examples.offline;
       s3_list_objects_v2 := s3_list_objects_v2 Examples.offline;
       s3_object_body := s3_object_body Examples.offline;
       Minio := Minio Examples.offline;
       minio_list_objects := minio_list_objects Examples.offline;
       minio_fget_object := minio_fget_object Examples.offline |} [] =
    (Ok ∅,
     [] ++ [PathExists "docs";
            Log INFO ("Loading images from local directory: " +:+ "docs");
            Listdir "docs";
            Log INFO "Successfully loaded 0 images from local directory."]).
Proof.
  apply (local_nothing_to_load (mkDatasetLoader "docs" None None) _ []
           ["readme.md"; "png"; "a.png.txt"]).
  - by intros [rest [=]].
  - by intros [rest [=]].
  - reflexivity.
  - reflexivity.
  - apply (proj1 (Forall_forall (fun file => is_image_name file = false) _)).
    repeat constructor.
Defined.

(* ===================================================================== *)
(** * What every returned mapping satisfies *)
(* ===================================================================== *)

(** X18: every stream of a returned mapping is at position 0, whatever the
    origin and whatever the backend did to the stream while it filled it. *)
Theorem returned_streams_are_rewound self w tr m tr' key stream :
  load_images self w tr = (Ok m, tr') ->
  m !! key = Some stream ->
  tell stream = 0.
Proof.
  intros [Hrun _]%load_images_result Hkey.
  rewrite result_of_load_images in Hrun.
  assert (Hempty : (∅ : gmap string BytesIO) !! key = Some stream -> tell stream = 0).
  { by rewrite lookup_empty. }
  destruct (startswith (source self) "s3://");
    [|destruct (startswith (source self) "minio://")].
  - apply s3_Ok_inv in Hrun as (d & ak & sk & rg & bucket & page & Hrun).
    destruct Hrun as (_ & _ & _ & _ & _ & _ & _ & Hloop).
    destruct (collect_Ok_lookup _ _ _ _ _ _ key Hloop)
      as [(obj & s & _ & _ & _ & Hf & Hs)|[_ Heq]]; [|rewrite Heq in Hkey; auto].
    unfold s3_fetched in Hf. destruct (s3_object_body w _ _ _); [|done].
    by simplify_eq.
  - apply minio_Ok_inv in Hrun as (d & ep & ak & sk & bucket & Hrun).
    cbv zeta in Hrun. destruct Hrun as (_ & _ & _ & _ & _ & _ & _ & Hloop).
    destruct (collect_Ok_lookup _ _ _ _ _ _ key Hloop)
      as [(obj & s & _ & _ & _ & Hf & Hs)|[_ Heq]]; [|rewrite Heq in Hkey; auto].
    unfold minio_fetched in Hf. destruct (minio_fget_object w _ _ _ _); [|done].
    by simplify_eq.
  - apply local_Ok_inv in Hrun as (_ & entries & _ & Hloop).
    destruct (collect_Ok_lookup _ _ _ _ _ _ key Hloop)
      as [(file & s & _ & _ & _ & Hf & Hs)|[_ Heq]]; [|rewrite Heq in Hkey; auto].
    unfold local_fetched in Hf. destruct (open_rb_read w _); [|done].
    by simplify_eq.
Qed.

Lemma returned_streams_are_rewound_witness :
  tell (mkBytesIO [x03] 0) = 0.
Proof.
  apply (returned_streams_are_rewound Examples.s3_loader Examples.paged_bucket []
           Examples.s3_loaded Examples.s3_trace "img/B.JPEG").
  - vm_compute. reflexivity.
  - reflexivity.
Defined.

(** X19: a successful call on a local directory could read every listed
    entry with a supported extension, and returns exactly these: each under
    its joined path with the bytes read, and no other key. *)
Theorem local_result_entries self w tr m tr' :
  ~ has_prefix (source self) "s3://" -> ~ has_prefix (source self) "minio://" ->
  load_images self w tr = (Ok m, tr') ->
  exists entries,
    os_listdir w (source self) = Ok entries
    /\ (forall file, file ∈ entries -> is_image_name file = true ->
          exists data,
            open_rb_read w (os_path_join (source self) file) = Ok data
            /\ m !! os_path_join (source self) file
               = Some {| getvalue := data; tell := 0 |})
    /\ (forall key, is_Some (m !! key) ->
          exists file, file ∈ entries /\ is_image_name file = true
                       /\ key = os_path_join (source self) file).
Proof.
  intros Hs Hm [Hrun _]%load_images_result.
  rewrite result_of_load_images in Hrun.
  rewrite (startswith_false _ _ Hs), (startswith_false _ _ Hm) in Hrun.
  apply local_Ok_inv in Hrun as (_ & entries & Hls & Hloop).
  exists entries. split; [done|]. split.
  - intros file Hin Himg.
    destruct (collect_Ok_lookup _ _ _ _ _ _ (os_path_join (source self) file) Hloop)
      as [(f' & s & _ & _ & Hkey & Hf & ->)|[Hnone _]].
    + unfold local_fetched in Hf. rewrite Hkey in Hf.
      destruct (open_rb_read w _) as [data|]; [|done].
      exists data. split; [done|]. by injection Hf as <-.
    + exfalso. apply (Hnone file); [|done..].
      by apply (list_elem_of_filter (fun f => is_image_name f = true)).
  - intros key Hkey.
    destruct (collect_Ok_key _ _ _ _ _ _ key Hloop Hkey) as [Hin|(file & Hf & _ & <-)].
    + rewrite lookup_empty in Hin. by destruct Hin.
    + apply (list_elem_of_filter (fun f => is_image_name f = true)) in Hf as [? ?].
      by exists file.
Qed.

Lemma local_result_entries_witness :
  exists entries,
    os_listdir Examples.photos_world "photos" = Ok entries
    /\ (forall file, file ∈ entries -> is_image_name file = true ->
          exists data,
            open_rb_read Examples.photos_world (os_path_join "photos" file) = Ok data
            /\ Examples.photos_loaded !! os_path_join "photos" file
               = Some {| getvalue := data; tell := 0 |})
    /\ (forall key, is_Some (Examples.photos_loaded !! key) ->
          exists file, file ∈ entries /\ is_image_name file = true
                       /\ key = os_path_join "photos" file).
Proof.
  apply (local_result_entries Examples.local_loader Examples.photos_world []
           Examples.photos_loaded Examples.photos_trace).
  - by intros [rest [=]].
  - by intros [rest [=]].
  - vm_compute. reflexivity.
Defined.

(** X20: a successful call on a MinIO source got a normal return of
    [fget_object] for every listed object with a supported extension, and
    returns exactly these: each under its object name with the stream the
    call left, rewound, and no other key. *)
Theorem minio_result_entries self w tr m tr' :
  has_prefix (source self) "minio://" ->
  load_images self w tr = (Ok m, tr') ->
  exists client bucket,
    (forall obj, obj ∈ fst (minio_list_objects w client bucket true) ->
       is_image_name (object_name obj) = true ->
       exists s,
         minio_fget_object w client bucket (object_name obj) (BytesIO_new []) = Ok s
         /\ m !! object_name obj = Some (BytesIO_seek s 0))
    /\ (forall key, is_Some (m !! key) ->
          exists obj, obj ∈ fst (minio_list_objects w client bucket true)
                      /\ is_image_name (object_name obj) = true
                      /\ key = object_name obj).
Proof.
  intros Hm [Hrun _]%load_images_result.
  rewrite result_of_load_images, (minio_prefix_not_s3 _ Hm) in Hrun.
  apply startswith_spec in Hm. rewrite Hm in Hrun.
  apply minio_Ok_inv in Hrun as (d & ep & ak & sk & bucket & Hrun).
  cbv zeta in Hrun. destruct Hrun as (_ & _ & _ & _ & _ & _ & _ & Hloop).
  exists (mkMinioClient ep ak sk (default (VBool false) (d !! "secure"))), bucket.
  split.
  - intros obj Hin Himg.
    destruct (collect_Ok_lookup _ _ _ _ _ _ (object_name obj) Hloop)
      as [(obj' & s & _ & _ & Hkey & Hf & ->)|[Hnone _]].
    + unfold minio_fetched in Hf. rewrite Hkey in Hf.
      destruct (minio_fget_object w _ _ _ _) as [s'|]; [|done].
      exists s'. split; [done|]. by injection Hf as <-.
    + by destruct (Hnone obj).
  - intros key Hkey.
    destruct (collect_Ok_key _ _ _ _ _ _ key Hloop Hkey) as [Hin|(obj & Hin & Hsel & <-)].
    + rewrite lookup_empty in Hin. by destruct Hin.
    + by exists obj.
Qed.

Lemma minio_result_entries_witness :
  exists client bucket,
    (forall obj, obj ∈ fst (minio_list_objects Examples.minio_streaming client bucket true) ->
       is_image_name (object_name obj) = true ->
       exists s,
         minio_fget_object Examples.minio_streaming client bucket (object_name obj)
           (BytesIO_new []) = Ok s
         /\ (<["2024/trip/dog.JPG" := mkBytesIO [x0c; x0d] 0]>
               (<["cover.png" := mkBytesIO [x0a] 0]> (∅ : gmap string BytesIO)))
              !! object_name obj = Some (BytesIO_seek s 0))
    /\ (forall key,
          is_Some ((<["2024/trip/dog.JPG" := mkBytesIO [x0c; x0d] 0]>
                      (<["cover.png" := mkBytesIO [x0a] 0]> (∅ : gmap string BytesIO)))
                     !! key) ->
          exists obj, obj ∈ fst (minio_list_objects Examples.minio_streaming client bucket true)
                      /\ is_image_name (object_name obj) = true
                      /\ key = object_name obj).
Proof.
  apply (minio_result_entries Examples.minio_loader Examples.minio_streaming [] _
           (snd (load_images Examples.minio_loader Examples.minio_streaming []))).
  - by exists "scans".
  - vm_compute. reflexivity.
Defined.

(* ===================================================================== *)
(** * What a call leaves alone *)
(* ===================================================================== *)

(** X21: a call touches only the backend its source selects: a call on a
    local path constructs no client and sends no request, a call on an S3
    source touches neither the file system nor MinIO, and a call on a MinIO
    source neither the file system nor S3; the rest of its trace is log
    records.  This holds for failing calls too. *)
Theorem load_images_stays_with_its_backend self w tr r tr' :
  load_images self w tr = (r, tr') ->
  exists evs,
    tr' = tr ++ evs
    /\ Forall (fun ev => stays_with (selected_backend (source self)) ev = true) evs.
Proof.
  intros [_ ->]%load_images_result. eexists. split; [done|].
  unfold selected_backend, load_images, _load_from_s3, _load_from_minio,
    _load_from_local, tqdm, load_file, download_fileobj, fget_object.
  repeat events_step.
Qed.

Lemma load_images_stays_with_its_backend_witness :
  exists evs,
    Examples.s3_trace = [] ++ evs
    /\ Forall (fun ev => stays_with (selected_backend "s3://datasets") ev = true) evs.
Proof.
  apply (load_images_stays_with_its_backend Examples.s3_loader Examples.paged_bucket []
           (Ok Examples.s3_loaded) Examples.s3_trace).
  vm_compute. reflexivity.
Defined.

(** X22: of its three arguments a loader uses the prefix of the source and
    the part that belongs to the selected backend: two loaders on S3
    sources with the same [s3_config] behave alike, whatever follows
    [s3://] and whatever their [minio_config] (the bucket comes from the
    configuration, not from the URI); likewise for MinIO; and on local
    paths both configurations are ignored. *)
Theorem load_images_uses_selected_arguments self1 self2 :
  selected_backend (source self1) = selected_backend (source self2) ->
  match selected_backend (source self1) with
  | S3Backend => s3_config self1 = s3_config self2
  | MinIOBackend => minio_config self1 = minio_config self2
  | FileSystem => source self1 = source self2
  end ->
  load_images self1 = load_images self2.
Proof.
  unfold selected_backend, load_images. intros Hsel Harg.
  destruct (startswith (source self1) "s3://") eqn:Hs1.
  { destruct (startswith (source self2) "s3://");
      [|destruct (startswith (source self2) "minio://"); done].
    unfold _load_from_s3. by rewrite Harg. }
  destruct (startswith (source self1) "minio://") eqn:Hm1.
  { destruct (startswith (source self2) "s3://"); [done|].
    destruct (startswith (source self2) "minio://"); [|done].
    unfold _load_from_minio. by rewrite Harg. }
  destruct (startswith (source self2) "s3://"); [done|].
  destruct (startswith (source self2) "minio://"); [done|].
  unfold _load_from_local. by rewrite Harg.
Qed.

Lemma load_images_uses_selected_arguments_witness :
  load_images (mkDatasetLoader "s3://datasets" None (Some Examples.s3_cfg))
  = load_images (mkDatasetLoader "s3://another-bucket/2024/" (Some Examples.minio_cfg)
                   (Some Examples.s3_cfg)).
Proof.
  apply (load_images_uses_selected_arguments
           (mkDatasetLoader "s3://datasets" None (Some Examples.s3_cfg))
           (mkDatasetLoader "s3://another-bucket/2024/" (Some Examples.minio_cfg)
              (Some Examples.s3_cfg))).
  - reflexivity.
  - reflexivity.
Defined.

(* ===================================================================== *)
(** * Error records *)
(* ===================================================================== *)

Lemma strategy_error_records {A} (body : IO A) prefix w :
  traced body ->
  Forall (fun ev => is_error_record ev = false) (events_of body w) ->
  exists before,
    events_of (try_log_raise prefix body) w =
      before ++ match result_of (try_log_raise prefix body) w with
                | Ok _ => []
                | Err e => [Log ERROR (prefix +:+ exc_str e)]
                end
    /\ Forall (fun ev => is_error_record ev = false) before.
Proof.
  intros Htr Hbody. exists (events_of body w).
  by rewrite events_of_try_log_raise, result_of_try_log_raise.
Qed.

Lemma s3_error_records self w :
  exists before,
    events_of (_load_from_s3 self) w =
      before ++ match result_of (_load_from_s3 self) w with
                | Ok _ => []
                | Err e => [Log ERROR ("Error loading images from S3: " +:+ exc_str e)]
                end
    /\ Forall (fun ev => is_error_record ev = false) before.
Proof.
  apply strategy_error_records; [solve_traced|].
  unfold tqdm, download_fileobj. repeat events_step.
Qed.

Lemma minio_error_records self w :
  exists before,
    events_of (_load_from_minio self) w =
      before ++ match result_of (_load_from_minio self) w with
                | Ok _ => []
                | Err e => [Log ERROR ("Error loading images from MinIO: " +:+ exc_str e)]
                end
    /\ Forall (fun ev => is_error_record ev = false) before.
Proof.
  apply strategy_error_records; [solve_traced|].
  unfold tqdm, fget_object. repeat events_step.
Qed.

Lemma local_error_records self w :
  exists before,
    events_of (_load_from_local self) w =
      before ++ match result_of (_load_from_local self) w with
                | Ok _ => []
                | Err e => [Log ERROR ("Error loading images from local directory: "
                                       +:+ exc_str e)]
                end
    /\ Forall (fun ev => is_error_record ev = false) before.
Proof.
  apply strategy_error_records; [solve_traced|].
  unfold load_file. repeat events_step.
Qed.

(** X23: a call that returns a mapping has logged no error record; a call
    that raises [e] has logged exactly two, the last two events of its
    trace: one of the strategy, naming the origin, and one of
    [load_images], each with the text of [e]. *)
Theorem load_images_error_records self w tr r tr' :
  load_images self w tr = (r, tr') ->
  exists before,
    Forall (fun ev => is_error_record ev = false) before
    /\ match r with
       | Ok _ => tr' = tr ++ before
       | Err e =>
           exists origin,
             origin ∈ ["S3"; "MinIO"; "local directory"]
             /\ tr' = tr ++ before
                         ++ [Log ERROR ("Error loading images from " +:+ origin
                                        +:+ ": " +:+ exc_str e);
                             Log ERROR ("Error loading images: " +:+ exc_str e)]
       end.
Proof.
  intros Hrun.
  destruct (startswith (source self) "s3://") eqn:Hs;
    [|destruct (startswith (source self) "minio://") eqn:Hm].
  - apply startswith_spec in Hs. rewrite (load_images_s3_run _ _ _ Hs) in Hrun.
    destruct (s3_error_records self w) as (before & Hev & Hbefore).
    rewrite Hev in Hrun. injection Hrun as <- <-. exists before. split; [done|].
    destruct (result_of (_load_from_s3 self) w).
    + by rewrite !app_nil_r.
    + exists "S3". split; [set_solver|]. by rewrite <- !app_assoc.
  - assert (Hs' : ~ has_prefix (source self) "s3://").
    { intros H%startswith_spec. congruence. }
    apply startswith_spec in Hm. rewrite (load_images_minio_run _ _ _ Hm) in Hrun.
    destruct (minio_error_records self w) as (before & Hev & Hbefore).
    rewrite Hev in Hrun. injection Hrun as <- <-. exists before. split; [done|].
    destruct (result_of (_load_from_minio self) w).
    + by rewrite !app_nil_r.
    + exists "MinIO". split; [set_solver|]. by rewrite <- !app_assoc.
  - assert (Hs' : ~ has_prefix (source self) "s3://").
    { intros H%startswith_spec. congruence. }
    assert (Hm' : ~ has_prefix (source self) "minio://").
    { intros H%startswith_spec. congruence. }
    rewrite (load_images_local_run _ _ _ Hs' Hm') in Hrun.
    destruct (local_error_records self w) as (before & Hev & Hbefore).
    rewrite Hev in Hrun. injection Hrun as <- <-. exists before. split; [done|].
    destruct (result_of (_load_from_local self) w).
    + by rewrite !app_nil_r.
    + exists "local directory". split; [set_solver|]. by rewrite <- !app_assoc.
Qed.

Lemma load_images_error_records_witness :
  exists before,
    Forall (fun ev => is_error_record ev = false) before
    /\ exists origin,
         origin ∈ ["S3"; "MinIO"; "local directory"]
         /\ Examples.minio_sdk_trace
            = [] ++ before
                 ++ [Log ERROR ("Error loading images from " +:+ origin +:+ ": "
                                +:+ exc_str (TypeError "stat: path should be string, bytes, os.PathLike or integer, not BytesIO"));
                     Log ERROR ("Error loading images: "
                                +:+ exc_str (TypeError "stat: path should be string, bytes, os.PathLike or integer, not BytesIO"))].
Proof.
  apply (load_images_error_records Examples.minio_loader Examples.minio_sdk []
           (Err (TypeError "stat: path should be string, bytes, os.PathLike or integer, not BytesIO"))
           Examples.minio_sdk_trace).
  vm_compute. reflexivity.
Defined.

(* ===================================================================== *)
(** * Local keys *)
(* ===================================================================== *)

Lemma os_path_join_under a b :
  startswith b "/" = false ->
  has_prefix (os_path_join a b) a /\ endswith (os_path_join a b) b = true.
Proof.
  intros Hb. unfold os_path_join. rewrite Hb.
  destruct (String.eqb a "" || endswith a "/"); split.
  - by exists b.
  - apply endswith_spec. by exists a.
  - by exists ("/" +:+ b).
  - apply endswith_spec. exists (a +:+ "/"). by rewrite append_assoc.
Qed.

(** X24: when the directory lists file names (none starts with ["/"]),
    every key of the mapping a local call returns starts with the source
    and ends with the name of a listed entry with a supported extension. *)
Theorem local_keys_under_source self w tr m tr' key :
  ~ has_prefix (source self) "s3://" -> ~ has_prefix (source self) "minio://" ->
  (forall entries file, os_listdir w (source self) = Ok entries ->
     file ∈ entries -> startswith file "/" = false) ->
  load_images self w tr = (Ok m, tr') ->
  is_Some (m !! key) ->
  has_prefix key (source self)
  /\ exists entries file,
       os_listdir w (source self) = Ok entries /\ file ∈ entries
       /\ is_image_name file = true /\ endswith key file = true.
Proof.
  intros Hs Hm Hnames [Hrun _]%load_images_result Hkey.
  rewrite result_of_load_images in Hrun.
  rewrite (startswith_false _ _ Hs), (startswith_false _ _ Hm) in Hrun.
  apply local_Ok_inv in Hrun as (_ & entries & Hls & Hloop).
  destruct (collect_Ok_key _ _ _ _ _ _ key Hloop Hkey) as [Hin|(file & Hf & _ & <-)].
  { rewrite lookup_empty in Hin. by destruct Hin. }
  apply (list_elem_of_filter (fun f => is_image_name f = true)) in Hf as [Himg Hin].
  destruct (os_path_join_under (source self) file (Hnames _ _ Hls Hin)) as [Hpre Hsuf].
  split; [done|]. by exists entries, file.
Qed.

Lemma local_keys_under_source_witness :
  has_prefix "photos/DOG.JPG" "photos"
  /\ exists entries file,
       os_listdir Examples.photos_world "photos" = Ok entries /\ file ∈ entries
       /\ is_image_name file = true /\ endswith "photos/DOG.JPG" file = true.
Proof.
  apply (local_keys_under_source Examples.local_loader Examples.photos_world []
           Examples.photos_loaded Examples.photos_trace "photos/DOG.JPG").
  - by intros [rest [=]].
  - by intros [rest [=]].
  - intros entries file [= <-].
    apply (proj1 (Forall_forall (fun f => startswith f "/" = false) _)).
    repeat constructor.
  - vm_compute. reflexivity.
  - by eexists.
Defined.
